(** * Pixie voice assistant: session relay, transcript reconciler,
      tool dispatcher, audio playback and capture

    A shallow embedding of the content script's transcript reconciler
    ([BoltVoiceAssistant.handleTranscription]), its tool dispatcher
    ([handleToolCall], [executeImprovePrompt], [executeCreatePrompt],
    [executeUpdatePrompt], [sendCommandToBolt]), its playback of the
    agent's audio ([handleAgentAudio], [playNextAudio], [pcmToWav]) and
    its conversion of the microphone samples; and of the background
    script's relay of tool calls ([handleAgentMessage],
    [sendToolResult]) and its connections ([initializeWebSocket],
    [sendAudioChunk], the [DISCONNECT] message and the close handlers).

    JavaScript strings are modelled as [string]s of 8-bit code units; the
    functions compare and cut code units only, so nothing depends on the
    width of a unit.  String lengths are [nat]. *)

From Stdlib Require Import String Ascii Arith ZArith Lia Bool List.
From Stdlib Require Import Floats.PrimFloat Numbers.Cyclic.Int63.Uint63.
From Stdlib Require Import DecimalString DecimalNat.
From Stdlib Require Import Floats.FloatOps Floats.SpecFloat QArith.QArith_base.
From stdpp Require Import base decidable option list gmap strings.

Local Open Scope string_scope.

(* stdpp keeps [String.append] folded under [simpl]; the proofs below
   compute with it. *)
#[local] Arguments String.append !_ _ / : simpl nomatch.

(** ** JavaScript string primitives used by the source *)

Module JsString.

(** The code units below 256 that [String.prototype.trim] removes:
    TAB, LF, VT, FF, CR, SPACE and NO-BREAK SPACE. *)
Definition isWhiteSpace (c : ascii) : bool :=
  match c with
  | "009" | "010" | "011" | "012" | "013" | " " | "160" => true
  | _ => false
  end%char.

(** [s ? ... : ...], [if (s)], [!s] on a string: the empty string is the
    only falsy one. *)
Definition truthy (s : string) : bool :=
  match s with
  | EmptyString => false
  | String _ _ => true
  end.

Fixpoint trimStart (s : string) : string :=
  match s with
  | EmptyString => EmptyString
  | String c r => if isWhiteSpace c then trimStart r else s
  end.

Fixpoint trimEnd (s : string) : string :=
  match s with
  | EmptyString => EmptyString
  | String c r =>
      match trimEnd r with
      | EmptyString => if isWhiteSpace c then EmptyString else String c EmptyString
      | r' => String c r'
      end
  end.

Definition trim (s : string) : string := trimEnd (trimStart s).

(** [s.startsWith(p)] *)
Fixpoint startsWith (s p : string) {struct p} : bool :=
  match p, s with
  | EmptyString, _ => true
  | String _ _, EmptyString => false
  | String b p', String a s' => Ascii.eqb a b && startsWith s' p'
  end.

(** [s.endsWith(p)] *)
Definition endsWith (s p : string) : bool :=
  startsWith (String.rev s) (String.rev p).

(** [s.substring(start)]: past the end it is the empty string. *)
Fixpoint substringFrom (s : string) (start : nat) {struct start} : string :=
  match start, s with
  | 0, _ => s
  | S n, String _ r => substringFrom r n
  | S _, EmptyString => EmptyString
  end.

(** [s.substring(0, stop)]: [stop] is clamped to the length. A negative
    [stop] counts as 0 in JavaScript; the callers compute [stop] by a
    subtraction on [nat], which truncates at 0 in the same way. *)
Fixpoint substringTo (s : string) (stop : nat) {struct stop} : string :=
  match stop, s with
  | 0, _ => EmptyString
  | S n, String c r => String c (substringTo r n)
  | S _, EmptyString => EmptyString
  end.

(** [s.slice(1, -1)] *)
Definition slice1m1 (s : string) : string :=
  substringTo (substringFrom s 1) (String.length s - 2).

(** [s[i]]: [None] stands for [undefined]. *)
Definition charAt (s : string) (i : nat) : option ascii := String.get i s.

(** [a === b] on two results of indexing. *)
Definition strictEq (a b : option ascii) : bool :=
  match a, b with
  | Some x, Some y => Ascii.eqb x y
  | None, None => true
  | _, _ => false
  end.

(** [l.join(', ')] *)
Fixpoint join (sep : string) (l : list string) : string :=
  match l with
  | [] => EmptyString
  | [x] => x
  | x :: r => x +:+ sep +:+ join sep r
  end.

End JsString.

Import JsString.

(** ** The content script: page, assistant state, effects *)

Module Content.

(** What the page and the user see of the assistant. *)
Inductive UiEvent :=
| ShowNotification (message kind : string)
| HideNotification
| ShowTranscription (text : string)
| InsertText (text : string).

(** The values a tool call can produce: the registered handlers answer
    in words; the other values come from members the tool table
    inherits. *)
Inductive JsValue :=
| VString (s : string)
| VBool (b : bool)
| VUndefined
| VObject (tag : string).

(** A [TOOL_RESULT] message for the background script.  An identifier
    is a string, or [None] for [undefined]. *)
Record ToolResult := {
  toolCallId : option string;
  result : JsValue;
  success : bool
}.

(** A request to the generative-text API ([fetch]). *)
Record ApiRequest := {
  apiKeyUsed : string;
  systemInstruction : string;
  userPrompt : string
}.

(** The assistant object together with the page it lives in.
    [textarea] is the value of the element [getBoltTextarea] finds,
    [None] when no selector matches.  [ui] and [requests] log the
    effects, newest first. *)
Record World := {
  isRecording : bool;
  lastSDKText : string;
  lastRawSDKText : string;
  fullTranscript : string;
  previousSessionText : string;
  textarea : option string;
  ui : list UiEvent;
  requests : list ApiRequest
}.

Definition setRecording (b : bool) (w : World) : World :=
  {| isRecording := b; lastSDKText := lastSDKText w;
     lastRawSDKText := lastRawSDKText w; fullTranscript := fullTranscript w;
     previousSessionText := previousSessionText w; textarea := textarea w;
     ui := ui w; requests := requests w |}.

Definition setTranscript (raw clean full : string) (w : World) : World :=
  {| isRecording := isRecording w; lastSDKText := clean;
     lastRawSDKText := raw; fullTranscript := full;
     previousSessionText := previousSessionText w; textarea := textarea w;
     ui := ui w; requests := requests w |}.

Definition setPreviousSessionText (p : string) (w : World) : World :=
  {| isRecording := isRecording w; lastSDKText := lastSDKText w;
     lastRawSDKText := lastRawSDKText w; fullTranscript := fullTranscript w;
     previousSessionText := p; textarea := textarea w;
     ui := ui w; requests := requests w |}.

Definition setTextarea (t : option string) (w : World) : World :=
  {| isRecording := isRecording w; lastSDKText := lastSDKText w;
     lastRawSDKText := lastRawSDKText w; fullTranscript := fullTranscript w;
     previousSessionText := previousSessionText w; textarea := t;
     ui := ui w; requests := requests w |}.

Definition logUi (e : UiEvent) (w : World) : World :=
  {| isRecording := isRecording w; lastSDKText := lastSDKText w;
     lastRawSDKText := lastRawSDKText w; fullTranscript := fullTranscript w;
     previousSessionText := previousSessionText w; textarea := textarea w;
     ui := e :: ui w; requests := requests w |}.

Definition logRequest (r : ApiRequest) (w : World) : World :=
  {| isRecording := isRecording w; lastSDKText := lastSDKText w;
     lastRawSDKText := lastRawSDKText w; fullTranscript := fullTranscript w;
     previousSessionText := previousSessionText w; textarea := textarea w;
     ui := ui w; requests := r :: requests w |}.

(** *** [sendCommandToBolt(command, append)] *)
Definition sendCommandToBolt (command : string) (append : bool) (w : World) : World :=
  match textarea w with
  | Some value =>
      let finalText :=
        if append && truthy value then value +:+ " " +:+ command else command in
      logUi (InsertText finalText) (setTextarea (Some finalText) w)
  | None =>
      logUi (ShowNotification "Could not find input field to send command" "warning") w
  end.

Definition showTranscription (text : string) (w : World) : World :=
  logUi (ShowTranscription text) w.

(** *** The reconciler, [handleTranscription] *)

(** The [for] loop that counts the common prefix: [fuel] is the number of
    iterations left ([minLen - i]). *)
Fixpoint commonLenLoop (fuel i commonLen : nat) (lastSDK cleanText : string) : nat :=
  match fuel with
  | 0 => commonLen
  | S fuel' =>
      if strictEq (charAt lastSDK i) (charAt cleanText i)
      then commonLenLoop fuel' (S i) (S commonLen) lastSDK cleanText
      else commonLen
  end.

Definition commonLen (lastSDK cleanText : string) : nat :=
  let minLen := Nat.min (String.length lastSDK) (String.length cleanText) in
  commonLenLoop minLen 0 0 lastSDK cleanText.

(** [commonLen > lastSDKText.length * 0.3], as JavaScript computes it: the
    product is an IEEE double, 0.3 being the double 0x1.3333333333333p-2. *)
Definition doubleOfNat (n : nat) : float :=
  PrimFloat.of_uint63 (Uint63.of_Z (Z.of_nat n)).

Definition significantOverlapDouble (common len : nat) : bool :=
  PrimFloat.ltb (PrimFloat.mul (doubleOfNat len) 0x1.3333333333333p-2%float)
                (doubleOfNat common).

(** The same comparison on integers, [10 * commonLen > 3 * length].  The
    two agree for lengths below 2^53: when [3 * length] is a multiple of 10
    the product rounds to the exact integer, and otherwise it is at least
    1/10 away from every integer ([significantOverlap_double] checks the
    lengths up to 200). *)
Definition significantOverlap (common len : nat) : bool :=
  (3 * len <? 10 * common)%nat.

(** The accumulation step: the new [fullTranscript]. *)
Definition reconcile (lastSDK full cleanText : string) : string :=
  if negb (truthy lastSDK) then cleanText
  else if startsWith cleanText lastSDK then
    full +:+ substringFrom cleanText (String.length lastSDK)
  else
    let common := commonLen lastSDK cleanText in
    if significantOverlap common (String.length lastSDK) then
      let oldTailLen := String.length lastSDK - common in
      substringTo full (String.length full - oldTailLen)
        +:+ substringFrom cleanText common
    else
      full +:+ " " +:+ cleanText.

(** The text left after the previous session's prefix is stripped. *)
Definition cleanOf (previousSession text : string) : string :=
  if truthy previousSession && startsWith text previousSession
  then trimStart (substringFrom text (String.length previousSession))
  else text.

Definition handleTranscription (text : string) (w : World) : World :=
  if negb (isRecording w) then w
  else if truthy text && truthy (trim text) then
    let cleanText := cleanOf (previousSessionText w) text in
    if truthy cleanText && truthy (trim cleanText) then
      let full := reconcile (lastSDKText w) (fullTranscript w) cleanText in
      let w1 := setTranscript text cleanText full w in
      showTranscription full (sendCommandToBolt full false w1)
    else w
  else w.

(** *** Asynchronous handlers

    A handler runs on the assistant's world and either returns or throws.
    At an [await] the handler is suspended and other event handlers of the
    page may run: the environment says what they do to the world. *)

Inductive Outcome (A : Type) : Type :=
| Returned (a : A)
| Thrown (message : string).
Arguments Returned {A} a.
Arguments Thrown {A} message.

Definition Task (A : Type) : Type := World -> Outcome A * World.

#[export] Instance task_ret : MRet Task := fun A a w => (Returned a, w).

#[export] Instance task_bind : MBind Task := fun A B k t w =>
  match t w with
  | (Returned a, w1) => k a w1
  | (Thrown message, w1) => (Thrown message, w1)
  end.

Definition throw {A : Type} (message : string) : Task A :=
  fun w => (Thrown message, w).

(** [try { body } catch (error) { handler(error.message) }] *)
Definition tryCatch {A : Type} (body : Task A) (handler : string -> Task A) : Task A :=
  fun w =>
    match body w with
    | (Thrown message, w1) => handler message w1
    | done => done
    end.

Definition effect (f : World -> World) : Task unit := fun w => (Returned tt, f w).

Definition read {A : Type} (f : World -> A) : Task A := fun w => (Returned (f w), w).

(** The body of the response of the generative-text API, as
    [response.json()] and the reads of
    [data.candidates[0].content.parts[0].text] see it. *)
Inductive GeminiBody :=
| BodyUnreadable (why : string)
| NoCandidate
| CandidateWithoutText (why : string)
| CandidateText (text : string).

(** The body of an error response: [error.error?.message]. *)
Inductive ErrorBody :=
| ErrorUnreadable (why : string)
| ErrorJson (message : option string).

Inductive FetchOutcome :=
| NetworkFailure (why : string)
| HttpError (statusText : string) (body : ErrorBody)
| HttpOk (body : GeminiBody).

(** What [chrome.storage.sync.get(['geminiApiKey'])] settles to: the
    promise is rejected, or it gives the stored key ([None] for
    [undefined]). *)
Inductive StorageRead :=
| ReadFails (why : string)
| ReadGives (key : option string).

(** What lies outside the content script: the outcome of reading the
    stored API key, the answer of the API to a request, and what the
    other handlers of the page do while this one is suspended at its
    [n]-th [await]. *)
Record Env := {
  storageRead : StorageRead;
  fetchOutcome : ApiRequest -> FetchOutcome;
  whileSuspended : nat -> World -> World
}.

(** [result.geminiApiKey], where the read gives a result. *)
Definition geminiApiKey (env : Env) : option string :=
  match storageRead env with
  | ReadGives key => key
  | ReadFails _ => None
  end.

Definition await (env : Env) (n : nat) : Task unit := effect (whileSuspended env n).

Definition showNotification (message kind : string) : Task unit :=
  effect (logUi (ShowNotification message kind)).

Definition hideNotification : Task unit := effect (logUi HideNotification).

(** [getBoltTextarea()] and the [value] of what it finds. *)
Definition getBoltTextarea : Task (option string) := read textarea.

(** [(await chrome.storage.sync.get(['geminiApiKey'])).geminiApiKey]:
    a rejected read throws at the [await]. *)
Definition storageGet (env : Env) : Task (option string) :=
  await env 0;;
  match storageRead env with
  | ReadGives key => mret key
  | ReadFails why => throw why
  end.

(** [await fetch(...)] *)
Definition fetch (env : Env) (request : ApiRequest) : Task FetchOutcome :=
  effect (logRequest request);; await env 1;; mret (fetchOutcome env request).

(** Tool parameters: the JSON object of the tool call, from property
    names to (string) values. *)
Abbreviation Params := (gmap string string).

Definition dquote : string := String (ascii_of_nat 34) "".
Definition newline : string := String (ascii_of_nat 10) "".

(** The fixed system instruction of [improve_prompt]: a constant of some
    fifteen lines, of which the first sentence is kept. *)
Definition improveSystemInstruction : string :=
  "You are an expert at writing prompts for bolt.new, an AI-powered full-stack web development platform.".

(** Remove surrounding quotes if present. *)
Definition stripQuotes (s : string) : string :=
  if (startsWith s dquote && endsWith s dquote)
     || (startsWith s "'" && endsWith s "'")
  then slice1m1 s else s.

Definition truthyOpt (o : option string) : bool :=
  match o with
  | Some s => truthy s
  | None => false
  end.

Definition improveEmptyMessage : string :=
  "I don't see any text in the textarea. Could you type a prompt first, then ask me to improve it?".

Definition improveDoneMessage : string :=
  "Done! I've improved your prompt and updated the textarea. You're ready to go!".

Definition improveSpinner : UiEvent :=
  ShowNotification "⏳ Improving prompt..." "info".

(** The request [executeImprovePrompt] builds: the key in the URL, the
    system instruction, and the user message made of the field's content
    and the optional guidance. *)
Definition improveRequest (key actualPrompt : string) (user_idea : option string)
    : ApiRequest :=
  let userPrompt :=
    "Please improve this bolt.new prompt (respond in ENGLISH only):"
    +:+ newline +:+ newline +:+ dquote +:+ actualPrompt +:+ dquote
    +:+ newline +:+ newline
    +:+ (if truthyOpt user_idea
         then "User's additional guidance: " +:+ default "" user_idea
         else "") in
  {| apiKeyUsed := key;
     systemInstruction := improveSystemInstruction;
     userPrompt := userPrompt |}.

(** *** [executeImprovePrompt(parameters)]; [None] is [undefined]. *)
Definition executeImprovePrompt (env : Env) (parameters : option Params) : Task JsValue :=
  match parameters with
  | None =>
      throw "Cannot destructure property 'user_idea' of 'parameters' as it is undefined."
  | Some parameters =>
      let user_idea := parameters !! "user_idea" in
      effect (logUi improveSpinner);;
      field ← getBoltTextarea;
      let actualPrompt := match field with Some value => trim value | None => "" end in
      if negb (truthy actualPrompt) then
        hideNotification;;
        mret (VString improveEmptyMessage)
      else
        key ← storageGet env;
        if negb (truthyOpt key) then
          hideNotification;;
          mret (VString "Oops! The Gemini API key isn't configured yet. Please set it in the extension settings.")
        else
          tryCatch
            (response ← fetch env (improveRequest (default "" key) actualPrompt user_idea);
             match response with
             | NetworkFailure why => throw why
             | HttpError statusText body =>
                 await env 2;;
                 match body with
                 | ErrorUnreadable why => throw why
                 | ErrorJson message =>
                     mret (VString ("Sorry, I got an error from Gemini: "
                                    +:+ (if truthyOpt message then default "" message
                                         else statusText)))
                 end
             | HttpOk body =>
                 await env 2;;
                 match body with
                 | BodyUnreadable why => throw why
                 | NoCandidate =>
                     mret (VString "Sorry, I got an unexpected response from Gemini. Please try again.")
                 | CandidateWithoutText why => throw why
                 | CandidateText text =>
                     let improvedPrompt := stripQuotes (trim text) in
                     effect (sendCommandToBolt improvedPrompt false);;
                     hideNotification;;
                     showNotification "✅ Prompt improved!" "success";;
                     mret (VString improveDoneMessage)
                 end
             end)
            (fun message =>
               hideNotification;;
               mret (VString ("Sorry, something went wrong while improving your prompt: "
                              +:+ message)))
  end.

(** *** The tool table [clientTools] and [handleToolCall] *)

Inductive Tool :=
| improve_prompt
| create_prompt
| update_prompt
| analyze_ui
| suggest_next_steps.

Definition nameOfTool (t : Tool) : string :=
  match t with
  | improve_prompt => "improve_prompt"
  | create_prompt => "create_prompt"
  | update_prompt => "update_prompt"
  | analyze_ui => "analyze_ui"
  | suggest_next_steps => "suggest_next_steps"
  end.

(** [Object.keys(this.clientTools)], in insertion order. *)
Definition registeredTools : list Tool :=
  [improve_prompt; create_prompt; update_prompt; analyze_ui; suggest_next_steps].

Definition registeredNames : list string := map nameOfTool registeredTools.

Definition toolOfName (name : string) : option Tool :=
  List.find (fun t => String.eqb (nameOfTool t) name) registeredTools.

(** [clientTools] is an object literal, so a property read that finds no
    own property continues on [Object.prototype].  These are its
    members. *)
Definition objectPrototypeMembers : list string :=
  ["constructor"; "__defineGetter__"; "__defineSetter__"; "hasOwnProperty";
   "__lookupGetter__"; "__lookupSetter__"; "isPrototypeOf";
   "propertyIsEnumerable"; "toString"; "valueOf"; "__proto__";
   "toLocaleString"].

(** The value of [this.clientTools[toolName]]. *)
Inductive Property :=
| OwnTool (t : Tool)
| Inherited (member : string)
| Missing.

Definition getProperty (toolName : string) : Property :=
  match toolOfName toolName with
  | Some t => OwnTool t
  | None =>
      if bool_decide (toolName ∈ objectPrototypeMembers)
      then Inherited toolName else Missing
  end.

(** Converting the argument to a property key fails on an object whose
    own [toString] is not a function, and yields "[object Object]"
    otherwise; [undefined] converts to "undefined". *)
Definition keyOfArgument (parameters : option Params) : Outcome string :=
  match parameters with
  | None => Returned "undefined"
  | Some o =>
      if bool_decide ("toString" ∈ dom o)
      then Thrown "Cannot convert object to primitive value"
      else Returned "[object Object]"
  end.

(** [this.clientTools[member](parameters)] for an inherited [member]:
    the member of [Object.prototype] is called on the tool table. *)
Definition callInherited (member : string) (parameters : option Params) : Outcome JsValue :=
  if bool_decide (member ∈ ["toString"; "toLocaleString"]) then
    Returned (VString "[object Object]")
  else if bool_decide (member = "valueOf") then
    Returned (VObject "clientTools")
  else if bool_decide (member = "constructor") then
    Returned (VObject "parameters")
  else if bool_decide (member = "isPrototypeOf") then
    Returned (VBool false)
  else if bool_decide (member ∈ ["hasOwnProperty"; "propertyIsEnumerable"]) then
    match keyOfArgument parameters with
    | Returned _ => Returned (VBool false)
    | Thrown why => Thrown why
    end
  else if bool_decide (member ∈ ["__lookupGetter__"; "__lookupSetter__"]) then
    match keyOfArgument parameters with
    | Returned _ => Returned VUndefined
    | Thrown why => Thrown why
    end
  else if bool_decide (member ∈ ["__defineGetter__"; "__defineSetter__"]) then
    Thrown ("Object.prototype." +:+ member +:+ ": Expecting function")
  else
    Thrown "this.clientTools[toolName] is not a function".

Section Dispatcher.

Variable env : Env.

(** The four other registered handlers. *)
Variables executeCreatePrompt executeUpdatePrompt
          executeAnalyzeUI executeSuggestNextSteps : option Params -> Task JsValue.

Definition clientTools (t : Tool) : option Params -> Task JsValue :=
  match t with
  | improve_prompt => executeImprovePrompt env
  | create_prompt => executeCreatePrompt
  | update_prompt => executeUpdatePrompt
  | analyze_ui => executeAnalyzeUI
  | suggest_next_steps => executeSuggestNextSteps
  end.

(** [handleToolCall(toolName, toolCallId, parameters)]: the world after
    the call and the [TOOL_RESULT] message it sends.  An own tool and
    an inherited member are truthy, so both are called; a missing
    property is [undefined]. *)
Definition handleToolCall (toolName : string) (toolCallId : option string)
    (parameters : option Params) (w : World) : World * ToolResult :=
  let '(answer, success, w') :=
    match getProperty toolName with
    | OwnTool t =>
        let '(answer, w1) := clientTools t parameters w in (answer, true, w1)
    | Inherited member => (callInherited member parameters, true, w)
    | Missing =>
        (Returned (VString ("Unknown tool: " +:+ toolName +:+ ". Available tools: "
                            +:+ join ", " registeredNames)), false, w)
    end in
  let message :=
    match answer with
    | Returned value =>
        {| toolCallId := toolCallId; result := value; success := success |}
    | Thrown why =>
        {| toolCallId := toolCallId;
           result := VString ("Error executing " +:+ toolName +:+ ": " +:+ why);
           success := false |}
    end in
  (w', message).

(** [handleUserTranscript(text, eventId)] *)
Definition handleUserTranscript (text : string) (w : World) : World :=
  if truthy text && truthy (trim text) then showTranscription text w else w.

End Dispatcher.

(** *** Session start and stop, as far as the reconciler is concerned *)

(** The assistant right after [startRecording] has reset the transcript
    accumulation: recording, nothing accumulated, the text saved from
    the previous session still stored. *)
Definition sessionStart (previousSession : string) (field : option string) : World :=
  {| isRecording := true; lastSDKText := ""; lastRawSDKText := "";
     fullTranscript := ""; previousSessionText := previousSession;
     textarea := field; ui := []; requests := [] |}.

(** A world given by its reconciler fields, showing the transcript in the
    page's text field. *)
Definition reconcilerState (recording : bool)
    (lastSDK lastRaw full previousSession : string) : World :=
  {| isRecording := recording; lastSDKText := lastSDK; lastRawSDKText := lastRaw;
     fullTranscript := full; previousSessionText := previousSession;
     textarea := Some full; ui := []; requests := [] |}.

(** [stopRecording]: the flag is cleared first, the last raw text is kept
    for the next session, the transcript state is reset. *)
Definition stopRecording (w : World) : World :=
  let w1 := setRecording false w in
  let w2 := if truthy (lastRawSDKText w1)
            then setPreviousSessionText (lastRawSDKText w1) w1 else w1 in
  let w3 := setTranscript "" "" "" w2 in
  logUi (ShowNotification "Voice assistant deactivated" "info") w3.

End Content.

(** ** The background script: relay of tool calls and results *)

Module Background.

Import Content.

(** [tool_call_event] / [client_tool_call]: every field may be absent. *)
Record ToolCallEvent := {
  tool_name : option string;
  tool_call_id : option string;
  parameters : option Params
}.

(** [conversation_initiation_metadata_event], with the two fields the
    script stores. *)
Record MetadataEvent := {
  conversation_id : option string;
  agent_output_audio_format : option string
}.

(** The messages of the agent socket, by [message.type].  A field that
    holds an event object is [None] when the message lacks it. *)
Inductive AgentMessage :=
| ConversationInitiationMetadata
    (conversation_initiation_metadata_event : option MetadataEvent)
| Audio (audio_base_64 : option string)
| Interruption
| Ping (event_id : option string)
| AgentResponse (agent_response_event : option (option string))
| UserTranscript (user_transcript : option string)
| ToolCall (tool_call_event : option ToolCallEvent)
| ClientToolCall (toolCallData : ToolCallEvent)
| Unhandled.

(** Messages for the content script ([notifyContentScript]). *)
Inductive Notification :=
| AGENT_AUDIO (audioBase64 : string)
| AGENT_RESPONSE (text : option string)
| USER_TRANSCRIPT (text : string)
| TOOL_CALL (toolName : option string) (toolCallId : option string)
            (parameters : option Params).

(** Frames sent on the agent socket. *)
Inductive Frame :=
| ToolRegistration
| Pong (event_id : option string)
| ClientToolResponse (tool_call_id : option string) (result : JsValue).

Record Relay := {
  forwardedToolCalls : gset (option string);
  toolsRegistered : bool;
  websocketOpen : bool;
  currentTabId : option nat
}.

Record Output := {
  notes : list Notification;
  frames : list Frame
}.

Definition silent : Output := {| notes := []; frames := [] |}.

(** [notifyContentScript(type, data)].  The guard is [!currentTabId]:
    nothing is sent without a tab, nor to the tab whose identifier is 0. *)
Definition notifyContentScript (r : Relay) (n : Notification) : Output :=
  match currentTabId r with
  | Some (S _) => {| notes := [n]; frames := [] |}
  | Some 0 | None => silent
  end.

Definition markForwarded (id : option string) (r : Relay) : Relay :=
  {| forwardedToolCalls := {[ id ]} ∪ forwardedToolCalls r;
     toolsRegistered := toolsRegistered r;
     websocketOpen := websocketOpen r;
     currentTabId := currentTabId r |}.

Definition markRegistered (r : Relay) : Relay :=
  {| forwardedToolCalls := forwardedToolCalls r;
     toolsRegistered := true;
     websocketOpen := websocketOpen r;
     currentTabId := currentTabId r |}.

(** [handleToolCall(toolCallEvent)] of the background script. *)
Definition forwardToolCall (r : Relay) (e : ToolCallEvent) : Output :=
  notifyContentScript r (TOOL_CALL (tool_name e) (tool_call_id e) (parameters e)).

(** [handleAgentMessage(data)].  The whole body is in a [try] whose
    [catch] only logs, so a case that throws ends there: the metadata
    case reads [metadata.conversation_id] first, which throws when the
    message has no event object, and its [send] throws when there is no
    open socket, before the flag is set. *)
Definition handleAgentMessage (m : AgentMessage) (r : Relay) : Relay * Output :=
  match m with
  | ConversationInitiationMetadata None => (r, silent)
  | ConversationInitiationMetadata (Some metadata) =>
      if negb (toolsRegistered r) then
        if websocketOpen r
        then (markRegistered r, {| notes := []; frames := [ToolRegistration] |})
        else (r, silent)
      else (r, silent)
  | Audio audio_base_64 =>
      if truthyOpt audio_base_64
      then (r, notifyContentScript r (AGENT_AUDIO (default "" audio_base_64)))
      else (r, silent)
  | Interruption => (r, silent)
  | Ping event_id =>
      if websocketOpen r
      then (r, {| notes := []; frames := [Pong event_id] |})
      else (r, silent)
  | AgentResponse (Some text) => (r, notifyContentScript r (AGENT_RESPONSE text))
  | AgentResponse None => (r, silent)
  | UserTranscript user_transcript =>
      if truthyOpt user_transcript
      then (r, notifyContentScript r (USER_TRANSCRIPT (default "" user_transcript)))
      else (r, silent)
  | ToolCall (Some toolCallEvent) =>
      if truthyOpt (tool_call_id toolCallEvent) then
        if bool_decide (tool_call_id toolCallEvent ∈ forwardedToolCalls r)
        then (r, silent)
        else (markForwarded (tool_call_id toolCallEvent) r,
              forwardToolCall r toolCallEvent)
      else (r, silent)
  | ToolCall None => (r, silent)
  | ClientToolCall toolCallData =>
      if bool_decide (tool_call_id toolCallData ∈ forwardedToolCalls r)
      then (r, silent)
      else (markForwarded (tool_call_id toolCallData) r,
            notifyContentScript r
              (TOOL_CALL (tool_name toolCallData) (tool_call_id toolCallData)
                         (Some (default ∅ (parameters toolCallData)))))
  | Unhandled => (r, silent)
  end.

(** [sendToolResult(toolCallId, result, success)].  Without an open
    socket nothing is sent.  With one, the frame carries the result, a
    string as it is and anything else through [JSON.stringify]; for
    [undefined] that gives [undefined], the preview that is logged
    before the [send] takes a substring of it and throws, and the
    [catch] only logs: no frame is sent. *)
Definition sendToolResult (r : Relay) (m : ToolResult) : list Frame :=
  if websocketOpen r then
    match result m with
    | VUndefined => []
    | value => [ClientToolResponse (toolCallId m) value]
    end
  else [].

(** [websocket.onclose].  The handler is the same for every agent socket
    the script has created and does not look at which one has closed. *)
Definition onclose (r : Relay) : Relay :=
  {| forwardedToolCalls := ∅;
     toolsRegistered := false;
     websocketOpen := false;
     currentTabId := currentTabId r |}.

(** The relay when the agent socket has just opened for tab [tab]. *)
Definition connected (tab : nat) : Relay :=
  {| forwardedToolCalls := ∅; toolsRegistered := false;
     websocketOpen := true; currentTabId := Some tab |}.

(** *** The two scripts together

    The background script relays the messages of the agent, the content
    script handles what it is notified of, and the background script
    sends the tool results back.  The handlers of the content script
    are asynchronous: what a handler does to the page is applied when
    the call is delivered (what else happens on the page while it is
    suspended is in the environment), but its [TOOL_RESULT] reaches the
    background script later, at an event of its own, so the results
    arrive in any order and with any other event in between.

    [notified], [results] and [sent] log the traffic, oldest first:
    the notifications sent to the content script, the [TOOL_RESULT]
    messages that have reached the background script, the frames sent
    to the agent.  [pending] holds the [TOOL_RESULT] messages that have
    not arrived yet. *)

Record System := {
  relay : Relay;
  content : World;
  notified : list Notification;
  pending : list ToolResult;
  results : list ToolResult;
  sent : list Frame
}.

(** What happens to the two scripts: a message of the agent arrives
    ([onmessage]), the [k]-th pending [TOOL_RESULT] arrives, or the
    close handler of an agent socket runs.  A close notifies the
    content script only of an unexpected close code, and the content
    script only logs that. *)
Inductive Event :=
| FromAgent (m : AgentMessage)
| ToolResultArrives (k : nat)
| SocketCloses.

Section Session.

Variable env : Env.
Variables executeCreatePrompt executeUpdatePrompt
          executeAnalyzeUI executeSuggestNextSteps : option Params -> Task JsValue.

(** The message listener of the content script. *)
Definition deliver (n : Notification) (w : World) : World * list ToolResult :=
  match n with
  | TOOL_CALL toolName toolCallId parameters =>
      let '(w', message) :=
        handleToolCall env executeCreatePrompt executeUpdatePrompt
          executeAnalyzeUI executeSuggestNextSteps
          (default "undefined" toolName) toolCallId parameters w in
      (w', [message])
  | USER_TRANSCRIPT text => (handleUserTranscript text w, [])
  | AGENT_AUDIO _ | AGENT_RESPONSE _ => (w, [])
  end.

Fixpoint deliverAll (ns : list Notification) (w : World) : World * list ToolResult :=
  match ns with
  | [] => (w, [])
  | n :: rest =>
      let '(w1, out1) := deliver n w in
      let '(w2, out2) := deliverAll rest w1 in
      (w2, (out1 ++ out2)%list)
  end.

Definition step (s : System) (e : Event) : System :=
  match e with
  | FromAgent m =>
      let '(r, out) := handleAgentMessage m (relay s) in
      let '(w, answers) := deliverAll (notes out) (content s) in
      {| relay := r; content := w;
         notified := (notified s ++ notes out)%list;
         pending := (pending s ++ answers)%list;
         results := results s;
         sent := (sent s ++ frames out)%list |}
  | ToolResultArrives k =>
      match pending s !! k with
      | Some answer =>
          {| relay := relay s; content := content s;
             notified := notified s;
             pending := delete k (pending s);
             results := (results s ++ [answer])%list;
             sent := (sent s ++ sendToolResult (relay s) answer)%list |}
      | None => s
      end
  | SocketCloses =>
      {| relay := onclose (relay s); content := content s;
         notified := notified s; pending := pending s;
         results := results s; sent := sent s |}
  end.

Definition run (s : System) (es : list Event) : System :=
  fold_left step es s.

Definition sessionOpened (tab : nat) (w : World) : System :=
  {| relay := connected tab; content := w;
     notified := []; pending := []; results := []; sent := [] |}.

End Session.

End Background.

(** ** The background script: connections and the microphone audio *)

Module Service.

(** [WebSocket.readyState] *)
Inductive ReadyState := CONNECTING | OPEN | CLOSING | CLOSED.

(** What leaves the background script with microphone audio: a
    [user_audio_chunk] frame on an agent socket, or a [send] on a Scribe
    connection. *)
Inductive Sent :=
| UserAudioChunk (socket : nat) (audio : list Z)
| ScribeAudio (connection : nat) (audio : list Z).

(** The globals of the script that the connections use.  Sockets and
    Scribe connections are objects; they are told apart by a number.
    [readyState] holds the state of every agent socket created so far.
    [sent] logs the audio sent, oldest first. *)
Record Worker := {
  websocket : option nat;
  scribeConnection : option nat;
  isScribeConnected : bool;
  currentMode : option string;
  agentId : option string;
  readyState : gmap nat ReadyState;
  sent : list Sent
}.

(** The values of the declarations. *)
Definition newWorker : Worker :=
  {| websocket := None; scribeConnection := None; isScribeConnected := false;
     currentMode := None; agentId := None; readyState := ∅; sent := [] |}.

Definition readyStateOf (s : Worker) (socket : nat) : ReadyState :=
  default CLOSED (readyState s !! socket).

Definition isOpen (s : Worker) (socket : nat) : bool :=
  match readyStateOf s socket with
  | OPEN => true
  | _ => false
  end.

Definition setWebsocket (socket : option nat) (s : Worker) : Worker :=
  {| websocket := socket; scribeConnection := scribeConnection s;
     isScribeConnected := isScribeConnected s; currentMode := currentMode s;
     agentId := agentId s; readyState := readyState s; sent := sent s |}.

Definition setScribe (connection : option nat) (connected : bool) (s : Worker) : Worker :=
  {| websocket := websocket s; scribeConnection := connection;
     isScribeConnected := connected; currentMode := currentMode s;
     agentId := agentId s; readyState := readyState s; sent := sent s |}.

Definition setMode (mode agent : option string) (s : Worker) : Worker :=
  {| websocket := websocket s; scribeConnection := scribeConnection s;
     isScribeConnected := isScribeConnected s; currentMode := mode;
     agentId := agent; readyState := readyState s; sent := sent s |}.

Definition setReadyState (socket : nat) (state : ReadyState) (s : Worker) : Worker :=
  {| websocket := websocket s; scribeConnection := scribeConnection s;
     isScribeConnected := isScribeConnected s; currentMode := currentMode s;
     agentId := agentId s; readyState := <[socket := state]> (readyState s);
     sent := sent s |}.

Definition send (frame : Sent) (s : Worker) : Worker :=
  {| websocket := websocket s; scribeConnection := scribeConnection s;
     isScribeConnected := isScribeConnected s; currentMode := currentMode s;
     agentId := agentId s; readyState := readyState s;
     sent := (sent s ++ [frame])%list |}.

(** [initializeWebSocket(key, agentIdParam, tabId, mode)] up to its first
    [await]: the globals are set; in transcription mode a connection
    that is open is kept (and nothing more happens), one that is not is
    closed and forgotten. *)
Definition initializeWebSocket (agentIdParam : option string) (mode : string)
    (s : Worker) : Worker :=
  let s := setMode (Some mode) agentIdParam s in
  if String.eqb mode "transcription" then
    match scribeConnection s with
    | Some _ => if isScribeConnected s then s else setScribe None false s
    | None => s
    end
  else s.

(** [websocket = new WebSocket(signedUrl)], once the signed URL has
    arrived. *)
Definition socketCreated (socket : nat) (s : Worker) : Worker :=
  setWebsocket (Some socket) (setReadyState socket CONNECTING s).

(** The socket opens; [onopen] only notifies the content script. *)
Definition onopen (socket : nat) (s : Worker) : Worker :=
  setReadyState socket OPEN s.

(** The socket has closed and its [onclose] runs. *)
Definition onclose (socket : nat) (s : Worker) : Worker :=
  setWebsocket None (setReadyState socket CLOSED s).

(** [scribeConnection = connection], once the token has arrived. *)
Definition scribeCreated (connection : nat) (s : Worker) : Worker :=
  setScribe (Some connection) (isScribeConnected s) s.

(** The handler of [RealtimeEvents.OPEN] *)
Definition scribeOpened (connection : nat) (s : Worker) : Worker :=
  setScribe (scribeConnection s) true s.

(** The handler of [RealtimeEvents.CLOSE] *)
Definition scribeClosed (connection : nat) (s : Worker) : Worker :=
  setScribe (scribeConnection s) false s.

Section Engine.

(** The largest number of arguments the engine accepts in a call. *)
Variable maxArguments : nat.

(** [sendAudioChunk(audioData)].  [String.fromCharCode.apply(null,
    audioBuffer)] throws when the chunk has more bytes than a call may
    have arguments, and a [send] on a connection that is [null] throws
    as well; both are caught. *)
Definition sendAudioChunk (audioData : list Z) (s : Worker) : Worker :=
  match currentMode s with
  | Some mode =>
      if String.eqb mode "transcription" then
        if negb (isScribeConnected s) then s
        else if (maxArguments <? length audioData)%nat then s
        else match scribeConnection s with
             | Some connection => send (ScribeAudio connection audioData) s
             | None => s
             end
      else if String.eqb mode "agent" then
        match websocket s with
        | Some socket =>
            if isOpen s socket then
              if (maxArguments <? length audioData)%nat then s
              else send (UserAudioChunk socket audioData) s
            else s
        | None => s
        end
      else s
  | None => s
  end.

(** The [DISCONNECT] case of the message listener. *)
Definition disconnect (s : Worker) : Worker :=
  let s := match websocket s with
           | Some socket =>
               if isOpen s socket
               then setWebsocket None (setReadyState socket CLOSING s)
               else s
           | None => s
           end in
  let s := match scribeConnection s with
           | Some _ => if isScribeConnected s then setScribe None false s else s
           | None => s
           end in
  setMode None (agentId s) s.

(** What happens to the background script: the messages of the content
    script and the events of the connections. *)
Inductive Event :=
| INIT_WEBSOCKET (agentIdParam : option string) (mode : string)
| AUDIO_CHUNK (audio : list Z)
| DISCONNECT
| SocketCreated (socket : nat)
| SocketOpened (socket : nat)
| SocketClosed (socket : nat)
| ScribeCreated (connection : nat)
| ScribeOpened (connection : nat)
| ScribeClosed (connection : nat).

Definition step (s : Worker) (e : Event) : Worker :=
  match e with
  | INIT_WEBSOCKET agentIdParam mode => initializeWebSocket agentIdParam mode s
  | AUDIO_CHUNK audio => sendAudioChunk audio s
  | DISCONNECT => disconnect s
  | SocketCreated socket => socketCreated socket s
  | SocketOpened socket => onopen socket s
  | SocketClosed socket => onclose socket s
  | ScribeCreated connection => scribeCreated connection s
  | ScribeOpened connection => scribeOpened connection s
  | ScribeClosed connection => scribeClosed connection s
  end.

Definition run (events : list Event) (s : Worker) : Worker :=
  fold_left step events s.

End Engine.

Definition isInit (e : Event) : bool :=
  match e with INIT_WEBSOCKET _ _ => true | _ => false end.

End Service.

(** ** The content script: capture of the microphone *)

Module Microphone.

(** A sample of a [Float32Array]: not a number, an infinity, or a finite
    value, which is a rational number. *)
Inductive Sample :=
| NaN
| Infinity (negative : bool)
| Finite (q : Q).

(** [Math.min(1, x)] *)
Definition min1 (x : Sample) : Sample :=
  match x with
  | NaN => NaN
  | Infinity true => Infinity true
  | Infinity false => Finite 1
  | Finite q => if Qle_bool q 1 then Finite q else Finite 1
  end.

(** [Math.max(-1, x)] *)
Definition maxMinus1 (x : Sample) : Sample :=
  match x with
  | NaN => NaN
  | Infinity true => Finite (-1)
  | Infinity false => Infinity false
  | Finite q => if Qle_bool (-1) q then Finite q else Finite (-1)
  end.

(** [s < 0] *)
Definition negative (s : Sample) : bool :=
  match s with
  | NaN => false
  | Infinity sign => sign
  | Finite q => negb (Qle_bool 0 q)
  end.

(** [s * k] for a positive integer constant [k]. *)
Definition times (s : Sample) (k : Z) : Sample :=
  match s with
  | Finite q => Finite (q * inject_Z k)
  | other => other
  end.

(** The integer part, towards zero. *)
Definition truncate (q : Q) : Z := Z.quot (Qnum q) (Zpos (Qden q)).

(** The store into an [Int16Array]: not-a-number and the infinities
    become 0, a finite value is truncated and taken modulo 2^16 into
    the signed range. *)
Definition toInt16 (x : Sample) : Z :=
  match x with
  | Finite q => ((truncate q + 32768) mod 65536 - 32768)%Z
  | _ => 0%Z
  end.

Definition floatTo16BitPCM (x : Sample) : Z :=
  let s := maxMinus1 (min1 x) in
  toInt16 (if negative s then times s 32768 else times s 32767).

(** [scriptProcessor.onaudioprocess]: nothing is sent while the agent
    is speaking; otherwise the converted samples are. *)
Definition onaudioprocess (isAgentSpeaking : bool) (inputData : list Sample)
    : option (list Z) :=
  if isAgentSpeaking then None else Some (floatTo16BitPCM <$> inputData).

(** [PCMAudioProcessor.process(inputs)]: the samples posted to the main
    thread, if any; [inputs] holds the channels of each input. *)
Definition process (isProcessing : bool) (inputs : list (list (list Sample)))
    : option (list Z) :=
  match inputs with
  | input :: _ =>
      if negb isProcessing || (length input =? 0)%nat then None
      else match input with
           | inputChannel :: _ =>
               if (length inputChannel =? 0)%nat then None
               else Some (floatTo16BitPCM <$> inputChannel)
           | [] => None
           end
  | [] => None
  end.

(** The same conversion on the doubles of JavaScript, to compare with. *)
Definition toInt16Double (x : float) : Z :=
  match Prim2SF x with
  | S754_finite sign m e =>
      let magnitude := if (0 <=? e)%Z then (Zpos m * 2 ^ e)%Z
                       else (Zpos m / 2 ^ (- e))%Z in
      let integer := if sign then (- magnitude)%Z else magnitude in
      ((integer + 32768) mod 65536 - 32768)%Z
  | _ => 0%Z
  end.

Definition floatTo16BitPCMDouble (x : float) : Z :=
  let m := if PrimFloat.ltb 1 x then 1%float else x in
  let s := if PrimFloat.ltb m (-1) then (-1)%float else m in
  toInt16Double (if PrimFloat.ltb s 0 then PrimFloat.mul s 32768
                 else PrimFloat.mul s 32767).

(** The double [k / 2^23]; for [|k| <= 2^24] these are the values of a
    [Float32Array] between -2 and 2 on a grid of 2^-23. *)
Definition doubleOfGrid (k : Z) : float :=
  let a := PrimFloat.div (PrimFloat.of_uint63 (Uint63.of_Z (Z.abs k))) 8388608 in
  if (k <? 0)%Z then PrimFloat.opp a else a.

Definition sampleOfGrid (k : Z) : Sample := Finite (k # 8388608).

End Microphone.

(** ** The content script: playback of the agent's audio *)

Module Playback.

(** The digits of a length, as [+] renders a number that is appended to
    a string. *)
Definition decimal (n : nat) : string :=
  NilEmpty.string_of_uint (Nat.to_uint n).

(** [s.includes(sub)] *)
Fixpoint includes (s sub : string) {struct s} : bool :=
  startsWith s sub ||
  match s with
  | EmptyString => false
  | String _ r => includes r sub
  end.

(** [bytes[i] = binaryString.charCodeAt(i)], for every [i]. *)
Definition charCodes (binaryString : string) : list Z :=
  (fun c => Z.of_nat (nat_of_ascii c)) <$> list_ascii_of_string binaryString.

(** *** [pcmToWav(pcmData, sampleRate)]

    The buffer is a list of bytes, written by index as the [DataView]
    does; every write below is within the buffer ([DataView] would throw
    otherwise).  Integers are stored modulo their width, low byte
    first. *)

Definition setUint8 (offset : nat) (value : Z) (buffer : list Z) : list Z :=
  <[offset := (value mod 256)%Z]> buffer.

Definition setUint16 (offset : nat) (value : Z) (buffer : list Z) : list Z :=
  setUint8 (offset + 1) (value / 256)%Z (setUint8 offset value buffer).

Definition setUint32 (offset : nat) (value : Z) (buffer : list Z) : list Z :=
  setUint16 (offset + 2) (value / 65536)%Z (setUint16 offset value buffer).

Fixpoint writeString (offset : nat) (s : string) (buffer : list Z) : list Z :=
  match s with
  | EmptyString => buffer
  | String c r => writeString (S offset) r (setUint8 offset (Z.of_nat (nat_of_ascii c)) buffer)
  end.

(** [new Uint8Array(buffer, offset).set(source)] *)
Fixpoint setBytes (offset : nat) (source : list Z) (buffer : list Z) : list Z :=
  match source with
  | [] => buffer
  | b :: r => setBytes (S offset) r (<[offset := b]> buffer)
  end.

(** A [Blob]: its type and its bytes. *)
Record Blob := {
  blobType : string;
  blobBytes : list Z
}.

Definition pcmToWav (pcmData : list Z) (sampleRate : Z) : Blob :=
  let numChannels := 1%Z in
  let bitsPerSample := 16%Z in
  let byteRate := (sampleRate * numChannels * (bitsPerSample / 8))%Z in
  let blockAlign := (numChannels * (bitsPerSample / 8))%Z in
  let dataSize := length pcmData in
  let bufferSize := 44 + dataSize in
  let buffer := replicate bufferSize 0%Z in
  let buffer := writeString 0 "RIFF" buffer in
  let buffer := setUint32 4 (36 + Z.of_nat dataSize)%Z buffer in
  let buffer := writeString 8 "WAVE" buffer in
  let buffer := writeString 12 "fmt " buffer in
  let buffer := setUint32 16 16 buffer in
  let buffer := setUint16 20 1 buffer in
  let buffer := setUint16 22 numChannels buffer in
  let buffer := setUint32 24 sampleRate buffer in
  let buffer := setUint32 28 byteRate buffer in
  let buffer := setUint16 32 blockAlign buffer in
  let buffer := setUint16 34 bitsPerSample buffer in
  let buffer := writeString 36 "data" buffer in
  let buffer := setUint32 40 (Z.of_nat dataSize) buffer in
  let buffer := setBytes 44 pcmData buffer in
  {| blobType := "audio/wav"; blobBytes := buffer |}.

(** *** The queue and the player *)

(** An entry of [audioQueue].  The object URL stands for the blob it was
    created from. *)
Record QueueItem := {
  audioUrl : Blob;
  mimeType : string;
  blobSize : nat
}.

(** The fields of the assistant that playback uses.
    [processedAudioEvents] is a [Set]: its members in insertion order,
    without repetition.  [currentAudio] is the source of the element it
    refers to.  [started] logs the elements created and played, oldest
    first. *)
Record Player := {
  processedAudioEvents : list string;
  audioQueue : list QueueItem;
  isPlayingAudio : bool;
  isAgentSpeaking : bool;
  currentAudio : option Blob;
  started : list Blob
}.

(** The constructor's values. *)
Definition newPlayer : Player :=
  {| processedAudioEvents := []; audioQueue := []; isPlayingAudio := false;
     isAgentSpeaking := false; currentAudio := None; started := [] |}.

(** [set.has(x)] *)
Definition has (x : string) (set : list string) : bool := bool_decide (x ∈ set).

(** [set.add(x)] *)
Definition add (x : string) (set : list string) : list string :=
  if has x set then set else (set ++ [x])%list.

(** [set.delete(set.values().next().value)] *)
Definition deleteFirst (set : list string) : list string := tail set.

Definition setProcessed (set : list string) (p : Player) : Player :=
  {| processedAudioEvents := set; audioQueue := audioQueue p;
     isPlayingAudio := isPlayingAudio p; isAgentSpeaking := isAgentSpeaking p;
     currentAudio := currentAudio p; started := started p |}.

Definition setQueue (queue : list QueueItem) (p : Player) : Player :=
  {| processedAudioEvents := processedAudioEvents p; audioQueue := queue;
     isPlayingAudio := isPlayingAudio p; isAgentSpeaking := isAgentSpeaking p;
     currentAudio := currentAudio p; started := started p |}.

Definition setSpeaking (b : bool) (p : Player) : Player :=
  {| processedAudioEvents := processedAudioEvents p; audioQueue := audioQueue p;
     isPlayingAudio := b; isAgentSpeaking := b;
     currentAudio := currentAudio p; started := started p |}.

Definition setCurrentAudio (a : option Blob) (p : Player) : Player :=
  {| processedAudioEvents := processedAudioEvents p; audioQueue := audioQueue p;
     isPlayingAudio := isPlayingAudio p; isAgentSpeaking := isAgentSpeaking p;
     currentAudio := a; started := started p |}.

(** [new Audio(audioUrl)] followed by [audio.play()] *)
Definition play (url : Blob) (p : Player) : Player :=
  {| processedAudioEvents := processedAudioEvents p; audioQueue := audioQueue p;
     isPlayingAudio := isPlayingAudio p; isAgentSpeaking := isAgentSpeaking p;
     currentAudio := Some url; started := (started p ++ [url])%list |}.

(** [playNextAudio()] *)
Definition playNextAudio (p : Player) : Player :=
  match audioQueue p with
  | [] => setSpeaking false p
  | item :: rest => play (audioUrl item) (setQueue rest (setSpeaking true p))
  end.

(** The handler an element runs when it ends, fails or refuses to play:
    the reference is dropped and the next entry is played. *)
Definition audioFinished (p : Player) : Player :=
  playNextAudio (setCurrentAudio None p).

(** [audioBase64 ? audioBase64.substring(0, 50) + audioBase64.length : null] *)
Definition audioHashOf (audioBase64 : string) : option string :=
  if truthy audioBase64
  then Some (substringTo audioBase64 50 +:+ decimal (String.length audioBase64))
  else None.

(** The sample rate read off the format string. *)
Definition sampleRateOf (audioFormat : string) : Z :=
  if includes audioFormat "16000" then 16000
  else if includes audioFormat "22050" then 22050
  else if includes audioFormat "24000" then 24000
  else if includes audioFormat "44100" then 44100
  else 16000.

(** [audioFormat && audioFormat.includes('pcm')]; [None] is [undefined]. *)
Definition isPcm (audioFormat : option string) : bool :=
  match audioFormat with
  | Some f => truthy f && includes f "pcm"
  | None => false
  end.

(** The blob made of the decoded bytes. *)
Definition blobOf (bytes : list Z) (audioFormat : option string) : Blob :=
  if isPcm audioFormat
  then pcmToWav bytes (sampleRateOf (default "" audioFormat))
  else {| blobType := "audio/mpeg"; blobBytes := bytes |}.

(** The hash is added and, above 100 members, the oldest is deleted. *)
Definition markProcessed (audioHash : string) (p : Player) : Player :=
  let set := add audioHash (processedAudioEvents p) in
  setProcessed (if (100 <? length set)%nat then deleteFirst set else set) p.

Section Decoder.

(** The browser's [atob]; [None] when it throws. *)
Variable atob : string -> option string.

(** [handleAgentAudio(audioBase64, eventId, audioFormat)] for a string
    [audioBase64].  An exception of [atob] is caught and logged. *)
Definition handleAgentAudio (audioBase64 : string) (eventId : option string)
    (audioFormat : option string) (p : Player) : Player :=
  let audioHash := audioHashOf audioBase64 in
  if match audioHash with
     | Some h => has h (processedAudioEvents p)
     | None => false
     end
  then p
  else
    let p1 := match audioHash with
              | Some h => markProcessed h p
              | None => p
              end in
    match atob audioBase64 with
    | None => p1
    | Some binaryString =>
        let audioBlob := blobOf (charCodes binaryString) audioFormat in
        let item := {| audioUrl := audioBlob; mimeType := blobType audioBlob;
                       blobSize := length (blobBytes audioBlob) |} in
        let p2 := setQueue (audioQueue p1 ++ [item])%list p1 in
        if isPlayingAudio p2 then p2 else playNextAudio p2
    end.

(** The part of [stopRecording] that concerns playback: the element is
    paused and forgotten, the queue emptied, both flags cleared. *)
Definition stopRecording (p : Player) : Player :=
  setSpeaking false (setQueue [] (setCurrentAudio None p)).

(** What happens to the player: a chunk of audio arrives, an element
    finishes, the user stops the assistant. *)
Inductive Event :=
| AgentAudio (audioBase64 : string) (eventId : option string) (audioFormat : option string)
| Finished
| Stop.

Definition step (p : Player) (e : Event) : Player :=
  match e with
  | AgentAudio audioBase64 eventId audioFormat =>
      handleAgentAudio audioBase64 eventId audioFormat p
  | Finished => audioFinished p
  | Stop => stopRecording p
  end.

Definition run (events : list Event) (p : Player) : Player :=
  fold_left step events p.

(** The blob a chunk is turned into, if it can be decoded. *)
Definition clipOf (e : Event) : option Blob :=
  match e with
  | AgentAudio audioBase64 _ audioFormat =>
      (fun binaryString => blobOf (charCodes binaryString) audioFormat) <$> atob audioBase64
  | _ => None
  end.

End Decoder.

(** The hash of a chunk, if it has one. *)
Definition hashOf (e : Event) : option string :=
  match e with
  | AgentAudio audioBase64 _ _ => audioHashOf audioBase64
  | _ => None
  end.

Definition isStop (e : Event) : bool :=
  match e with Stop => true | _ => false end.

(** Everything handed to an element or still waiting, oldest first. *)
Definition scheduled (p : Player) : list Blob :=
  (started p ++ (audioUrl <$> audioQueue p))%list.

(** The last [n] members of a list. *)
Definition lastN {A} (n : nat) (l : list A) : list A := drop (length l - n) l.

(** Reading the buffer back: an unsigned integer of [width] bytes, low
    byte first, at [offset]. *)
Fixpoint littleEndian (bytes : list Z) : Z :=
  match bytes with
  | [] => 0
  | b :: r => b + 256 * littleEndian r
  end%Z.

Definition getUint (width offset : nat) (buffer : list Z) : Z :=
  littleEndian (take width (drop offset buffer)).

(** A set that has grown past 100 members loses its oldest one. *)
Definition capped (set : list string) : list string :=
  if (100 <? length set)%nat then deleteFirst set else set.

(** The [width] low bytes of an integer, low byte first. *)
Fixpoint bytesOf (width : nat) (value : Z) : list Z :=
  match width with
  | 0 => []
  | S w => (value mod 256)%Z :: bytesOf w (value / 256)%Z
  end.

(** The canonical header of a mono, 16-bit PCM file in the RIFF/WAVE
    format: chunk identifiers, sizes, format tag 1, one channel, sample
    rate, byte rate, block alignment 2, 16 bits per sample. *)
Definition wavHeader (dataSize : nat) (sampleRate : Z) : list Z :=
  (charCodes "RIFF" ++ bytesOf 4 (36 + Z.of_nat dataSize)%Z ++
   charCodes "WAVE" ++
   charCodes "fmt " ++ bytesOf 4 16 ++
   bytesOf 2 1 ++ bytesOf 2 1 ++
   bytesOf 4 sampleRate ++ bytesOf 4 (sampleRate * 2)%Z ++
   bytesOf 2 2 ++ bytesOf 2 16 ++
   charCodes "data" ++ bytesOf 4 (Z.of_nat dataSize))%list.

(** A decoder that knows the payloads of a table and throws on every
    other string. *)
Fixpoint decoderOf (table : list (string * string)) (audioBase64 : string) : option string :=
  match table with
  | [] => None
  | (encoded, decoded) :: rest =>
      if String.eqb audioBase64 encoded then Some decoded else decoderOf rest audioBase64
  end.

End Playback.

(** ** The content script: [create_prompt] and [update_prompt] *)

Module Prompts.

Import Content.

(** [a || b] on two property reads; [None] is [undefined]. *)
Definition orElse (a b : option string) : option string :=
  if truthyOpt a then a else b.

(** The fixed system instructions: constants of some fifteen lines each,
    of which the first sentence is kept. *)
Definition createSystemInstruction : string :=
  "You are an expert at writing prompts for bolt.new, an AI-powered full-stack web development platform. Your job is to create detailed, structured prompts optimized for building web applications.".

Definition updateSystemInstruction : string :=
  "You are an expert at writing prompts for bolt.new, an AI-powered full-stack web development platform. Your job is to update existing prompts based on user feedback while maintaining the original intent and structure.".

Definition createSpinner : UiEvent := ShowNotification "⏳ Creating prompt..." "info".

Definition updateSpinner : UiEvent := ShowNotification "⏳ Updating prompt..." "info".

Definition createNoIdeaMessage : string :=
  "I need to know what kind of app you want to create. Could you tell me your idea?".

Definition createDoneMessage : string :=
  "Perfect! I've created a detailed prompt for you and written it to the textarea. You're all set to start building!".

Definition updateEmptyMessage : string :=
  "I don't see any text in the textarea. Could you type a prompt first, then ask me to update it?".

Definition updateNoInstructionsMessage : string :=
  "I need to know what changes you want to make to the prompt. Could you tell me what to update?".

Definition updateDoneMessage : string :=
  "Done! I've updated your prompt with the changes you requested. The textarea has been updated!".

Definition noKeyMessage : string :=
  "Oops! The Gemini API key isn't configured yet. Please set it in the extension settings.".

Definition unexpectedMessage : string :=
  "Sorry, I got an unexpected response from Gemini. Please try again.".

(** [if (value) { userMessage += label + value }] *)
Definition optionalPart (label : string) (value : option string) : string :=
  if truthyOpt value
  then newline +:+ newline +:+ label +:+ default "" value
  else "".

(** The request [executeCreatePrompt] builds. *)
Definition createRequest (key app_idea : string)
    (tech_stack features design_style additional_requirements : option string)
    : ApiRequest :=
  let userMessage :=
    "Create a detailed bolt.new prompt (respond in ENGLISH only) for: " +:+ app_idea
    +:+ optionalPart "Preferred tech stack: " tech_stack
    +:+ optionalPart "Key features needed: " features
    +:+ optionalPart "Design style: " design_style
    +:+ optionalPart "Additional requirements: " additional_requirements in
  {| apiKeyUsed := key;
     systemInstruction := createSystemInstruction;
     userPrompt := userMessage |}.

(** The request [executeUpdatePrompt] builds. *)
Definition updateRequest (key actualPrompt update_instructions : string) : ApiRequest :=
  let userPrompt :=
    "Please update this bolt.new prompt (respond in ENGLISH only):"
    +:+ newline +:+ newline +:+ "Current prompt:" +:+ newline
    +:+ dquote +:+ actualPrompt +:+ dquote
    +:+ newline +:+ newline +:+ "Update instructions: " +:+ update_instructions
    +:+ newline +:+ newline
    +:+ "Return only the updated prompt, incorporating the requested changes." in
  {| apiKeyUsed := key;
     systemInstruction := updateSystemInstruction;
     userPrompt := userPrompt |}.

(** [error.error?.message || response.statusText] in the apology. *)
Definition geminiErrorMessage (message : option string) (statusText : string) : string :=
  "Sorry, I got an error from Gemini: "
  +:+ (if truthyOpt message then default "" message else statusText).

(** *** [executeCreatePrompt(parameters)]; [None] is [undefined]. *)
Definition executeCreatePrompt (env : Env) (parameters : option Params) : Task JsValue :=
  match parameters with
  | None => throw "Cannot read properties of undefined (reading 'app_idea')"
  | Some parameters =>
      let app_idea := orElse (parameters !! "app_idea") (parameters !! "project_type") in
      let tech_stack := parameters !! "tech_stack" in
      let features := orElse (parameters !! "features") (parameters !! "key_features") in
      let design_style := parameters !! "design_style" in
      let additional_requirements := parameters !! "additional_requirements" in
      effect (logUi createSpinner);;
      if negb (truthyOpt app_idea) then
        hideNotification;;
        mret (VString createNoIdeaMessage)
      else
        key ← storageGet env;
        if negb (truthyOpt key) then
          hideNotification;;
          mret (VString noKeyMessage)
        else
          tryCatch
            (response ← fetch env (createRequest (default "" key) (default "" app_idea)
                                     tech_stack features design_style
                                     additional_requirements);
             match response with
             | NetworkFailure why => throw why
             | HttpError statusText body =>
                 await env 2;;
                 match body with
                 | ErrorUnreadable why => throw why
                 | ErrorJson message =>
                     mret (VString (geminiErrorMessage message statusText))
                 end
             | HttpOk body =>
                 await env 2;;
                 match body with
                 | BodyUnreadable why => throw why
                 | NoCandidate => mret (VString unexpectedMessage)
                 | CandidateWithoutText why => throw why
                 | CandidateText text =>
                     let createdPrompt := stripQuotes (trim text) in
                     effect (sendCommandToBolt createdPrompt false);;
                     hideNotification;;
                     showNotification "✅ Prompt created!" "success";;
                     mret (VString createDoneMessage)
                 end
             end)
            (fun message =>
               hideNotification;;
               mret (VString ("Sorry, something went wrong while creating your prompt: "
                              +:+ message)))
  end.

(** *** [executeUpdatePrompt(parameters)]; [None] is [undefined]. *)
Definition executeUpdatePrompt (env : Env) (parameters : option Params) : Task JsValue :=
  match parameters with
  | None =>
      throw "Cannot destructure property 'update_instructions' of 'parameters' as it is undefined."
  | Some parameters =>
      let update_instructions := parameters !! "update_instructions" in
      effect (logUi updateSpinner);;
      field ← getBoltTextarea;
      let actualPrompt := match field with Some value => trim value | None => "" end in
      if negb (truthy actualPrompt) then
        hideNotification;;
        mret (VString updateEmptyMessage)
      else if negb (truthyOpt update_instructions) then
        hideNotification;;
        mret (VString updateNoInstructionsMessage)
      else
        key ← storageGet env;
        if negb (truthyOpt key) then
          hideNotification;;
          mret (VString noKeyMessage)
        else
          tryCatch
            (response ← fetch env (updateRequest (default "" key) actualPrompt
                                     (default "" update_instructions));
             match response with
             | NetworkFailure why => throw why
             | HttpError statusText body =>
                 await env 2;;
                 match body with
                 | ErrorUnreadable why => throw why
                 | ErrorJson message =>
                     hideNotification;;
                     mret (VString (geminiErrorMessage message statusText))
                 end
             | HttpOk body =>
                 await env 2;;
                 match body with
                 | BodyUnreadable why => throw why
                 | NoCandidate =>
                     hideNotification;;
                     mret (VString unexpectedMessage)
                 | CandidateWithoutText why => throw why
                 | CandidateText text =>
                     let updatedPrompt := stripQuotes (trim text) in
                     effect (sendCommandToBolt updatedPrompt false);;
                     hideNotification;;
                     showNotification "✅ Prompt updated!" "success";;
                     mret (VString updateDoneMessage)
                 end
             end)
            (fun message =>
               hideNotification;;
               mret (VString ("Sorry, something went wrong while updating your prompt: "
                              +:+ message)))
  end.

(** The most recent call of [showNotification] or [hideNotification] in
    the log (newest first), if there is one.  This is about the calls the
    code makes; which elements the page shows then depends on the timers
    of the earlier notifications. *)
Fixpoint lastNotificationCall (log : list UiEvent) : option UiEvent :=
  match log with
  | [] => None
  | ShowNotification message kind :: _ => Some (ShowNotification message kind)
  | HideNotification :: _ => Some HideNotification
  | _ :: rest => lastNotificationCall rest
  end.


(** The answers with which the three tools report that the field has
    been rewritten. *)
Definition doneMessages : list string :=
  [improveDoneMessage; createDoneMessage; updateDoneMessage].



End Prompts.

Import Content.
Import Background.

(** ** Specification vocabulary *)

(** [n] is the length of a common prefix of [a] and [b]. *)
Definition commonPrefixLen (n : nat) (a b : string) : Prop :=
  n <= String.length a /\ n <= String.length b /\
  substringTo a n = substringTo b n.

(** [L] is the length of the longest common prefix of [a] and [b]. *)
Definition longestCommonPrefixLen (L : nat) (a b : string) : Prop :=
  commonPrefixLen L a b /\ forall n, commonPrefixLen n a b -> n <= L.

(** The longest common prefix, by recursion on the two strings. *)
Fixpoint lcp (a b : string) : nat :=
  match a, b with
  | String x a', String y b' => if Ascii.eqb x y then S (lcp a' b') else 0
  | _, _ => 0
  end.

(** A fragment that is neither empty nor white space only. *)
Definition nonBlank (s : string) : Prop := trim s <> "".

(** The previous-fragment tracking of [w] records the raw fragment [prev]:
    [lastRawSDKText] is [prev] and [lastSDKText] is what stripping leaves
    of it. *)
Definition tracksPrevious (w : World) (prev : string) : Prop :=
  lastRawSDKText w = prev /\ lastSDKText w = cleanOf (previousSessionText w) prev.

(** The accumulated transcript ends with the stored previous fragment. *)
Definition endsWithPrevious (w : World) : Prop :=
  exists head, fullTranscript w = head +:+ lastSDKText w.

(** The identifiers of the tool calls forwarded to the content script, of
    the tool results it sent back, and of the responses sent to the agent. *)
Definition toolCallIds (ns : list Notification) : list (option string) :=
  flat_map (fun n => match n with TOOL_CALL _ id _ => [id] | _ => [] end) ns.

Definition resultIds (rs : list ToolResult) : list (option string) :=
  map toolCallId rs.

Definition responseIds (fs : list Frame) : list (option string) :=
  flat_map (fun f => match f with ClientToolResponse id _ => [id] | _ => [] end) fs.



(** A session that has just begun: no identifier seen, no traffic yet. *)
Definition freshSession (s : System) : Prop :=
  forwardedToolCalls (relay s) = ∅ /\ notified s = [] /\ pending s = [] /\
  results s = [] /\ sent s = [].

(** What the set is for, and what holds as long as no close handler
    runs: every forwarded identifier is in the set, and no identifier
    was forwarded twice. *)
Definition deduplicated (s : System) : Prop :=
  (forall id, id ∈ toolCallIds (notified s) -> id ∈ forwardedToolCalls (relay s)) /\
  NoDup (toolCallIds (notified s)).

(** What holds throughout: every forwarded call was dispatched once, its
    result has arrived or is on its way, and the responses sent are
    among the results that have arrived, in their order. *)
Definition accounted (s : System) : Prop :=
  resultIds (results s ++ pending s) ≡ₚ toolCallIds (notified s) /\
  responseIds (sent s) `sublist_of` resultIds (results s).

(** An environment in which nothing is configured and nothing else
    happens, and a handler that does nothing: for examples. *)
Definition quietEnv : Env :=
  {| storageRead := ReadGives None;
     fetchOutcome := fun _ => NetworkFailure "Failed to fetch";
     whileSuspended := fun _ w => w |}.

Definition idleHandler : option Params -> Task JsValue := fun _ => mret VUndefined.


(** An environment in which the key is configured, the API answers with
    an improved prompt, and the user stops the session while the request
    is in flight. *)
Definition stoppedInFlight : Env :=
  {| storageRead := ReadGives (Some "key");
     fetchOutcome := fun _ => HttpOk (CandidateText "Build a todo app with React");
     whileSuspended := fun n w => if Nat.eqb n 1 then stopRecording w else w |}.

(** The relay alone, over the messages of one session. *)
Definition relayRun (r : Relay) (ms : list AgentMessage) : Relay :=
  fold_left (fun r m => fst (handleAgentMessage m r)) ms r.

(** A [client_tool_call] for [improve_prompt] with identifier [id]. *)
Definition clientCall (id : string) : AgentMessage :=
  ClientToolCall {| tool_name := Some "improve_prompt";
                    tool_call_id := Some id; parameters := None |}.

(** [n] identifiers, all different: "call", "xcall", "xxcall", ... *)
Fixpoint idOfNat (n : nat) : string :=
  match n with
  | 0 => "call"
  | S k => String "x" (idOfNat k)
  end.

Definition distinctIds (n : nat) : list string := idOfNat <$> seq 0 n.

(** The page's text field is absent or holds white space only. *)
Definition fieldBlank (w : World) : Prop :=
  textarea w = None \/ exists value, textarea w = Some value /\ trim value = "".

(** A session of the reconciler: the fragments are handled in order. *)
Definition handleAll (w : World) (fragments : list string) : World :=
  fold_left (fun w text => handleTranscription text w) fragments w.

(** The overflow branch of the reconciler is the one taken for the
    stripped text [cur]. *)
Definition overflows (w : World) (cur : string) : Prop :=
  lastSDKText w <> "" /\ startsWith cur (lastSDKText w) = false /\
  10 * commonLen (lastSDKText w) cur <= 3 * String.length (lastSDKText w).

(** While a handler is suspended, the rest of the page neither edits the
    text field nor calls the generative-text API. *)
Definition undisturbed (env : Env) : Prop :=
  forall n w, textarea (whileSuspended env n w) = textarea w /\
              requests (whileSuspended env n w) = requests w.



(** ** Facts about the string primitives *)

Section StringFacts.

Lemma truthy_true s : truthy s = true <-> s <> "".
Proof. destruct s; simpl; split; intros H; try discriminate; auto; now elim H. Qed.

Lemma truthy_false s : truthy s = false <-> s = "".
Proof. destruct s; simpl; split; intros H; try discriminate; auto. Qed.

Lemma append_empty_r s : s +:+ "" = s.
Proof. induction s as [|c s IH]; simpl; congruence. Qed.

Lemma append_assoc' a b c : (a +:+ b) +:+ c = a +:+ b +:+ c.
Proof. induction a as [|x a IH]; simpl; congruence. Qed.

Lemma length_append' a b :
  String.length (a +:+ b) = String.length a + String.length b.
Proof. induction a as [|x a IH]; simpl; congruence. Qed.

Lemma startsWith_refl s : startsWith s s = true.
Proof.
  induction s as [|c s IH]; simpl; [reflexivity|].
  now rewrite Ascii.eqb_refl.
Qed.

Lemma startsWith_append p x : startsWith (p +:+ x) p = true.
Proof.
  induction p as [|c p IH]; simpl; [reflexivity|].
  now rewrite Ascii.eqb_refl.
Qed.

Lemma startsWith_split s p :
  startsWith s p = true -> s = p +:+ substringFrom s (String.length p).
Proof.
  revert s; induction p as [|b p IH]; intros [|a s]; simpl; try congruence.
  intros H. apply andb_true_iff in H as [Hab Hs].
  apply Ascii.eqb_eq in Hab. subst b. f_equal. now apply IH.
Qed.

Lemma startsWith_iff s p :
  startsWith s p = true <-> exists x, s = p +:+ x.
Proof.
  split.
  - intros H. eexists. now apply startsWith_split.
  - intros [x ->]. apply startsWith_append.
Qed.

Lemma substringFrom_append p x : substringFrom (p +:+ x) (String.length p) = x.
Proof. induction p as [|c p IH]; simpl; [now destruct x | assumption]. Qed.

Lemma substringFrom_length s : substringFrom s (String.length s) = "".
Proof. induction s as [|c s IH]; simpl; auto. Qed.

Lemma substringTo_append a b : substringTo (a +:+ b) (String.length a) = a.
Proof. induction a as [|c a IH]; simpl; [reflexivity | congruence]. Qed.

Lemma substringTo_short s n : String.length s <= n -> substringTo s n = s.
Proof.
  revert n; induction s as [|c s IH]; intros [|n]; simpl; intros H;
    try reflexivity; try lia.
  f_equal. apply IH. lia.
Qed.

Lemma substringTo_length s n :
  String.length (substringTo s n) = Nat.min n (String.length s).
Proof.
  revert n; induction s as [|c s IH]; intros [|n]; simpl; auto.
Qed.

Lemma substringTo_from s n : substringTo s n +:+ substringFrom s n = s.
Proof.
  revert n; induction s as [|c s IH]; intros [|n]; simpl; auto.
  now rewrite IH.
Qed.

(** White space *)

Lemma trimStart_head s c r : trimStart s = String c r -> isWhiteSpace c = false.
Proof.
  induction s as [|a s IH]; simpl; [discriminate|].
  destruct (isWhiteSpace a) eqn:E; [exact IH|].
  intros H. injection H as -> _. exact E.
Qed.

Lemma trimEnd_head c r : isWhiteSpace c = false -> trimEnd (String c r) <> "".
Proof. intros H. simpl. rewrite H. now destruct (trimEnd r). Qed.

Lemma nonBlank_trimStart s : nonBlank s <-> trimStart s <> "".
Proof.
  unfold nonBlank, trim. destruct (trimStart s) as [|c r] eqn:E.
  - simpl. tauto.
  - split; [congruence|]. intros _. apply trimEnd_head.
    now apply trimStart_head in E.
Qed.

Lemma trimStart_idem s : trimStart (trimStart s) = trimStart s.
Proof.
  induction s as [|c s IH]; simpl; [reflexivity|].
  destruct (isWhiteSpace c) eqn:E; [assumption|]. simpl. now rewrite E.
Qed.

Lemma trimStart_substringFrom s n :
  trimStart (substringFrom s n) <> "" -> trimStart s <> "".
Proof.
  revert n; induction s as [|c s IH]; intros [|n]; simpl; auto.
  intros H. destruct (isWhiteSpace c); [eauto | congruence].
Qed.

Lemma nonBlank_nonempty s : nonBlank s -> s <> "".
Proof. intros H ->. now apply H. Qed.

Lemma nonBlank_truthy s : nonBlank s <-> truthy (trim s) = true.
Proof. unfold nonBlank. symmetry. apply truthy_true. Qed.

Lemma blank_truthy s : trim s = "" <-> truthy (trim s) = false.
Proof. symmetry. apply truthy_false. Qed.

(** A string that starts with ink keeps it when text is appended. *)
Lemma trimStart_append s x : trimStart s <> "" -> trimStart (s +:+ x) = trimStart s +:+ x.
Proof.
  induction s as [|c s IH]; simpl; [congruence|].
  destruct (isWhiteSpace c); auto.
Qed.

End StringFacts.

(** ** The common-prefix loop computes the longest common prefix *)

Section CommonPrefix.

Lemma commonLenLoop_shift fuel : forall i c x y a b,
  commonLenLoop fuel (S i) c (String x a) (String y b)
  = commonLenLoop fuel i c a b.
Proof.
  induction fuel as [|fuel IH]; intros; simpl; [reflexivity|].
  unfold charAt; simpl.
  destruct (strictEq (String.get i a) (String.get i b)); [apply IH | reflexivity].
Qed.

Lemma commonLenLoop_lcp fuel : forall a b c,
  fuel <= String.length a -> fuel <= String.length b ->
  commonLenLoop fuel 0 c a b = c + Nat.min fuel (lcp a b).
Proof.
  induction fuel as [|fuel IH]; intros a b c Ha Hb; simpl; [lia|].
  destruct a as [|x a]; [simpl in Ha; lia|].
  destruct b as [|y b]; [simpl in Hb; lia|].
  simpl in *. destruct (Ascii.eqb x y).
  - rewrite commonLenLoop_shift, IH by lia. lia.
  - lia.
Qed.

Lemma lcp_le a : forall b,
  lcp a b <= String.length a /\ lcp a b <= String.length b.
Proof.
  induction a as [|x a IH]; intros [|y b]; simpl; try lia.
  destruct (Ascii.eqb x y); simpl; [|lia].
  specialize (IH b). lia.
Qed.

Lemma commonLen_lcp a b : commonLen a b = lcp a b.
Proof.
  unfold commonLen. rewrite commonLenLoop_lcp by lia.
  pose proof (lcp_le a b). lia.
Qed.

Lemma lcp_common a : forall b,
  substringTo a (lcp a b) = substringTo b (lcp a b).
Proof.
  induction a as [|x a IH]; intros [|y b]; simpl; try reflexivity.
  destruct (Ascii.eqb x y) eqn:E; simpl; [|reflexivity].
  apply Ascii.eqb_eq in E. subst y. f_equal. apply IH.
Qed.

Lemma lcp_longest a : forall b n, commonPrefixLen n a b -> n <= lcp a b.
Proof.
  unfold commonPrefixLen.
  induction a as [|x a IH]; intros [|y b] [|n]; simpl; try lia.
  intros (Ha & Hb & E). injection E as -> E.
  rewrite Ascii.eqb_refl. apply le_n_S, IH. repeat split; auto; lia.
Qed.

Lemma commonLen_longest a b : longestCommonPrefixLen (commonLen a b) a b.
Proof.
  rewrite commonLen_lcp. split.
  - pose proof (lcp_le a b). repeat split; try lia. apply lcp_common.
  - apply lcp_longest.
Qed.

Lemma longest_commonLen L a b :
  longestCommonPrefixLen L a b -> L = commonLen a b.
Proof.
  intros [HL Hmax]. destruct (commonLen_longest a b) as [HC Cmax].
  apply Nat.le_antisymm; auto.
Qed.

Lemma significantOverlap_true common len :
  significantOverlap common len = true <-> 3 * len < 10 * common.
Proof. unfold significantOverlap. apply Nat.ltb_lt. Qed.

Lemma significantOverlap_false common len :
  significantOverlap common len = false <-> 10 * common <= 3 * len.
Proof. unfold significantOverlap. rewrite Nat.ltb_ge. reflexivity. Qed.

End CommonPrefix.

(** The integer comparison is the floating-point one of the source, for
    every previous fragment of up to 200 characters. *)
Example significantOverlap_double :
  forallb (fun len =>
             forallb (fun common =>
                        Bool.eqb (significantOverlapDouble common len)
                                 (significantOverlap common len))
                     (seq 0 (S len)))
          (seq 0 201)
  = true.
Proof. vm_compute. reflexivity. Qed.

Example commonLen_light :
  commonLen "turn on the light" "turn on the lights" = 17.
Proof. reflexivity. Qed.

Example commonLen_revised :
  commonLen "turn on the light" "turn on the night" = 12.
Proof. reflexivity. Qed.

Example commonLen_overflow :
  commonLen "hello world this is a test" "a test of the system" = 0.
Proof. reflexivity. Qed.

(** ** The reconciler *)

Section Reconciler.

Lemma sendCommandToBolt_frame command append w :
  let w' := sendCommandToBolt command append w in
  isRecording w' = isRecording w /\ lastSDKText w' = lastSDKText w /\
  lastRawSDKText w' = lastRawSDKText w /\ fullTranscript w' = fullTranscript w /\
  previousSessionText w' = previousSessionText w /\
  requests w' = requests w.
Proof. unfold sendCommandToBolt. destruct (textarea w); simpl; auto 10. Qed.

Lemma nonBlank_cleanOf p text : nonBlank (cleanOf p text) -> nonBlank text.
Proof.
  unfold cleanOf.
  destruct (truthy p && startsWith text p); [|auto].
  rewrite !nonBlank_trimStart, trimStart_idem. apply trimStart_substringFrom.
Qed.

Lemma cleanOf_unstripped p text :
  p = "" \/ startsWith text p = false -> cleanOf p text = text.
Proof.
  unfold cleanOf. intros [-> | ->]; [reflexivity|].
  now rewrite andb_false_r.
Qed.

(** A fragment that passes the guards: the three reconciler fields after
    the call. *)
Lemma handleTranscription_accepted text w :
  isRecording w = true ->
  nonBlank (cleanOf (previousSessionText w) text) ->
  let w' := handleTranscription text w in
  fullTranscript w'
    = reconcile (lastSDKText w) (fullTranscript w)
        (cleanOf (previousSessionText w) text) /\
  lastSDKText w' = cleanOf (previousSessionText w) text /\
  lastRawSDKText w' = text /\
  isRecording w' = true /\
  previousSessionText w' = previousSessionText w.
Proof.
  intros Hrec Hclean. pose proof (nonBlank_cleanOf _ _ Hclean) as Htext.
  unfold handleTranscription. rewrite Hrec. simpl negb. cbv iota.
  apply nonBlank_truthy in Htext as Htext'. rewrite Htext'.
  apply nonBlank_nonempty, truthy_true in Htext. rewrite Htext.
  apply nonBlank_truthy in Hclean as Hclean'. rewrite Hclean'.
  apply nonBlank_nonempty, truthy_true in Hclean. rewrite Hclean.
  simpl andb. cbv iota. unfold showTranscription.
  match goal with |- context [sendCommandToBolt ?c ?a ?w0] =>
    destruct (sendCommandToBolt_frame c a w0) as (F1 & F2 & F3 & F4 & F5 & _)
  end.
  simpl in *. rewrite F1, F2, F3, F4, F5. auto.
Qed.

(** A fragment that fails a guard changes nothing at all. *)
Lemma handleTranscription_rejected text w :
  isRecording w = false \/ trim text = ""
  \/ trim (cleanOf (previousSessionText w) text) = "" ->
  handleTranscription text w = w.
Proof.
  unfold handleTranscription. intros [H | [H | H]].
  - now rewrite H.
  - apply blank_truthy in H. rewrite H, andb_false_r.
    now destruct (negb (isRecording w)).
  - apply blank_truthy in H. rewrite H, andb_false_r.
    destruct (negb (isRecording w)); [reflexivity|].
    now destruct (truthy text && truthy (trim text)).
Qed.

Lemma reconcile_first full cur : reconcile "" full cur = cur.
Proof. reflexivity. Qed.

Lemma reconcile_growth prev full suffix :
  prev <> "" -> reconcile prev full (prev +:+ suffix) = full +:+ suffix.
Proof.
  intros Hp. unfold reconcile. apply truthy_true in Hp. rewrite Hp. simpl negb.
  cbv iota. now rewrite startsWith_append, substringFrom_append.
Qed.

Lemma reconcile_revision prev full cur :
  prev <> "" -> startsWith cur prev = false ->
  3 * String.length prev < 10 * commonLen prev cur ->
  reconcile prev full cur
  = substringTo full (String.length full - (String.length prev - commonLen prev cur))
      +:+ substringFrom cur (commonLen prev cur).
Proof.
  intros Hp Hs Hl. unfold reconcile. apply truthy_true in Hp. rewrite Hp, Hs.
  apply significantOverlap_true in Hl. now rewrite Hl.
Qed.

Lemma reconcile_overflow prev full cur :
  prev <> "" -> startsWith cur prev = false ->
  10 * commonLen prev cur <= 3 * String.length prev ->
  reconcile prev full cur = full +:+ " " +:+ cur.
Proof.
  intros Hp Hs Hl. unfold reconcile. apply truthy_true in Hp. rewrite Hp, Hs.
  apply significantOverlap_false in Hl. now rewrite Hl.
Qed.

End Reconciler.

(** ** Reconciler: the claims *)

(** Growth on the stripped texts: with a non-empty stored previous fragment
    [prev], a fragment whose text after previous-session stripping, [cur],
    is not blank and is [prev + suffix] appends [suffix]. *)
Lemma handleTranscription_growth (w : World) (text cur suffix : string) :
  isRecording w = true ->
  lastSDKText w <> "" ->
  cur = cleanOf (previousSessionText w) text ->
  nonBlank cur ->
  cur = lastSDKText w +:+ suffix ->
  fullTranscript (handleTranscription text w) = fullTranscript w +:+ suffix.
Proof.
  intros Hrec Hprev -> Hink Hcur.
  destruct (handleTranscription_accepted text w Hrec Hink) as (-> & _).
  rewrite Hcur. now apply reconcile_growth.
Qed.

(** Without stored previous-session text (or when it is not a prefix of
    the fragment) the stripped text is the raw fragment. *)
Corollary handleTranscription_growth_unstripped (w : World) (suffix : string) :
  isRecording w = true ->
  lastSDKText w <> "" ->
  nonBlank (lastSDKText w +:+ suffix) ->
  previousSessionText w = "" \/
    startsWith (lastSDKText w +:+ suffix) (previousSessionText w) = false ->
  fullTranscript (handleTranscription (lastSDKText w +:+ suffix) w)
  = fullTranscript w +:+ suffix.
Proof.
  intros Hrec Hprev Hink Hstrip.
  apply (handleTranscription_growth w _ (lastSDKText w +:+ suffix)); auto.
  symmetry. now apply cleanOf_unstripped.
Qed.

Lemma startsWith_append_l s p x :
  startsWith s p = true -> startsWith (s +:+ x) p = true.
Proof.
  intros H. apply startsWith_split in H. rewrite H, append_assoc'.
  apply startsWith_append.
Qed.

(** What stripping leaves of [prev + suffix], when it leaves something of
    [prev] and strips [prev] whenever it strips [prev + suffix]. *)
Lemma cleanOf_append (p prev suffix : string) :
  cleanOf p prev <> "" ->
  (startsWith (prev +:+ suffix) p = true -> startsWith prev p = true) ->
  cleanOf p (prev +:+ suffix) = cleanOf p prev +:+ suffix.
Proof.
  unfold cleanOf. intros Hleft Hprefix.
  destruct (truthy p) eqn:Hp; simpl andb in *; [|reflexivity].
  destruct (startsWith (prev +:+ suffix) p) eqn:Hc.
  - rewrite (Hprefix eq_refl) in *.
    pose proof (startsWith_split _ _ (Hprefix eq_refl)) as Hsplit.
    rewrite Hsplit at 1.
    now rewrite append_assoc', substringFrom_append, trimStart_append.
  - destruct (startsWith prev p) eqn:Hq; [|reflexivity].
    apply (startsWith_append_l _ _ suffix) in Hq. congruence.
Qed.

(** What stripping leaves starts with ink, unless nothing was stripped. *)
Lemma nonBlank_cleanOf_append (p prev suffix : string) :
  cleanOf p prev <> "" -> nonBlank (prev +:+ suffix) ->
  cleanOf p (prev +:+ suffix) = cleanOf p prev +:+ suffix ->
  nonBlank (cleanOf p prev +:+ suffix).
Proof.
  intros Hleft Hink Heq. unfold cleanOf in *.
  destruct (truthy p && startsWith prev p); [|assumption].
  apply nonBlank_trimStart.
  rewrite trimStart_append; rewrite trimStart_idem; [|assumption].
  intros E. destruct (trimStart _); [now apply Hleft | discriminate].
Qed.

(** C1 (growth), as the code has it.  While the session is recording, in
    every state that tracks the previous raw fragment [prev] (with a
    non-empty stored text) and has accumulated the transcript [T], a new
    non-blank fragment [cur = prev + suffix] sets the accumulated transcript
    to [T + suffix], unless the stored previous-session text is a prefix of
    [cur] without being a prefix of [prev]. *)
Theorem reconciler_growth (w : World) (prev suffix : string) :
  isRecording w = true ->
  tracksPrevious w prev ->
  lastSDKText w <> "" ->
  nonBlank (prev +:+ suffix) ->
  (startsWith (prev +:+ suffix) (previousSessionText w) = true ->
   startsWith prev (previousSessionText w) = true) ->
  fullTranscript (handleTranscription (prev +:+ suffix) w)
  = fullTranscript w +:+ suffix.
Proof.
  intros Hrec [_ Hlast] Hprev Hink Hprefix.
  assert (Hleft : cleanOf (previousSessionText w) prev <> "") by now rewrite <- Hlast.
  pose proof (cleanOf_append _ prev suffix Hleft Hprefix) as Hcur.
  pose proof (nonBlank_cleanOf_append _ prev suffix Hleft Hink Hcur) as Hink'.
  rewrite <- Hcur in Hink'.
  destruct (handleTranscription_accepted _ w Hrec Hink') as (-> & _).
  rewrite Hcur, <- Hlast. now apply reconcile_growth.
Qed.

Lemma reconciler_growth_witness :
  let w := handleTranscription "old text build" (sessionStart "old text" (Some "")) in
  fullTranscript w = "build" /\
  fullTranscript (handleTranscription "old text build a todo app" w)
  = "build a todo app".
Proof.
  split; [reflexivity|].
  apply (reconciler_growth
           (handleTranscription "old text build" (sessionStart "old text" (Some "")))
           "old text build" " a todo app").
  - reflexivity.
  - split; reflexivity.
  - discriminate.
  - vm_compute. discriminate.
  - reflexivity.
Defined.

(** C1 as stated fails on the code.  After a session that ended on the raw
    text "abc", a new session receives "ab" and then "abcd" = "ab" + "cd":
    the second fragment is stripped to "d" and appended as an overflow
    chunk.  And a fragment that arrives when recording has stopped changes
    nothing. *)
Lemma reconciler_growth_counterexample :
  let w := handleTranscription "ab" (sessionStart "abc" (Some "")) in
  (lastRawSDKText w = "ab" /\ lastSDKText w = "ab" /\ fullTranscript w = "ab" /\
   nonBlank "abcd" /\ "abcd" = lastSDKText w +:+ "cd" /\
   fullTranscript (handleTranscription "abcd" w) = "ab d" /\
   fullTranscript (handleTranscription "abcd" w) <> fullTranscript w +:+ "cd")
  /\
  let v := reconcilerState false "ab" "ab" "ab" "" in
  (nonBlank "abc" /\ "abc" = lastSDKText v +:+ "c" /\
   fullTranscript (handleTranscription "abc" v) <> fullTranscript v +:+ "c").
Proof.
  vm_compute. repeat split; try reflexivity; discriminate.
Qed.

Lemma length_substringFrom s : forall n,
  String.length (substringFrom s n) = String.length s - n.
Proof.
  induction s as [|c s IH]; intros [|n]; simpl; auto.
Qed.

Lemma substringTo_drop_tail head tail :
  substringTo (head +:+ tail) (String.length (head +:+ tail) - String.length tail)
  = head.
Proof.
  rewrite length_append'.
  replace (String.length head + String.length tail - String.length tail)
    with (String.length head) by lia.
  apply substringTo_append.
Qed.

(** C2 (revision), as the code has it.  While the session is recording,
    with non-empty stored previous fragment [prev] and a fragment whose
    text after previous-session stripping, [cur], is not blank and does not
    start with [prev]: if the longest common prefix length [L] of [prev]
    and [cur] has [L > 0.3 * len(prev)], then the last [len(prev) - L]
    characters of the accumulated transcript (its [tail]) are replaced by
    [cur]'s suffix beyond [L]; what precedes them ([head]) is kept. *)
Theorem reconciler_revision (w : World) (text cur head tail : string) (L : nat) :
  isRecording w = true ->
  lastSDKText w <> "" ->
  cur = cleanOf (previousSessionText w) text ->
  nonBlank cur ->
  startsWith cur (lastSDKText w) = false ->
  longestCommonPrefixLen L (lastSDKText w) cur ->
  3 * String.length (lastSDKText w) < 10 * L ->
  fullTranscript w = head +:+ tail ->
  String.length tail = String.length (lastSDKText w) - L ->
  fullTranscript (handleTranscription text w) = head +:+ substringFrom cur L.
Proof.
  intros Hrec Hprev -> Hink Hstart HL Hratio Hfull Htail.
  apply longest_commonLen in HL. subst L.
  destruct (handleTranscription_accepted text w Hrec Hink) as (-> & _).
  rewrite reconcile_revision by assumption.
  rewrite <- Htail, Hfull, substringTo_drop_tail. reflexivity.
Qed.

Lemma reconciler_revision_witness :
  let w := handleTranscription "turn on the light"
             (handleTranscription "please" (sessionStart "" (Some ""))) in
  fullTranscript w = "please turn on the light" /\
  fullTranscript (handleTranscription "turn on the night" w)
  = "please turn on the " +:+ "night".
Proof.
  split; [reflexivity|].
  apply (reconciler_revision
           (handleTranscription "turn on the light"
              (handleTranscription "please" (sessionStart "" (Some ""))))
           "turn on the night" "turn on the night"
           "please turn on the " "light" 12).
  - reflexivity.
  - discriminate.
  - reflexivity.
  - vm_compute. discriminate.
  - reflexivity.
  - replace 12 with (commonLen "turn on the light" "turn on the night")
      by reflexivity.
    apply commonLen_longest.
  - simpl. lia.
  - reflexivity.
  - reflexivity.
Defined.

(** The example the specification gives for a revision, "turn on the
    light" followed by "turn on the lights", starts with the previous
    fragment and so takes the growth branch; the transcript is the same. *)
Example light_lights :
  let w := handleTranscription "turn on the light" (sessionStart "" (Some "")) in
  startsWith "turn on the lights" (lastSDKText w) = true /\
  fullTranscript (handleTranscription "turn on the lights" w) = "turn on the lights".
Proof. split; reflexivity. Qed.

(** When the transcript is shorter than the tail to replace (which no
    session produces, see [handleTranscription_endsWithPrevious]) all of it
    is replaced. *)
Lemma reconciler_revision_short (w : World) (text cur : string) (L : nat) :
  isRecording w = true ->
  lastSDKText w <> "" ->
  cur = cleanOf (previousSessionText w) text ->
  nonBlank cur ->
  startsWith cur (lastSDKText w) = false ->
  longestCommonPrefixLen L (lastSDKText w) cur ->
  3 * String.length (lastSDKText w) < 10 * L ->
  String.length (fullTranscript w) <= String.length (lastSDKText w) - L ->
  fullTranscript (handleTranscription text w) = substringFrom cur L.
Proof.
  intros Hrec Hprev -> Hink Hstart HL Hratio Hshort.
  apply longest_commonLen in HL. subst L.
  destruct (handleTranscription_accepted text w Hrec Hink) as (-> & _).
  rewrite reconcile_revision by assumption.
  replace (String.length (fullTranscript w) - _) with 0 by lia.
  reflexivity.
Qed.

(** C2 as stated fails on the code.  A white-space fragment is dropped
    whatever its overlap; a fragment that starts with the stored
    previous-session text is compared after stripping; and nothing is
    revised once recording has stopped. *)
Lemma reconciler_revision_counterexample :
  (let w := handleTranscription " a" (sessionStart "" (Some "")) in
   lastSDKText w = " a" /\ fullTranscript w = " a" /\
   startsWith " " (lastSDKText w) = false /\
   commonLen (lastSDKText w) " " = 1 /\
   3 * String.length (lastSDKText w) < 10 * 1 /\
   fullTranscript (handleTranscription " " w) = " a" /\
   fullTranscript (handleTranscription " " w)
   <> substringTo (fullTranscript w) (String.length (fullTranscript w) - (2 - 1))
        +:+ substringFrom " " 1)
  /\
  (let w := handleTranscription "ac" (sessionStart "ab" (Some "")) in
   lastRawSDKText w = "ac" /\ lastSDKText w = "ac" /\ fullTranscript w = "ac" /\
   startsWith "abz" (lastSDKText w) = false /\
   commonLen (lastSDKText w) "abz" = 1 /\
   3 * String.length (lastSDKText w) < 10 * 1 /\
   fullTranscript (handleTranscription "abz" w) = "ac z" /\
   fullTranscript (handleTranscription "abz" w)
   <> substringTo (fullTranscript w) (String.length (fullTranscript w) - (2 - 1))
        +:+ substringFrom "abz" 1)
  /\
  (let v := reconcilerState false "ac" "ac" "ac" "" in
   startsWith "abz" (lastSDKText v) = false /\
   commonLen (lastSDKText v) "abz" = 1 /\
   fullTranscript (handleTranscription "abz" v) = "ac" /\
   fullTranscript (handleTranscription "abz" v)
   <> substringTo (fullTranscript v) (String.length (fullTranscript v) - (2 - 1))
        +:+ substringFrom "abz" 1).
Proof.
  vm_compute. repeat split; try reflexivity; try lia; discriminate.
Qed.

(** C3 (overflow), as the code has it.  While the session is recording,
    with non-empty stored previous fragment [prev] and a fragment whose
    text after previous-session stripping, [cur], is not blank and does not
    start with [prev]: if the longest common prefix length [L] has
    [L <= 0.3 * len(prev)], the transcript becomes the prior transcript, one
    space, and [cur]. *)
Theorem reconciler_overflow (w : World) (text cur : string) (L : nat) :
  isRecording w = true ->
  lastSDKText w <> "" ->
  cur = cleanOf (previousSessionText w) text ->
  nonBlank cur ->
  startsWith cur (lastSDKText w) = false ->
  longestCommonPrefixLen L (lastSDKText w) cur ->
  10 * L <= 3 * String.length (lastSDKText w) ->
  fullTranscript (handleTranscription text w) = fullTranscript w +:+ " " +:+ cur.
Proof.
  intros Hrec Hprev -> Hink Hstart HL Hratio.
  apply longest_commonLen in HL. subst L.
  destruct (handleTranscription_accepted text w Hrec Hink) as (-> & _).
  now apply reconcile_overflow.
Qed.

Lemma reconciler_overflow_witness :
  let w := handleTranscription "hello world this is a test" (sessionStart "" (Some "")) in
  fullTranscript (handleTranscription "a test of the system" w)
  = "hello world this is a test a test of the system".
Proof.
  apply (reconciler_overflow
           (handleTranscription "hello world this is a test" (sessionStart "" (Some "")))
           "a test of the system" "a test of the system" 0).
  - reflexivity.
  - discriminate.
  - reflexivity.
  - vm_compute. discriminate.
  - reflexivity.
  - replace 0 with (commonLen "hello world this is a test" "a test of the system")
      by reflexivity.
    apply commonLen_longest.
  - simpl. lia.
Defined.

(** C3 as stated fails on the code.  The empty fragment has no common
    prefix with "a" and does not start with it, yet nothing is appended; a
    fragment that starts with the stored previous-session text is appended
    stripped, not verbatim; and nothing is appended once recording has
    stopped. *)
Lemma reconciler_overflow_counterexample :
  (let w := handleTranscription "a" (sessionStart "" (Some "")) in
   lastSDKText w = "a" /\ fullTranscript w = "a" /\
   startsWith "" (lastSDKText w) = false /\ commonLen (lastSDKText w) "" = 0 /\
   fullTranscript (handleTranscription "" w) = "a" /\
   fullTranscript (handleTranscription "" w) <> fullTranscript w +:+ " " +:+ "")
  /\
  (let w := handleTranscription "xy" (sessionStart "ab" (Some "")) in
   lastRawSDKText w = "xy" /\ lastSDKText w = "xy" /\ fullTranscript w = "xy" /\
   startsWith "abz" (lastSDKText w) = false /\ commonLen (lastSDKText w) "abz" = 0 /\
   fullTranscript (handleTranscription "abz" w) = "xy z" /\
   fullTranscript (handleTranscription "abz" w) <> fullTranscript w +:+ " " +:+ "abz")
  /\
  (let v := reconcilerState false "xy" "xy" "xy" "" in
   startsWith "abz" (lastSDKText v) = false /\ commonLen (lastSDKText v) "abz" = 0 /\
   fullTranscript (handleTranscription "abz" v) <> fullTranscript v +:+ " " +:+ "abz").
Proof.
  vm_compute. repeat split; try reflexivity; discriminate.
Qed.

(** C7 (fragment no-op guard).  A fragment that is empty or white space
    only, or that arrives when the assistant is not recording, leaves the
    whole world unchanged: the accumulated transcript, both previous-fragment
    fields, the page's text field and the log of what was written to it. *)
Theorem fragment_noop_guard (w : World) (text : string) :
  isRecording w = false \/ trim text = "" ->
  handleTranscription text w = w.
Proof.
  intros [H | H]; apply handleTranscription_rejected; auto.
Qed.

Lemma fragment_noop_guard_witness :
  let w := handleTranscription "hello" (sessionStart "" (Some "")) in
  handleTranscription "   " w = w /\
  handleTranscription "" w = w /\
  handleTranscription "hello world" (stopRecording w) = stopRecording w.
Proof.
  intros w. split; [|split].
  - apply (fragment_noop_guard w "   "). right. reflexivity.
  - apply (fragment_noop_guard w ""). right. reflexivity.
  - apply (fragment_noop_guard (stopRecording w) "hello world"). left. reflexivity.
Defined.


(** Every accepted fragment leaves its own tracking behind. *)
Lemma handleTranscription_tracks (w : World) (text : string) :
  isRecording w = true ->
  nonBlank (cleanOf (previousSessionText w) text) ->
  tracksPrevious (handleTranscription text w) text.
Proof.
  intros Hrec Hclean.
  destruct (handleTranscription_accepted text w Hrec Hclean)
    as (_ & Hlast & Hraw & _ & Hp).
  split; [assumption|]. now rewrite Hp.
Qed.

Lemma blank_dec s : {trim s = ""} + {nonBlank s}.
Proof.
  unfold nonBlank. destruct (trim s); [left; reflexivity | right; discriminate].
Qed.

Lemma repeated_fragment_unchanged (w : World) (prev : string) :
  tracksPrevious w prev -> lastSDKText w <> "" ->
  fullTranscript (handleTranscription prev w) = fullTranscript w.
Proof.
  intros [_ Hclean] Hprev.
  destruct (isRecording w) eqn:Hrec.
  - destruct (blank_dec (cleanOf (previousSessionText w) prev)) as [Hb | Hink].
    + rewrite handleTranscription_rejected; auto.
    + destruct (handleTranscription_accepted prev w Hrec Hink) as (-> & _).
      rewrite <- Hclean.
      rewrite <- (append_empty_r (lastSDKText w)) at 2.
      rewrite reconcile_growth by assumption. apply append_empty_r.
  - rewrite handleTranscription_rejected; auto.
Qed.

(** C10 (idempotence on a repeated fragment).  In every state whose
    previous-fragment tracking records a fragment [prev] with a non-empty
    stored text, processing [prev] again leaves the accumulated transcript
    unchanged; so, from any state, delivering a fragment twice in a row
    yields the transcript that delivering it once yields. *)
Theorem reconciler_repeated_fragment :
  (forall (w : World) (prev : string),
     tracksPrevious w prev -> lastSDKText w <> "" ->
     fullTranscript (handleTranscription prev w) = fullTranscript w)
  /\
  (forall (w : World) (text : string),
     fullTranscript (handleTranscription text (handleTranscription text w))
     = fullTranscript (handleTranscription text w)).
Proof.
  split; [exact repeated_fragment_unchanged|].
  intros w text.
  assert (Hrej : isRecording w = false \/
                 trim (cleanOf (previousSessionText w) text) = "" ->
                 handleTranscription text (handleTranscription text w)
                 = handleTranscription text w).
  { intros H.
    assert (E : handleTranscription text w = w)
      by (apply handleTranscription_rejected; tauto).
    now rewrite !E. }
  destruct (isRecording w) eqn:Hrec; [|rewrite Hrej; auto].
  destruct (blank_dec (cleanOf (previousSessionText w) text)) as [Hb | Hink];
    [rewrite Hrej; auto|].
  apply repeated_fragment_unchanged.
  - now apply handleTranscription_tracks.
  - destruct (handleTranscription_accepted text w Hrec Hink) as (_ & -> & _).
    now apply nonBlank_nonempty.
Qed.

Lemma reconciler_repeated_fragment_witness :
  let w := handleTranscription "build a todo app" (sessionStart "old text" (Some "")) in
  fullTranscript (handleTranscription "build a todo app" w) = fullTranscript w.
Proof.
  apply (proj1 reconciler_repeated_fragment
           (handleTranscription "build a todo app" (sessionStart "old text" (Some "")))
           "build a todo app").
  - split; reflexivity.
  - discriminate.
Defined.

(** *** The transcript always ends with the stored previous fragment *)

Lemma sessionStart_endsWithPrevious p field : endsWithPrevious (sessionStart p field).
Proof. exists "". reflexivity. Qed.

Lemma stopRecording_endsWithPrevious w : endsWithPrevious (stopRecording w).
Proof.
  exists "". unfold stopRecording.
  destruct (truthy (lastRawSDKText (setRecording false w))); reflexivity.
Qed.

Lemma reconcile_endsWithPrevious prev full cur :
  (exists head, full = head +:+ prev) ->
  exists head, reconcile prev full cur = head +:+ cur.
Proof.
  intros [head ->]. unfold reconcile.
  destruct (truthy prev) eqn:Hp; simpl negb; cbv iota; [|now exists ""].
  destruct (startsWith cur prev) eqn:Hs.
  - exists head. apply startsWith_split in Hs.
    rewrite Hs at 2. now rewrite append_assoc'.
  - destruct (significantOverlap _ _).
    + exists head.
      pose proof (commonLen_longest prev cur) as [(Hlp & Hlc & Heq) _].
      set (L := commonLen prev cur) in *.
      assert (E : head +:+ prev
                  = (head +:+ substringTo prev L) +:+ substringFrom prev L)
        by (rewrite append_assoc', substringTo_from; reflexivity).
      rewrite E, <- (length_substringFrom prev L), substringTo_drop_tail.
      now rewrite Heq, append_assoc', substringTo_from.
    + exists ((head +:+ prev) +:+ " "). now rewrite !append_assoc'.
Qed.

Lemma handleTranscription_endsWithPrevious w text :
  endsWithPrevious w -> endsWithPrevious (handleTranscription text w).
Proof.
  intros Hinv.
  destruct (isRecording w) eqn:Hrec.
  - destruct (blank_dec (cleanOf (previousSessionText w) text)) as [Hb | Hink].
    + rewrite handleTranscription_rejected; auto.
    + destruct (handleTranscription_accepted text w Hrec Hink) as (Hf & Hl & _).
      unfold endsWithPrevious. rewrite Hf, Hl.
      now apply reconcile_endsWithPrevious.
  - rewrite handleTranscription_rejected; auto.
Qed.

(** ** The relay: forwarding and deduplication *)

Section Relay.

Lemma toolCallIds_app a b : toolCallIds (a ++ b) = (toolCallIds a ++ toolCallIds b)%list.
Proof. apply flat_map_app. Qed.

Lemma responseIds_app a b : responseIds (a ++ b) = (responseIds a ++ responseIds b)%list.
Proof. apply flat_map_app. Qed.

Lemma resultIds_app a b : resultIds (a ++ b) = (resultIds a ++ resultIds b)%list.
Proof. apply map_app. Qed.

(** What one agent message does to the set and to the traffic: nothing is
    ever removed from the set; at most one tool call is forwarded, and
    only with an identifier that was not in the set and now is. *)
Lemma handleAgentMessage_forwarding m r :
  responseIds (frames (handleAgentMessage m r).2) = [] /\
  websocketOpen (handleAgentMessage m r).1 = websocketOpen r /\
  currentTabId (handleAgentMessage m r).1 = currentTabId r /\
  ((forwardedToolCalls (handleAgentMessage m r).1 = forwardedToolCalls r /\
    toolCallIds (notes (handleAgentMessage m r).2) = [])
   \/
   (exists id,
      (id ∉ forwardedToolCalls r) /\
      forwardedToolCalls (handleAgentMessage m r).1 = {[ id ]} ∪ forwardedToolCalls r /\
      (toolCallIds (notes (handleAgentMessage m r).2) = [id] \/
       toolCallIds (notes (handleAgentMessage m r).2) = []))).
Proof.
  destruct m as [ [md|] | a | | e | [t|] | u | [e|] | e | ]; simpl;
    unfold forwardToolCall, notifyContentScript;
    repeat case_match; repeat case_bool_decide; simplify_eq; simpl;
      repeat split; eauto 10.
Qed.

Section WithHandlers.

Variable env : Env.
Variables executeCreatePrompt executeUpdatePrompt
          executeAnalyzeUI executeSuggestNextSteps : option Params -> Task JsValue.

#[local] Abbreviation dispatch := (handleToolCall env executeCreatePrompt executeUpdatePrompt
                        executeAnalyzeUI executeSuggestNextSteps).
#[local] Abbreviation deliverAll' := (deliverAll env executeCreatePrompt executeUpdatePrompt
                           executeAnalyzeUI executeSuggestNextSteps).
#[local] Abbreviation step' := (step env executeCreatePrompt executeUpdatePrompt
                     executeAnalyzeUI executeSuggestNextSteps).
#[local] Abbreviation run' := (run env executeCreatePrompt executeUpdatePrompt
                    executeAnalyzeUI executeSuggestNextSteps).

(** Every dispatch answers with exactly one result, under the
    identifier it was called with. *)
Lemma handleToolCall_id toolName id parameters w :
  toolCallId (dispatch toolName id parameters w).2 = id.
Proof.
  unfold handleToolCall.
  destruct (getProperty toolName) as [t | member | ].
  - destruct (clientTools _ _ _ _ _ t parameters w) as [[v | why] w1]; reflexivity.
  - destruct (callInherited member parameters); reflexivity.
  - reflexivity.
Qed.

Lemma deliverAll_resultIds ns : forall w,
  resultIds (deliverAll' ns w).2 = toolCallIds ns.
Proof.
  induction ns as [|n ns IH]; intros w; [reflexivity|].
  simpl.
  destruct (deliver _ _ _ _ _ n w) as [w1 out1] eqn:E1.
  specialize (IH w1).
  destruct (deliverAll _ _ _ _ _ ns w1) as [w2 out2]. simpl in *.
  rewrite resultIds_app, IH. f_equal.
  destruct n; simpl in E1; try (injection E1 as <- <-; reflexivity).
  pose proof (handleToolCall_id (default "undefined" toolName) toolCallId0
                parameters0 w) as Hid.
  destruct (handleToolCall _ _ _ _ _ _ _ _ w) as [w' message].
  injection E1 as <- <-. simpl in *. now rewrite Hid.
Qed.

(** A result is answered by at most one response, under its identifier. *)
Lemma sendToolResult_ids r answer :
  responseIds (sendToolResult r answer) `sublist_of` [toolCallId answer].
Proof.
  unfold sendToolResult.
  destruct (websocketOpen r); [|apply sublist_nil_l].
  destruct (result answer); simpl; solve [reflexivity | apply sublist_nil_l].
Qed.

Lemma step_relay_FromAgent s m :
  relay (step' s (FromAgent m)) = (handleAgentMessage m (relay s)).1 /\
  notified (step' s (FromAgent m)) = (notified s ++ notes (handleAgentMessage m (relay s)).2)%list /\
  results (step' s (FromAgent m)) = results s /\
  sent (step' s (FromAgent m)) = (sent s ++ frames (handleAgentMessage m (relay s)).2)%list /\
  exists answers,
    pending (step' s (FromAgent m)) = (pending s ++ answers)%list /\
    resultIds answers = toolCallIds (notes (handleAgentMessage m (relay s)).2).
Proof.
  unfold step.
  destruct (handleAgentMessage m (relay s)) as [r out]. simpl.
  pose proof (deliverAll_resultIds (notes out) (content s)) as Hans.
  destruct (deliverAll _ _ _ _ _ (notes out) (content s)) as [w answers].
  simpl in *. repeat split. eauto.
Qed.

Lemma step_ToolResultArrives s k answer :
  pending s !! k = Some answer ->
  step' s (ToolResultArrives k)
  = {| relay := relay s; content := content s; notified := notified s;
       pending := delete k (pending s);
       results := (results s ++ [answer])%list;
       sent := (sent s ++ sendToolResult (relay s) answer)%list |}.
Proof. intros H. simpl. now rewrite H. Qed.

Lemma step_SocketCloses s :
  step' s SocketCloses
  = {| relay := onclose (relay s); content := content s;
       notified := notified s; pending := pending s;
       results := results s; sent := sent s |}.
Proof. reflexivity. Qed.

Lemma freshSession_deduplicated s : freshSession s -> deduplicated s.
Proof.
  intros (Hset & Hn & _). unfold deduplicated.
  rewrite Hn. simpl. split.
  - intros id H. inversion H.
  - constructor.
Qed.

Lemma freshSession_accounted s : freshSession s -> accounted s.
Proof.
  intros (_ & Hn & Hp & Hr & Hs). unfold accounted.
  rewrite Hn, Hp, Hr, Hs. simpl. split; reflexivity.
Qed.

(** Whatever happens, the calls forwarded, the results and the responses
    stay in step. *)
Lemma step_accounted s e : accounted s -> accounted (step' s e).
Proof.
  intros (Hres & Hsent). destruct e as [m | k | ].
  - destruct (step_relay_FromAgent s m)
      as (_ & Hn & Hr & Hs & answers & Hp & Hans).
    pose proof (handleAgentMessage_forwarding m (relay s)) as (Hframes & _).
    unfold accounted. rewrite Hn, Hr, Hs, Hp.
    rewrite responseIds_app, Hframes, app_nil_r. split; [|assumption].
    rewrite app_assoc, resultIds_app, toolCallIds_app, Hans.
    now rewrite Hres.
  - simpl. destruct (pending s !! k) as [answer|] eqn:Hk; [|now split].
    unfold accounted. simpl. split.
    + rewrite <- Hres, <- app_assoc. simpl.
      rewrite !resultIds_app. apply Permutation_app_head.
      change (resultIds (answer :: delete k (pending s)) ≡ₚ resultIds (pending s)).
      unfold resultIds. apply fmap_Permutation. symmetry.
      now apply delete_Permutation.
    + rewrite responseIds_app, resultIds_app. simpl.
      apply sublist_app; [assumption | apply sendToolResult_ids].
  - exact (conj Hres Hsent).
Qed.

Lemma run_accounted es : forall s, accounted s -> accounted (run' s es).
Proof.
  unfold run.
  induction es as [|e es IH]; intros s Hs; [assumption|].
  simpl. apply IH. now apply step_accounted.
Qed.

(** As long as no close handler runs, no identifier is forwarded twice. *)
Lemma step_deduplicated s e :
  e <> SocketCloses -> deduplicated s -> deduplicated (step' s e).
Proof.
  intros He (Hin & Hnodup). destruct e as [m | k | ]; [| |congruence].
  - destruct (step_relay_FromAgent s m) as (Hrelay & Hn & _).
    pose proof (handleAgentMessage_forwarding m (relay s))
      as (_ & _ & _ & Hcases).
    unfold deduplicated. rewrite Hrelay, Hn, toolCallIds_app. split.
    + intros id. rewrite elem_of_app. intros [H | H].
      * apply Hin in H.
        destruct Hcases as [[Hset _] | (id' & _ & Hset & _)]; rewrite Hset;
          [assumption | now apply elem_of_union_r].
      * destruct Hcases as [[_ Hnotes] | (id' & _ & Hset & [Hnotes | Hnotes])];
          rewrite Hnotes in H.
        -- now apply elem_of_nil in H.
        -- apply list_elem_of_singleton in H. subst id'. rewrite Hset.
           now apply elem_of_union_l, elem_of_singleton.
        -- now apply elem_of_nil in H.
    + destruct Hcases as [[_ Hnotes] | (id' & Hnew & _ & [Hnotes | Hnotes])];
        rewrite Hnotes, ?app_nil_r; try assumption.
      apply NoDup_app. repeat split; [assumption | | apply NoDup_singleton].
      intros x Hx Hx'. apply list_elem_of_singleton in Hx'. subst x. auto.
  - simpl. destruct (pending s !! k); now split.
Qed.

Lemma run_deduplicated es : forall s,
  SocketCloses ∉ es -> deduplicated s -> deduplicated (run' s es).
Proof.
  unfold run.
  induction es as [|e es IH]; intros s Hes Hs; [assumption|].
  apply not_elem_of_cons in Hes as [He Hes].
  simpl. apply IH; [assumption|]. apply step_deduplicated; [congruence | assumption].
Qed.

(** Between two closes the set does its work: in a session during which
    no close handler runs, whatever the agent sends and in whichever of
    the two formats, and whenever the results arrive, no tool-call
    identifier is forwarded to the content script twice; the content
    script dispatches each forwarded call once and answers it with one
    result, so no two tool results, and no two responses sent to the
    agent, carry the same identifier. *)
Lemma deduplication_between_closes (s : System) (es : list Event) :
  freshSession s ->
  SocketCloses ∉ es ->
  NoDup (toolCallIds (notified (run' s es))) /\
  NoDup (resultIds (results (run' s es) ++ pending (run' s es))) /\
  NoDup (responseIds (sent (run' s es))).
Proof.
  intros Hfresh Hes.
  destruct (run_deduplicated es s Hes (freshSession_deduplicated s Hfresh))
    as (_ & Hnodup).
  destruct (run_accounted es s (freshSession_accounted s Hfresh))
    as (Hres & Hsent).
  assert (Hall : NoDup (resultIds (results (run' s es) ++ pending (run' s es))))
    by now rewrite Hres.
  split; [assumption|]. split; [assumption|].
  rewrite resultIds_app in Hall. apply NoDup_app in Hall as (Harrived & _).
  eapply sublist_NoDup; [exact Harrived | exact Hsent].
Qed.

(** A tool call with a tab to notify and an identifier that is not in
    the set is forwarded and dispatched. *)
Lemma step_forwards (s : System) (e : ToolCallEvent) (tab : nat) :
  currentTabId (relay s) = Some (S tab) ->
  tool_call_id e ∉ forwardedToolCalls (relay s) ->
  let s' := step' s (FromAgent (ClientToolCall e)) in
  exists answer,
    toolCallId answer = tool_call_id e /\
    relay s' = markForwarded (tool_call_id e) (relay s) /\
    toolCallIds (notified s') = (toolCallIds (notified s) ++ [tool_call_id e])%list /\
    pending s' = (pending s ++ [answer])%list /\
    results s' = results s /\ sent s' = sent s.
Proof.
  intros Htab Hnew. unfold step.
  cbn [handleAgentMessage].
  rewrite (bool_decide_eq_false_2 _ Hnew). unfold notifyContentScript.
  rewrite Htab. cbn [notes frames deliverAll deliver].
  pose proof (handleToolCall_id (default "undefined" (tool_name e)) (tool_call_id e)
                (Some (default ∅ (parameters e))) (content s)) as Hid.
  destruct (handleToolCall _ _ _ _ _ _ _ _ (content s)) as [w answer].
  simpl in *. exists answer. rewrite toolCallIds_app, !app_nil_r.
  repeat split; auto.
Qed.

End WithHandlers.

End Relay.

(** A tool call whose identifier is already in the set is dropped, in
    either message format: nothing is forwarded and nothing changes. *)
Lemma handleAgentMessage_duplicate (r : Relay) (e : ToolCallEvent) :
  tool_call_id e ∈ forwardedToolCalls r ->
  handleAgentMessage (ClientToolCall e) r = (r, silent) /\
  handleAgentMessage (ToolCall (Some e)) r = (r, silent).
Proof.
  intros Hseen. simpl. rewrite (bool_decide_eq_true_2 _ Hseen).
  split; [reflexivity|]. now destruct (truthyOpt (tool_call_id e)).
Qed.

(** C4 (tool-call deduplication) fails on the code when the close
    handler of an agent socket runs during the session; the socket of an
    earlier session, closed when that session was stopped, is enough,
    since the handler does not look at which socket has closed.  It
    empties the set of forwarded identifiers, and a second tool-call
    event with an identifier already forwarded is then forwarded and
    dispatched again: in a session with a tab, the same call received
    twice is forwarded once and answered by one tool result, but
    forwarded twice and answered by two tool results when the close
    handler runs in between. *)
Theorem tool_call_forwarded_again (env : Env)
    (executeCreatePrompt executeUpdatePrompt
     executeAnalyzeUI executeSuggestNextSteps : option Params -> Task JsValue)
    (s : System) (e : ToolCallEvent) (tab : nat) :
  freshSession s ->
  currentTabId (relay s) = Some (S tab) ->
  let call := FromAgent (ClientToolCall e) in
  let once := run env executeCreatePrompt executeUpdatePrompt
                executeAnalyzeUI executeSuggestNextSteps s
                [call; ToolResultArrives 0; call; ToolResultArrives 0] in
  let twice := run env executeCreatePrompt executeUpdatePrompt
                 executeAnalyzeUI executeSuggestNextSteps s
                 [call; ToolResultArrives 0; SocketCloses; call; ToolResultArrives 0] in
  (toolCallIds (notified once) = [tool_call_id e] /\
   resultIds (results once) = [tool_call_id e] /\ pending once = [])
  /\
  (toolCallIds (notified twice) = [tool_call_id e; tool_call_id e] /\
   resultIds (results twice) = [tool_call_id e; tool_call_id e] /\ pending twice = []).
Proof.
  intros (Hset & Hn & Hp & Hr & Hs) Htab call once twice.
  subst call once twice. unfold run. cbn [fold_left].
  assert (Hnew : tool_call_id e ∉ forwardedToolCalls (relay s))
    by (rewrite Hset; apply not_elem_of_empty).
  destruct (step_forwards env executeCreatePrompt executeUpdatePrompt
              executeAnalyzeUI executeSuggestNextSteps s e tab Htab Hnew)
    as (answer & Hid & Hrelay & Hnotified & Hpending & Hresults & _).
  set (s1 := step env executeCreatePrompt executeUpdatePrompt
               executeAnalyzeUI executeSuggestNextSteps s
               (FromAgent (ClientToolCall e))) in *.
  rewrite Hn in Hnotified. rewrite Hp in Hpending. rewrite Hr in Hresults.
  cbn [toolCallIds flat_map app] in Hnotified. cbn [app] in Hpending.
  rewrite (step_ToolResultArrives env executeCreatePrompt executeUpdatePrompt
             executeAnalyzeUI executeSuggestNextSteps s1 0 answer)
    by now rewrite Hpending.
  rewrite Hpending, Hresults. cbn [delete list_delete app].
  set (s2 := {| relay := relay s1; content := content s1;
                notified := notified s1; pending := [];
                results := [answer];
                sent := (sent s1 ++ sendToolResult (relay s1) answer)%list |}).
  split.
  - (* the second event is dropped *)
    assert (Hseen : tool_call_id e ∈ forwardedToolCalls (relay s2)).
    { cbn [s2 relay]. rewrite Hrelay. cbn [markForwarded forwardedToolCalls].
      apply elem_of_union_l, elem_of_singleton. reflexivity. }
    assert (H3 : step env executeCreatePrompt executeUpdatePrompt
                   executeAnalyzeUI executeSuggestNextSteps s2
                   (FromAgent (ClientToolCall e))
                 = {| relay := relay s2; content := content s2;
                      notified := (notified s2 ++ [])%list;
                      pending := (pending s2 ++ [])%list;
                      results := results s2; sent := (sent s2 ++ [])%list |}).
    { unfold step.
      rewrite (proj1 (handleAgentMessage_duplicate (relay s2) e Hseen)).
      reflexivity. }
    rewrite H3. cbn [step pending s2 lookup list_lookup app notified results].
    rewrite app_nil_r, Hnotified. cbn [resultIds map app]. now rewrite Hid.
  - (* after the close it is forwarded again *)
    rewrite step_SocketCloses.
    set (s3 := {| relay := onclose (relay s2); content := content s2;
                  notified := notified s2; pending := pending s2;
                  results := results s2; sent := sent s2 |}).
    assert (Htab3 : currentTabId (relay s3) = Some (S tab)).
    { cbn [s3 s2 relay onclose currentTabId]. rewrite Hrelay. exact Htab. }
    assert (Hnew3 : tool_call_id e ∉ forwardedToolCalls (relay s3))
      by apply not_elem_of_empty.
    destruct (step_forwards env executeCreatePrompt executeUpdatePrompt
                executeAnalyzeUI executeSuggestNextSteps s3 e tab Htab3 Hnew3)
      as (answer' & Hid' & _ & Hnotified4 & Hpending4 & Hresults4 & _).
    set (s4 := step env executeCreatePrompt executeUpdatePrompt
                 executeAnalyzeUI executeSuggestNextSteps s3
                 (FromAgent (ClientToolCall e))) in *.
    cbn [s3 s2 notified pending results] in Hnotified4, Hpending4, Hresults4.
    rewrite Hnotified in Hnotified4.
    cbn [toolCallIds flat_map app] in Hnotified4. cbn [app] in Hpending4.
    rewrite (step_ToolResultArrives env executeCreatePrompt executeUpdatePrompt
               executeAnalyzeUI executeSuggestNextSteps s4 0 answer')
      by now rewrite Hpending4.
    cbn [notified results pending].
    rewrite Hnotified4, Hresults4, Hpending4.
    cbn [resultIds map app delete list_delete].
    now rewrite Hid, Hid'.
Qed.

Lemma tool_call_forwarded_again_witness :
  let call := FromAgent (clientCall "call_1") in
  let twice := run quietEnv idleHandler idleHandler idleHandler idleHandler
                 (sessionOpened 7 (sessionStart "" (Some "")))
                 [call; ToolResultArrives 0; SocketCloses; call; ToolResultArrives 0] in
  toolCallIds (notified twice) = [Some "call_1"; Some "call_1"] /\
  resultIds (results twice) = [Some "call_1"; Some "call_1"] /\
  ~ NoDup (resultIds (results twice)).
Proof.
  intros call twice.
  destruct (tool_call_forwarded_again quietEnv idleHandler idleHandler idleHandler
              idleHandler (sessionOpened 7 (sessionStart "" (Some "")))
              {| tool_name := Some "improve_prompt"; tool_call_id := Some "call_1";
                 parameters := None |} 6)
    as (_ & Hn & Hr & _).
  - repeat split.
  - reflexivity.
  - split; [exact Hn|]. split; [exact Hr|].
    intros H. vm_compute in H.
    apply NoDup_cons in H as [H _]. apply H, list_elem_of_here.
Defined.

Lemma deduplication_between_closes_example :
  let s' := run quietEnv idleHandler idleHandler idleHandler idleHandler
              (sessionOpened 7 (sessionStart "" (Some "")))
              [FromAgent (clientCall "call_1"); FromAgent (clientCall "call_1");
               ToolResultArrives 0;
               FromAgent (ToolCall (Some {| tool_name := Some "improve_prompt";
                                            tool_call_id := Some "call_1";
                                            parameters := None |}))] in
  toolCallIds (notified s') = [Some "call_1"] /\
  resultIds (results s') = [Some "call_1"] /\
  responseIds (sent s') = [Some "call_1"].
Proof. repeat split. Qed.

(** ** The dedup set of the relay *)

Lemma handleAgentMessage_keeps (m : AgentMessage) (r : Relay) :
  forwardedToolCalls r ⊆ forwardedToolCalls (handleAgentMessage m r).1.
Proof.
  destruct (handleAgentMessage_forwarding m r)
    as (_ & _ & _ & [[-> _] | (id & _ & -> & _)]).
  - reflexivity.
  - apply union_subseteq_r.
Qed.

Lemma relayRun_keeps (ms : list AgentMessage) : forall r,
  forwardedToolCalls r ⊆ forwardedToolCalls (relayRun r ms).
Proof.
  induction ms as [|m ms IH]; intros r; simpl; [reflexivity|].
  etransitivity; [apply (handleAgentMessage_keeps m) | apply IH].
Qed.

Lemma relayRun_clientCalls (ids : list string) : forall r,
  forwardedToolCalls (relayRun r (clientCall <$> ids))
  = list_to_set (Some <$> ids) ∪ forwardedToolCalls r.
Proof.
  induction ids as [|id ids IH]; intros r; simpl.
  - now rewrite (left_id_L ∅ (∪)).
  - unfold relayRun in *. rewrite IH. simpl.
    case_bool_decide as Hseen; simpl.
    + apply set_eq. intros x. rewrite !elem_of_union, elem_of_singleton.
      split; [tauto|]. intros [[-> | H] | H]; auto.
    + apply set_eq. intros x. rewrite !elem_of_union, elem_of_singleton. tauto.
Qed.

Lemma idOfNat_length n : String.length (idOfNat n) = n + 4.
Proof. induction n as [|n IH]; simpl; [reflexivity | now rewrite IH]. Qed.

#[local] Instance idOfNat_inj : Inj (=) (=) idOfNat.
Proof.
  intros a b H. apply (f_equal String.length) in H.
  rewrite !idOfNat_length in H. lia.
Qed.

Lemma distinctIds_NoDup n : NoDup (Some <$> distinctIds n).
Proof. unfold distinctIds. apply NoDup_fmap_2; [apply _|]. apply NoDup_fmap_2; [apply _|]. apply NoDup_seq. Qed.

Lemma distinctIds_length n : length (distinctIds n) = n.
Proof. unfold distinctIds. now rewrite length_fmap, length_seq. Qed.

Lemma relayRun_size (r : Relay) (ids : list string) :
  NoDup ids -> forwardedToolCalls r = ∅ ->
  size (forwardedToolCalls (relayRun r (clientCall <$> ids))) = length ids.
Proof.
  intros Hnodup Hempty.
  rewrite relayRun_clientCalls, Hempty, (right_id_L ∅ (∪)).
  rewrite size_list_to_set, length_fmap; [reflexivity|].
  now apply NoDup_fmap_2; [apply _|].
Qed.

(** C8 (the dedup set), as the code has it.  The set of forwarded
    tool-call identifiers has no size cap and no eviction: no message
    removes an identifier from it, [n] calls with different identifiers
    leave [n] identifiers in it, and it is emptied only when the socket
    closes. *)
Theorem dedup_set_unbounded :
  (forall (m : AgentMessage) (r : Relay),
     forwardedToolCalls r ⊆ forwardedToolCalls (handleAgentMessage m r).1)
  /\
  (forall (r : Relay) (ids : list string),
     NoDup ids -> forwardedToolCalls r = ∅ ->
     size (forwardedToolCalls (relayRun r (clientCall <$> ids))) = length ids)
  /\
  (forall r : Relay, forwardedToolCalls (onclose r) = ∅).
Proof.
  split; [exact handleAgentMessage_keeps|].
  split; [exact relayRun_size | reflexivity].
Qed.

Lemma dedup_set_unbounded_witness :
  size (forwardedToolCalls
          (relayRun (connected 7) (clientCall <$> ["a"; "b"; "c"]))) = 3.
Proof.
  apply (proj1 (proj2 dedup_set_unbounded) (connected 7) ["a"; "b"; "c"]).
  - repeat constructor; rewrite ?elem_of_cons, ?elem_of_nil; intuition discriminate.
  - reflexivity.
Defined.

(** C8 as stated fails on the code: whatever the cap, a session with more
    calls than that exceeds it, and the oldest identifier is still in the
    set. *)
Lemma dedup_set_bounded_counterexample :
  (~ exists cap : nat, forall ms : list AgentMessage,
       size (forwardedToolCalls (relayRun (connected 7) ms)) <= cap)
  /\
  (forall n : nat,
     Some "first" ∈ forwardedToolCalls
       (relayRun (connected 7) (clientCall <$> "first" :: distinctIds n))).
Proof.
  split.
  - intros [cap Hcap].
    specialize (Hcap (clientCall <$> distinctIds (S cap))).
    rewrite relayRun_clientCalls in Hcap. simpl forwardedToolCalls in Hcap.
    rewrite (right_id_L ∅ (∪)), size_list_to_set in Hcap
      by apply distinctIds_NoDup.
    rewrite length_fmap, distinctIds_length in Hcap. lia.
  - intros n. rewrite fmap_cons. unfold relayRun. simpl fold_left.
    apply (relayRun_keeps (clientCall <$> distinctIds n)).
    simpl. apply elem_of_union_l, elem_of_singleton. reflexivity.
Qed.

(** ** The tool dispatcher *)

Example registeredNames_joined :
  join ", " registeredNames
  = "improve_prompt, create_prompt, update_prompt, analyze_ui, suggest_next_steps".
Proof. reflexivity. Qed.

Lemma toolOfName_registered (name : string) (t : Tool) :
  toolOfName name = Some t -> name ∈ registeredNames.
Proof.
  unfold toolOfName. intros H. apply find_some in H as [_ H].
  apply String.eqb_eq in H. subst name.
  apply list_elem_of_In, in_map. destruct t; simpl; tauto.
Qed.


Lemma getProperty_missing (name : string) :
  name ∉ registeredNames -> name ∉ objectPrototypeMembers ->
  getProperty name = Missing.
Proof.
  intros Hreg Hproto. unfold getProperty.
  destruct (toolOfName name) as [t|] eqn:E.
  - now apply toolOfName_registered in E.
  - now rewrite bool_decide_eq_false_2.
Qed.

Lemma getProperty_inherited (name : string) :
  name ∈ objectPrototypeMembers -> getProperty name = Inherited name.
Proof.
  intros H. unfold getProperty.
  replace (toolOfName name) with (@None Tool).
  - now rewrite bool_decide_eq_true_2.
  - unfold objectPrototypeMembers in H.
    repeat (apply elem_of_cons in H as [-> | H]; [reflexivity|]).
    now apply elem_of_nil in H.
Qed.

(** For a name that is neither registered nor a member of
    [Object.prototype], the dispatcher answers [success = false] with the
    list of the registered tools, and leaves the world as it is: no handler
    has run. *)
Lemma handleToolCall_unknown (env : Env)
    (executeCreatePrompt executeUpdatePrompt
     executeAnalyzeUI executeSuggestNextSteps : option Params -> Task JsValue)
    (toolName : string) (id : option string) (parameters : option Params) (w : World) :
  toolName ∉ registeredNames ->
  toolName ∉ objectPrototypeMembers ->
  handleToolCall env executeCreatePrompt executeUpdatePrompt
    executeAnalyzeUI executeSuggestNextSteps toolName id parameters w
  = (w, {| toolCallId := id;
           result := VString ("Unknown tool: " +:+ toolName +:+
                              ". Available tools: improve_prompt, create_prompt, update_prompt, analyze_ui, suggest_next_steps");
           success := false |}).
Proof.
  intros Hreg Hproto. unfold handleToolCall.
  now rewrite (getProperty_missing toolName Hreg Hproto).
Qed.

(** C5 (unknown tool) does not hold of the code for the names that the
    tool table inherits.  "toString" is not a registered tool, yet the
    dispatcher finds [Object.prototype.toString] under that name, calls it,
    and reports [success = true] with the result "[object Object]"; the
    list of registered tools is not sent. *)
Theorem unknown_tool_inherited_member (env : Env)
    (executeCreatePrompt executeUpdatePrompt
     executeAnalyzeUI executeSuggestNextSteps : option Params -> Task JsValue)
    (id : option string) (parameters : option Params) (w : World) :
  ("toString" ∉ registeredNames) /\
  handleToolCall env executeCreatePrompt executeUpdatePrompt
    executeAnalyzeUI executeSuggestNextSteps "toString" id parameters w
  = (w, {| toolCallId := id; result := VString "[object Object]"; success := true |}).
Proof.
  split; [|reflexivity].
  unfold registeredNames. simpl.
  rewrite !elem_of_cons, elem_of_nil. intuition discriminate.
Qed.

(** Every inherited member is taken for a tool: none of them yields the
    unknown-tool answer. *)
Lemma handleToolCall_inherited (env : Env)
    (executeCreatePrompt executeUpdatePrompt
     executeAnalyzeUI executeSuggestNextSteps : option Params -> Task JsValue)
    (toolName : string) (id : option string) (parameters : option Params) (w : World) :
  toolName ∈ objectPrototypeMembers ->
  let answer := (handleToolCall env executeCreatePrompt executeUpdatePrompt
                   executeAnalyzeUI executeSuggestNextSteps
                   toolName id parameters w).2 in
  success answer = true \/
  exists why, result answer = VString ("Error executing " +:+ toolName +:+ ": " +:+ why).
Proof.
  intros H. unfold handleToolCall. rewrite (getProperty_inherited toolName H).
  destruct (callInherited toolName parameters) as [v | why]; simpl; eauto.
Qed.

(** ** [improve_prompt] *)

Lemma fieldBlank_actualPrompt (w : World) :
  fieldBlank w ->
  truthy (match textarea w with Some value => trim value | None => "" end) = false.
Proof.
  intros [H | (value & H & Hblank)]; rewrite H; [reflexivity|].
  now rewrite Hblank.
Qed.

Lemma executeImprovePrompt_blank (env : Env) (parameters : Params) (w : World) :
  fieldBlank w ->
  executeImprovePrompt env (Some parameters) w
  = (Returned (VString improveEmptyMessage),
     logUi HideNotification (logUi improveSpinner w)).
Proof.
  intros Hblank. apply fieldBlank_actualPrompt in Hblank.
  unfold executeImprovePrompt, mbind, task_bind, effect, getBoltTextarea, read.
  simpl. rewrite Hblank. reflexivity.
Qed.

(** Without a parameter object ([undefined], which only a [tool_call]
    event of the older format can deliver) the handler throws at its
    first statement, before the spinner and before the guard. *)
Lemma executeImprovePrompt_undefined (env : Env) (w : World) :
  executeImprovePrompt env None w
  = (Thrown "Cannot destructure property 'user_idea' of 'parameters' as it is undefined.", w).
Proof. reflexivity. Qed.

(** C6 (empty-field guard).  When the page's text field is absent or
    holds only white space, [improve_prompt] makes no request to the
    generative-text API and does not write the field, whatever the
    environment.  Called with a parameter object, whatever it holds, it
    answers with the message that asks the user to type a prompt first,
    and shows and hides the spinner.  Called without one, it does not
    reach the guard: it throws on taking [user_idea] out of
    [undefined], and the page is untouched. *)
Theorem improve_prompt_empty_field (env : Env) (parameters : option Params) (w : World) :
  fieldBlank w ->
  requests (executeImprovePrompt env parameters w).2 = requests w /\
  textarea (executeImprovePrompt env parameters w).2 = textarea w /\
  match parameters with
  | Some _ =>
      executeImprovePrompt env parameters w
      = (Returned (VString "I don't see any text in the textarea. Could you type a prompt first, then ask me to improve it?"),
         logUi HideNotification (logUi improveSpinner w))
  | None =>
      executeImprovePrompt env parameters w
      = (Thrown "Cannot destructure property 'user_idea' of 'parameters' as it is undefined.", w)
  end.
Proof.
  intros Hblank. destruct parameters as [parameters|].
  - rewrite (executeImprovePrompt_blank env parameters w Hblank).
    repeat split.
  - rewrite executeImprovePrompt_undefined. repeat split.
Qed.

Lemma improve_prompt_empty_field_witness :
  (executeImprovePrompt stoppedInFlight (Some ∅) (sessionStart "" (Some "   "))).1
  = Returned (VString "I don't see any text in the textarea. Could you type a prompt first, then ask me to improve it?")
  /\
  requests (executeImprovePrompt stoppedInFlight (Some ∅) (sessionStart "" None)).2 = []
  /\
  (executeImprovePrompt stoppedInFlight None (sessionStart "" (Some "   "))).1
  = Thrown "Cannot destructure property 'user_idea' of 'parameters' as it is undefined.".
Proof.
  split; [|split].
  - rewrite (proj2 (proj2 (improve_prompt_empty_field stoppedInFlight (Some ∅)
                             (sessionStart "" (Some "   "))
                             (or_intror (ex_intro _ "   " (conj eq_refl eq_refl)))))).
    reflexivity.
  - apply (proj1 (improve_prompt_empty_field stoppedInFlight (Some ∅)
                    (sessionStart "" None) (or_introl eq_refl))).
  - rewrite (proj2 (proj2 (improve_prompt_empty_field stoppedInFlight None
                             (sessionStart "" (Some "   "))
                             (or_intror (ex_intro _ "   " (conj eq_refl eq_refl)))))).
    reflexivity.
Defined.

(** The same through the relay.  A [client_tool_call] for
    [improve_prompt] that is forwarded to a page with a blank field is
    answered by that message, whatever its parameters (even none, for
    which the relay passes an empty object), without any request. *)
Lemma client_tool_call_improve_blank (env : Env)
    (executeCreatePrompt executeUpdatePrompt
     executeAnalyzeUI executeSuggestNextSteps : option Params -> Task JsValue)
    (s : System) (id : option string) (parameters : option Params) (tab : nat) :
  currentTabId (relay s) = Some (S tab) ->
  id ∉ forwardedToolCalls (relay s) ->
  fieldBlank (content s) ->
  let s' := step env executeCreatePrompt executeUpdatePrompt
              executeAnalyzeUI executeSuggestNextSteps s
              (FromAgent
                 (ClientToolCall {| tool_name := Some "improve_prompt";
                                    tool_call_id := id; parameters := parameters |})) in
  pending s' = (pending s ++ [{| toolCallId := id;
                                 result := VString improveEmptyMessage;
                                 success := true |}])%list
  /\ requests (content s') = requests (content s).
Proof.
  intros Htab Hnew Hblank. unfold step.
  cbn [handleAgentMessage tool_call_id tool_name Background.parameters].
  rewrite (bool_decide_eq_false_2 _ Hnew). unfold notifyContentScript.
  rewrite Htab. cbn [notes frames deliverAll deliver].
  change (default "undefined" (Some "improve_prompt")) with "improve_prompt".
  unfold handleToolCall.
  change (getProperty "improve_prompt") with (OwnTool improve_prompt).
  cbn [clientTools].
  rewrite (executeImprovePrompt_blank env _ (content s) Hblank).
  split; reflexivity.
Qed.

(** A [tool_call] event of the older format is forwarded with the
    parameters it has.  When it has none, the handler throws, and the
    dispatcher answers [success = false] with the error; the page is
    untouched, blank field or not. *)
Lemma tool_call_improve_undefined (env : Env)
    (executeCreatePrompt executeUpdatePrompt
     executeAnalyzeUI executeSuggestNextSteps : option Params -> Task JsValue)
    (s : System) (id : string) (tab : nat) :
  currentTabId (relay s) = Some (S tab) ->
  id <> "" ->
  Some id ∉ forwardedToolCalls (relay s) ->
  let s' := step env executeCreatePrompt executeUpdatePrompt
              executeAnalyzeUI executeSuggestNextSteps s
              (FromAgent
                 (ToolCall (Some {| tool_name := Some "improve_prompt";
                                    tool_call_id := Some id; parameters := None |}))) in
  pending s' = (pending s ++ [{| toolCallId := Some id;
                                 result := VString "Error executing improve_prompt: Cannot destructure property 'user_idea' of 'parameters' as it is undefined.";
                                 success := false |}])%list
  /\ content s' = content s.
Proof.
  intros Htab Hid Hnew. unfold step.
  cbn [handleAgentMessage tool_call_id tool_name Background.parameters].
  assert (Ht : truthyOpt (Some id) = true) by (now apply truthy_true).
  rewrite Ht, (bool_decide_eq_false_2 _ Hnew).
  unfold forwardToolCall, notifyContentScript.
  rewrite Htab. cbn [notes frames deliverAll deliver tool_call_id tool_name
                       Background.parameters].
  split; reflexivity.
Qed.

Example tool_call_improve_undefined_blank :
  let s' := run quietEnv idleHandler idleHandler idleHandler idleHandler
              (sessionOpened 7 (sessionStart "" (Some "")))
              [FromAgent
                 (ToolCall (Some {| tool_name := Some "improve_prompt";
                                    tool_call_id := Some "call_1";
                                    parameters := None |}));
               ToolResultArrives 0] in
  results s' = [{| toolCallId := Some "call_1";
                   result := VString "Error executing improve_prompt: Cannot destructure property 'user_idea' of 'parameters' as it is undefined.";
                   success := false |}]
  /\ ui (content s') = [].
Proof. split; reflexivity. Qed.

Example stripQuotes_quoted :
  stripQuotes (dquote +:+ "Build a todo app" +:+ dquote) = "Build a todo app" /\
  stripQuotes "'Build a todo app'" = "Build a todo app" /\
  stripQuotes "Build a 'todo' app" = "Build a 'todo' app".
Proof. repeat split. Qed.






(** * Further properties of the code *)

(** ** The reconciler over a whole session *)

Lemma handleAll_endsWithPrevious (fragments : list string) : forall w,
  endsWithPrevious w -> endsWithPrevious (handleAll w fragments).
Proof.
  induction fragments as [|text rest IH]; intros w Hw; [assumption|].
  simpl. apply IH. now apply handleTranscription_endsWithPrevious.
Qed.

(** X1.  At every point of a session, whatever fragments arrived, the
    accumulated transcript ends with the stored previous fragment. *)
Theorem session_transcript_ends_with_previous
    (previousSession : string) (field : option string) (fragments : list string) :
  exists head,
    fullTranscript (handleAll (sessionStart previousSession field) fragments)
    = head +:+ lastSDKText (handleAll (sessionStart previousSession field) fragments).
Proof.
  apply (handleAll_endsWithPrevious fragments).
  apply sessionStart_endsWithPrevious.
Qed.

Lemma reconcile_keeps_head prev head cur :
  prev <> "" ->
  exists rest, reconcile prev (head +:+ prev) cur = head +:+ rest.
Proof.
  intros Hp. unfold reconcile. apply truthy_true in Hp. rewrite Hp.
  simpl negb. cbv iota.
  destruct (startsWith cur prev) eqn:Hs.
  - eexists. now rewrite append_assoc'.
  - destruct (significantOverlap _ _).
    + exists (substringTo prev (commonLen prev cur)
              +:+ substringFrom cur (commonLen prev cur)).
      set (L := commonLen prev cur).
      pose proof (commonLen_longest prev cur) as [(Hlp & _ & _) _]. fold L in Hlp.
      assert (E : head +:+ prev
                  = (head +:+ substringTo prev L) +:+ substringFrom prev L)
        by now rewrite append_assoc', substringTo_from.
      rewrite E, <- (length_substringFrom prev L), substringTo_drop_tail.
      now rewrite append_assoc'.
    + eexists. now rewrite append_assoc'.
Qed.

(** X2.  The transcript is append-only up to a correction of its tail:
    once a previous fragment is stored, whatever fragment arrives, the part
    of the transcript that precedes the stored previous fragment is kept. *)
Theorem transcript_head_kept (w : World) (text head : string) :
  lastSDKText w <> "" ->
  fullTranscript w = head +:+ lastSDKText w ->
  exists rest, fullTranscript (handleTranscription text w) = head +:+ rest.
Proof.
  intros Hprev Hfull.
  destruct (isRecording w) eqn:Hrec.
  - destruct (blank_dec (cleanOf (previousSessionText w) text)) as [Hb | Hink].
    + rewrite handleTranscription_rejected by auto. eauto.
    + destruct (handleTranscription_accepted text w Hrec Hink) as (-> & _).
      rewrite Hfull. now apply reconcile_keeps_head.
  - rewrite handleTranscription_rejected by auto. eauto.
Qed.

Lemma transcript_head_kept_witness :
  let w := handleTranscription "turn on the light"
             (handleTranscription "please" (sessionStart "" (Some ""))) in
  exists rest,
    fullTranscript (handleTranscription "turn off everything" w) = "please " +:+ rest.
Proof.
  apply (transcript_head_kept
           (handleTranscription "turn on the light"
              (handleTranscription "please" (sessionStart "" (Some ""))))
           "turn off everything" "please ").
  - discriminate.
  - reflexivity.
Defined.

Lemma overflows_dec (w : World) (cur : string) :
  lastSDKText w <> "" -> startsWith cur (lastSDKText w) = false ->
  overflows w cur \/ 3 * String.length (lastSDKText w) < 10 * commonLen (lastSDKText w) cur.
Proof.
  intros Hp Hs. unfold overflows.
  destruct (Nat.le_gt_cases (10 * commonLen (lastSDKText w) cur)
              (3 * String.length (lastSDKText w))); auto.
Qed.

(** X3.  As long as no overflow is detected the reconciler is transparent:
    if the transcript is the stored previous fragment, then after a
    fragment that is accepted and does not take the overflow branch the
    transcript is that fragment's stripped text, which is the new stored
    previous fragment. *)
Theorem no_overflow_transparent (w : World) (text : string) :
  isRecording w = true ->
  nonBlank (cleanOf (previousSessionText w) text) ->
  fullTranscript w = lastSDKText w ->
  ~ overflows w (cleanOf (previousSessionText w) text) ->
  fullTranscript (handleTranscription text w) = cleanOf (previousSessionText w) text
  /\ lastSDKText (handleTranscription text w) = cleanOf (previousSessionText w) text.
Proof.
  intros Hrec Hink Hfull Hno.
  destruct (handleTranscription_accepted text w Hrec Hink) as (-> & -> & _).
  split; [|reflexivity].
  set (cur := cleanOf (previousSessionText w) text) in *.
  destruct (lastSDKText w) as [|c prev] eqn:Hprev.
  - reflexivity.
  - rewrite <- Hprev in *.
    assert (Hp : lastSDKText w <> "") by (rewrite Hprev; discriminate).
    destruct (startsWith cur (lastSDKText w)) eqn:Hs.
    + pose proof (startsWith_split _ _ Hs) as Hsplit.
      rewrite Hsplit at 1. rewrite Hfull, reconcile_growth by assumption.
      now rewrite <- Hsplit.
    + destruct (overflows_dec w cur Hp Hs) as [Ho | Hr]; [contradiction|].
      rewrite reconcile_revision, Hfull by assumption.
      pose proof (commonLen_longest (lastSDKText w) cur) as [(Hlp & _ & Heq) _].
      replace (String.length (lastSDKText w)
               - (String.length (lastSDKText w) - commonLen (lastSDKText w) cur))
        with (commonLen (lastSDKText w) cur) by lia.
      now rewrite Heq, substringTo_from.
Qed.

Lemma no_overflow_transparent_witness :
  let w := handleTranscription "turn on the light" (sessionStart "" (Some "")) in
  fullTranscript (handleTranscription "turn on the night" w) = "turn on the night"
  /\ lastSDKText (handleTranscription "turn on the night" w) = "turn on the night".
Proof.
  apply (no_overflow_transparent
           (handleTranscription "turn on the light" (sessionStart "" (Some "")))
           "turn on the night").
  - reflexivity.
  - vm_compute. discriminate.
  - reflexivity.
  - intros (_ & _ & H). vm_compute in H. lia.
Defined.

Lemma lcp_next a : forall b,
  lcp a b < String.length a -> lcp a b < String.length b ->
  String.get (lcp a b) a <> String.get (lcp a b) b.
Proof.
  induction a as [|x a IH]; intros [|y b]; simpl; try lia.
  destruct (Ascii.eqb x y) eqn:E; simpl.
  - intros Ha Hb. apply IH; lia.
  - intros _ _ H. injection H as ->. now rewrite Ascii.eqb_refl in E.
Qed.

(** X4.  The loop that counts the common prefix stops exactly at the first
    difference: the two strings agree on their first [commonLen] code
    units, and if both go on, they differ at that position. *)
Theorem common_prefix_loop_stops_at_difference (a b : string) :
  commonLen a b <= String.length a /\
  commonLen a b <= String.length b /\
  substringTo a (commonLen a b) = substringTo b (commonLen a b) /\
  (commonLen a b < String.length a -> commonLen a b < String.length b ->
   charAt a (commonLen a b) <> charAt b (commonLen a b)).
Proof.
  rewrite commonLen_lcp. pose proof (lcp_le a b) as [Ha Hb].
  repeat split; try assumption.
  - apply lcp_common.
  - apply lcp_next.
Qed.

Lemma common_prefix_loop_stops_at_difference_witness :
  commonLen "turn on the light" "turn on the night" = 12 /\
  charAt "turn on the light" 12 <> charAt "turn on the night" 12.
Proof.
  split; [reflexivity|].
  apply (proj2 (proj2 (proj2
           (common_prefix_loop_stops_at_difference
              "turn on the light" "turn on the night")))); vm_compute; lia.
Defined.




(** ** The relay: every call is answered *)






Section Answered.

Variable env : Env.
Variables executeCreatePrompt executeUpdatePrompt
          executeAnalyzeUI executeSuggestNextSteps : option Params -> Task JsValue.

#[local] Abbreviation step' := (step env executeCreatePrompt executeUpdatePrompt
                                  executeAnalyzeUI executeSuggestNextSteps).
#[local] Abbreviation run' := (run env executeCreatePrompt executeUpdatePrompt
                                 executeAnalyzeUI executeSuggestNextSteps).





End Answered.



(** ** The relay: tool registration and calls without identifier *)




Section Registration.

Variable env : Env.
Variables executeCreatePrompt executeUpdatePrompt
          executeAnalyzeUI executeSuggestNextSteps : option Params -> Task JsValue.

#[local] Abbreviation step' := (step env executeCreatePrompt executeUpdatePrompt
                                  executeAnalyzeUI executeSuggestNextSteps).
#[local] Abbreviation run' := (run env executeCreatePrompt executeUpdatePrompt
                                 executeAnalyzeUI executeSuggestNextSteps).






End Registration.



(** X8.  Tool calls without an identifier.  In the older format a call
    whose identifier is missing or empty is ignored altogether.  In the
    newer format the missing identifier is itself remembered: after one
    such call, every later call without identifier is dropped as a
    duplicate, whatever tool it names. *)
Theorem tool_calls_without_identifier :
  (forall (r : Relay) (e : ToolCallEvent),
     tool_call_id e = None \/ tool_call_id e = Some "" ->
     handleAgentMessage (ToolCall (Some e)) r = (r, silent))
  /\
  (forall (r : Relay) (e1 e2 : ToolCallEvent),
     tool_call_id e1 = None -> tool_call_id e2 = None ->
     handleAgentMessage (ClientToolCall e2) (handleAgentMessage (ClientToolCall e1) r).1
     = ((handleAgentMessage (ClientToolCall e1) r).1, silent)).
Proof.
  split.
  - intros r e [H | H]; simpl; now rewrite H.
  - intros r e1 e2 H1 H2.
    apply handleAgentMessage_duplicate.
    rewrite H2. simpl. rewrite H1.
    case_bool_decide as Hseen; simpl; [assumption|].
    apply elem_of_union_l, elem_of_singleton. reflexivity.
Qed.

Lemma tool_calls_without_identifier_witness :
  let first := {| tool_name := Some "improve_prompt"; tool_call_id := None;
                  parameters := None |} in
  let second := {| tool_name := Some "create_prompt"; tool_call_id := None;
                   parameters := None |} in
  toolCallIds (notes (handleAgentMessage (ClientToolCall first) (connected 7)).2) = [None]
  /\
  handleAgentMessage (ClientToolCall second)
    (handleAgentMessage (ClientToolCall first) (connected 7)).1
  = ((handleAgentMessage (ClientToolCall first) (connected 7)).1, silent).
Proof.
  intros first second. split; [reflexivity|].
  apply (proj2 tool_calls_without_identifier (connected 7) first second);
    reflexivity.
Defined.

(** ** The dispatcher and [improve_prompt] *)

(** X9.  A tool name that is neither one of the five registered handlers
    nor a member of [Object.prototype] is answered with [success = false]
    and a message that lists the registered tools; the world is untouched,
    so no handler has run. *)
Theorem unknown_tool_rejected (env : Env)
    (executeCreatePrompt executeUpdatePrompt
     executeAnalyzeUI executeSuggestNextSteps : option Params -> Task JsValue)
    (toolName : string) (id : option string) (parameters : option Params) (w : World) :
  toolName ∉ registeredNames ->
  toolName ∉ objectPrototypeMembers ->
  handleToolCall env executeCreatePrompt executeUpdatePrompt
    executeAnalyzeUI executeSuggestNextSteps toolName id parameters w
  = (w, {| toolCallId := id;
           result := VString ("Unknown tool: " +:+ toolName +:+
                              ". Available tools: improve_prompt, create_prompt, update_prompt, analyze_ui, suggest_next_steps");
           success := false |}).
Proof.
  intros Hreg Hproto. unfold handleToolCall.
  rewrite (getProperty_missing toolName Hreg Hproto). reflexivity.
Qed.

Lemma unknown_tool_rejected_witness :
  (handleToolCall quietEnv idleHandler idleHandler idleHandler idleHandler
     "does_not_exist" (Some "call_1") (Some ∅) (sessionStart "" None)).2
  = {| toolCallId := Some "call_1";
       result := VString "Unknown tool: does_not_exist. Available tools: improve_prompt, create_prompt, update_prompt, analyze_ui, suggest_next_steps";
       success := false |}.
Proof.
  rewrite (unknown_tool_rejected quietEnv idleHandler idleHandler idleHandler
             idleHandler "does_not_exist" (Some "call_1") (Some ∅)
             (sessionStart "" None)).
  - reflexivity.
  - unfold registeredNames. simpl.
    rewrite !elem_of_cons, elem_of_nil. intuition discriminate.
  - unfold objectPrototypeMembers.
    rewrite !elem_of_cons, elem_of_nil. intuition discriminate.
Defined.


(** Every way through [executeImprovePrompt] when it is given a parameter
    object: it reports success, or it ends at a guard, at the rejected
    read of the key (thrown), or somewhere after the request. *)
Lemma executeImprovePrompt_cases (env : Env) (parameters : Params) (w : World) :
  let out := executeImprovePrompt env (Some parameters) w in
  let w0 := whileSuspended env 0 (logUi improveSpinner w) in
  (out.1 = Returned (VString improveDoneMessage) /\
   exists request text,
     out.2 = logUi (ShowNotification "✅ Prompt improved!" "success")
               (logUi HideNotification
                  (sendCommandToBolt (stripQuotes (trim text)) false
                     (whileSuspended env 2
                        (whileSuspended env 1 (logRequest request w0))))))
  \/
  (out.1 <> Returned (VString improveDoneMessage) /\
   (out.2 = logUi HideNotification (logUi improveSpinner w) \/
    out.2 = logUi HideNotification w0 \/
    out.2 = w0 \/
    exists request,
      let w1 := whileSuspended env 1 (logRequest request w0) in
      out.2 = logUi HideNotification w1 \/
      out.2 = whileSuspended env 2 w1 \/
      out.2 = logUi HideNotification (whileSuspended env 2 w1))).
Proof.
  unfold executeImprovePrompt, storageGet, fetch, await, tryCatch,
    showNotification, hideNotification, getBoltTextarea, read, effect,
    mbind, mret, task_bind, task_ret, throw.
  simpl.
  destruct (truthy (match textarea w with Some value => trim value | None => "" end)).
  2:{ simpl. right. split; [discriminate | auto]. }
  simpl. destruct (storageRead env) as [why | key].
  { simpl. right. split; [discriminate | auto]. }
  simpl. destruct (truthyOpt key).
  2:{ simpl. right. split; [discriminate | auto]. }
  simpl.
  match goal with |- context [fetchOutcome env ?r] =>
    set (request := r); destruct (fetchOutcome env request) as [why | st [why | m] | [why | | why | text]]
  end; simpl.
  all: try (right; split; [discriminate|]; right; right; right; exists request; simpl; auto; fail).
  left. split; [reflexivity|]. eauto.
Qed.

Lemma undisturbed_field (env : Env) (n : nat) (w : World) :
  undisturbed env -> textarea (whileSuspended env n w) = textarea w.
Proof. intros H. apply H. Qed.

Lemma undisturbed_requests (env : Env) (n : nat) (w : World) :
  undisturbed env -> requests (whileSuspended env n w) = requests w.
Proof. intros H. apply H. Qed.

(** X11.  When nothing else on the page edits the field or calls the API
    in the meantime, [improve_prompt] makes at most one request, and
    unless it reports success the text field is left as it was: a failed
    call never overwrites the user's prompt. *)
Theorem improve_prompt_failure_keeps_field (env : Env) (parameters : Params) (w : World) :
  undisturbed env ->
  length (requests (executeImprovePrompt env (Some parameters) w).2)
  <= S (length (requests w))
  /\
  ((executeImprovePrompt env (Some parameters) w).1
   <> Returned (VString "Done! I've improved your prompt and updated the textarea. You're ready to go!") ->
   textarea (executeImprovePrompt env (Some parameters) w).2 = textarea w).
Proof.
  intros Hq.
  pose proof (executeImprovePrompt_cases env parameters w) as Hcases.
  cbv zeta in Hcases.
  destruct Hcases as [(Hdone & request & text & ->)
                     | (Hfail & [-> | [-> | [-> | (request & [-> | [-> | ->]])]]])].
  - split; [|intros H; now elim H].
    unfold sendCommandToBolt. case_match; simpl;
      rewrite !undisturbed_requests by assumption; simpl;
      rewrite undisturbed_requests by assumption; simpl; lia.
  - simpl. split; [lia | reflexivity].
  - simpl. rewrite undisturbed_requests, undisturbed_field by assumption.
    simpl. split; [lia | reflexivity].
  - rewrite undisturbed_requests, undisturbed_field by assumption.
    simpl. split; [lia | reflexivity].
  - simpl. rewrite undisturbed_requests, undisturbed_field by assumption. simpl.
    rewrite undisturbed_requests, undisturbed_field by assumption.
    simpl. split; [lia | reflexivity].
  - rewrite !undisturbed_requests, !undisturbed_field by assumption. simpl.
    rewrite undisturbed_requests, undisturbed_field by assumption.
    simpl. split; [lia | reflexivity].
  - simpl. rewrite !undisturbed_requests, !undisturbed_field by assumption. simpl.
    rewrite undisturbed_requests, undisturbed_field by assumption.
    simpl. split; [lia | reflexivity].
Qed.

Lemma quietEnv_undisturbed : undisturbed quietEnv.
Proof. intros n w. split; reflexivity. Qed.

Lemma improve_prompt_failure_keeps_field_witness :
  let env := {| storageRead := ReadGives (Some "key");
                fetchOutcome := fun _ => HttpError "Too Many Requests" (ErrorJson None);
                whileSuspended := fun _ w => w |} in
  let w := sessionStart "" (Some "a todo app") in
  (executeImprovePrompt env (Some ∅) w).1
  = Returned (VString "Sorry, I got an error from Gemini: Too Many Requests")
  /\ length (requests (executeImprovePrompt env (Some ∅) w).2) <= 1
  /\ textarea (executeImprovePrompt env (Some ∅) w).2 = Some "a todo app".
Proof.
  intros env w. split; [reflexivity|].
  destruct (improve_prompt_failure_keeps_field env ∅ w) as [Hone Hkeep].
  - intros n v. split; reflexivity.
  - split; [exact Hone|]. apply Hkeep. discriminate.
Defined.

(** X12.  Without a stored API key (the read of the storage gives none,
    or the empty string), [improve_prompt] answers that the key is not
    configured; when nothing else on the page interferes, no request has
    been made and the field is as before. *)
Theorem improve_prompt_missing_key (env : Env) (parameters : Params) (w : World)
    (value : string) :
  textarea w = Some value -> nonBlank value ->
  storageRead env = ReadGives None \/ storageRead env = ReadGives (Some "") ->
  (executeImprovePrompt env (Some parameters) w).1
  = Returned (VString "Oops! The Gemini API key isn't configured yet. Please set it in the extension settings.")
  /\
  (undisturbed env ->
   requests (executeImprovePrompt env (Some parameters) w).2 = requests w /\
   textarea (executeImprovePrompt env (Some parameters) w).2 = textarea w).
Proof.
  intros Hfield Hink Hkey. apply nonBlank_truthy in Hink.
  assert (E : executeImprovePrompt env (Some parameters) w
              = (Returned (VString "Oops! The Gemini API key isn't configured yet. Please set it in the extension settings."),
                 logUi HideNotification (whileSuspended env 0 (logUi improveSpinner w)))).
  { unfold executeImprovePrompt, storageGet, await, hideNotification,
      getBoltTextarea, read, effect, mbind, mret, task_bind, task_ret.
    simpl. rewrite Hfield, Hink. simpl.
    destruct Hkey as [-> | ->]; reflexivity. }
  rewrite E. split; [reflexivity|].
  intros Hq. simpl.
  now rewrite undisturbed_requests, undisturbed_field by assumption.
Qed.

Lemma improve_prompt_missing_key_witness :
  (executeImprovePrompt quietEnv (Some ∅) (sessionStart "" (Some "a todo app"))).1
  = Returned (VString "Oops! The Gemini API key isn't configured yet. Please set it in the extension settings.")
  /\
  requests (executeImprovePrompt quietEnv (Some ∅) (sessionStart "" (Some "a todo app"))).2
  = [].
Proof.
  destruct (improve_prompt_missing_key quietEnv ∅ (sessionStart "" (Some "a todo app"))
              "a todo app") as [Hanswer Hquiet].
  - reflexivity.
  - vm_compute. discriminate.
  - left. reflexivity.
  - split; [exact Hanswer|]. apply (proj1 (Hquiet quietEnv_undisturbed)).
Defined.

(** ** Quotes around the generated prompt *)

Lemma rev_app_append (a b acc : string) :
  String.rev_app (a +:+ b) acc = String.rev_app b (String.rev_app a acc).
Proof. revert acc. induction a as [|c a IH]; intros acc; simpl; auto. Qed.

Lemma endsWith_wrapped (c : ascii) (s : string) :
  endsWith (String c (s +:+ String c "")) (String c "") = true.
Proof.
  unfold endsWith, String.rev. simpl.
  rewrite rev_app_append. simpl. now rewrite Ascii.eqb_refl.
Qed.

Lemma slice1m1_wrapped (c d : ascii) (s : string) :
  slice1m1 (String c (s +:+ String d "")) = s.
Proof.
  unfold slice1m1. simpl. rewrite length_append'. simpl.
  replace (String.length s + 1 - 1) with (String.length s) by lia.
  apply substringTo_append.
Qed.

Lemma startsWith_head (c : ascii) (s : string) :
  startsWith (String c s) (String c "") = true.
Proof. simpl. now rewrite Ascii.eqb_refl. Qed.

(** X13.  A generated prompt that comes wrapped in a pair of double or
    single quotes is unwrapped to exactly what is between them, whatever it
    is; a text that does not start with a quote is left as it is. *)
Theorem stripQuotes_unwraps :
  (forall s : string, stripQuotes (dquote +:+ s +:+ dquote) = s) /\
  (forall s : string, stripQuotes ("'" +:+ s +:+ "'") = s) /\
  (forall s : string,
     startsWith s dquote = false -> startsWith s "'" = false -> stripQuotes s = s).
Proof.
  split; [|split].
  - intros s. unfold stripQuotes, dquote. simpl String.append.
    rewrite endsWith_wrapped, startsWith_head. simpl orb. cbv iota.
    apply slice1m1_wrapped.
  - intros s. unfold stripQuotes. simpl String.append.
    rewrite endsWith_wrapped, startsWith_head, orb_true_r.
    apply slice1m1_wrapped.
  - intros s H1 H2. unfold stripQuotes. now rewrite H1, H2.
Qed.

Lemma stripQuotes_unwraps_witness :
  stripQuotes "Build a 'todo' app" = "Build a 'todo' app".
Proof.
  apply (proj2 (proj2 stripQuotes_unwraps) "Build a 'todo' app"); reflexivity.
Defined.

(** * The other prompt tools *)

Import Prompts.

(** Every way through [executeCreatePrompt] when it is given a parameter
    object. *)
Lemma executeCreatePrompt_cases (env : Env) (parameters : Params) (w : World) :
  let out := executeCreatePrompt env (Some parameters) w in
  let idea := orElse (parameters !! "app_idea") (parameters !! "project_type") in
  let w0 := whileSuspended env 0 (logUi createSpinner w) in
  (truthyOpt idea = false /\
   out = (Returned (VString createNoIdeaMessage),
          logUi HideNotification (logUi createSpinner w)))
  \/
  (truthyOpt idea = true /\
   exists why, storageRead env = ReadFails why /\ out = (Thrown why, w0))
  \/
  (truthyOpt idea = true /\ truthyOpt (geminiApiKey env) = false /\
   out = (Returned (VString noKeyMessage), logUi HideNotification w0))
  \/
  (truthyOpt idea = true /\ truthyOpt (geminiApiKey env) = true /\
   exists request,
     let w1 := whileSuspended env 1 (logRequest request w0) in
     (exists why, fetchOutcome env request = NetworkFailure why /\
        out = (Returned (VString ("Sorry, something went wrong while creating your prompt: " +:+ why)),
               logUi HideNotification w1))
     \/
     (exists (failed : bool) why,
        (if failed then exists st, fetchOutcome env request = HttpError st (ErrorUnreadable why)
         else fetchOutcome env request = HttpOk (BodyUnreadable why) \/
              fetchOutcome env request = HttpOk (CandidateWithoutText why)) /\
        out = (Returned (VString ("Sorry, something went wrong while creating your prompt: " +:+ why)),
               logUi HideNotification (whileSuspended env 2 w1)))
     \/
     (exists st message, fetchOutcome env request = HttpError st (ErrorJson message) /\
        out = (Returned (VString (geminiErrorMessage message st)), whileSuspended env 2 w1))
     \/
     (fetchOutcome env request = HttpOk NoCandidate /\
        out = (Returned (VString unexpectedMessage), whileSuspended env 2 w1))
     \/
     (exists text, fetchOutcome env request = HttpOk (CandidateText text) /\
        out = (Returned (VString createDoneMessage),
               logUi (ShowNotification "✅ Prompt created!" "success")
                 (logUi HideNotification
                    (sendCommandToBolt (stripQuotes (trim text)) false
                       (whileSuspended env 2 w1)))))).
Proof.
  unfold executeCreatePrompt, storageGet, fetch, await, tryCatch,
    showNotification, hideNotification, getBoltTextarea, read, effect,
    mbind, mret, task_bind, task_ret, throw.
  simpl.
  destruct (truthyOpt (orElse (parameters !! "app_idea") (parameters !! "project_type"))).
  2:{ left. auto. }
  right. unfold geminiApiKey. simpl. destruct (storageRead env) as [why | key].
  { left. eauto. }
  right. simpl. destruct (truthyOpt key).
  2:{ left. auto. }
  right. split; [reflexivity|]. split; [reflexivity|]. simpl.
  match goal with |- context [fetchOutcome env ?r] =>
    exists r; destruct (fetchOutcome env r) as [why | st [why | m] | [why | | why | text]] eqn:E
  end; simpl.
  - left. eauto.
  - right; left. exists true, why. eauto.
  - right; right; left. eauto.
  - right; left. exists false, why. eauto.
  - right; right; right; left. eauto.
  - right; left. exists false, why. eauto.
  - right; right; right; right. eauto.
Qed.

(** Every way through [executeUpdatePrompt] when it is given a parameter
    object. *)
Lemma executeUpdatePrompt_cases (env : Env) (parameters : Params) (w : World) :
  let out := executeUpdatePrompt env (Some parameters) w in
  let actualPrompt := match textarea w with Some value => trim value | None => "" end in
  let instructions := parameters !! "update_instructions" in
  let w0 := whileSuspended env 0 (logUi updateSpinner w) in
  (truthy actualPrompt = false /\
   out = (Returned (VString updateEmptyMessage),
          logUi HideNotification (logUi updateSpinner w)))
  \/
  (truthy actualPrompt = true /\ truthyOpt instructions = false /\
   out = (Returned (VString updateNoInstructionsMessage),
          logUi HideNotification (logUi updateSpinner w)))
  \/
  (truthy actualPrompt = true /\ truthyOpt instructions = true /\
   exists why, storageRead env = ReadFails why /\ out = (Thrown why, w0))
  \/
  (truthy actualPrompt = true /\ truthyOpt instructions = true /\
   truthyOpt (geminiApiKey env) = false /\
   out = (Returned (VString noKeyMessage), logUi HideNotification w0))
  \/
  (truthy actualPrompt = true /\ truthyOpt instructions = true /\
   truthyOpt (geminiApiKey env) = true /\
   exists request,
     let w1 := whileSuspended env 1 (logRequest request w0) in
     (exists why, fetchOutcome env request = NetworkFailure why /\
        out = (Returned (VString ("Sorry, something went wrong while updating your prompt: " +:+ why)),
               logUi HideNotification w1))
     \/
     (exists (failed : bool) why,
        (if failed then exists st, fetchOutcome env request = HttpError st (ErrorUnreadable why)
         else fetchOutcome env request = HttpOk (BodyUnreadable why) \/
              fetchOutcome env request = HttpOk (CandidateWithoutText why)) /\
        out = (Returned (VString ("Sorry, something went wrong while updating your prompt: " +:+ why)),
               logUi HideNotification (whileSuspended env 2 w1)))
     \/
     (exists st message, fetchOutcome env request = HttpError st (ErrorJson message) /\
        out = (Returned (VString (geminiErrorMessage message st)),
               logUi HideNotification (whileSuspended env 2 w1)))
     \/
     (fetchOutcome env request = HttpOk NoCandidate /\
        out = (Returned (VString unexpectedMessage),
               logUi HideNotification (whileSuspended env 2 w1)))
     \/
     (exists text, fetchOutcome env request = HttpOk (CandidateText text) /\
        out = (Returned (VString updateDoneMessage),
               logUi (ShowNotification "✅ Prompt updated!" "success")
                 (logUi HideNotification
                    (sendCommandToBolt (stripQuotes (trim text)) false
                       (whileSuspended env 2 w1)))))).
Proof.
  unfold executeUpdatePrompt, storageGet, fetch, await, tryCatch,
    showNotification, hideNotification, getBoltTextarea, read, effect,
    mbind, mret, task_bind, task_ret, throw.
  simpl.
  destruct (truthy (match textarea w with Some value => trim value | None => "" end)).
  2:{ left. auto. }
  right. simpl. destruct (truthyOpt (parameters !! "update_instructions")).
  2:{ left. auto. }
  right. unfold geminiApiKey. simpl. destruct (storageRead env) as [why | key].
  { left. eauto. }
  right. simpl. destruct (truthyOpt key).
  2:{ left. auto. }
  right. do 3 (split; [reflexivity|]). simpl.
  match goal with |- context [fetchOutcome env ?r] =>
    exists r; destruct (fetchOutcome env r) as [why | st [why | m] | [why | | why | text]] eqn:E
  end; simpl.
  - left. eauto.
  - right; left. exists true, why. eauto.
  - right; right; left. eauto.
  - right; left. exists false, why. eauto.
  - right; right; right; left. eauto.
  - right; left. exists false, why. eauto.
  - right; right; right; right. eauto.
Qed.

Lemma orElse_falsy (a b : option string) :
  truthyOpt (orElse a b) = false <-> truthyOpt a = false /\ truthyOpt b = false.
Proof.
  unfold orElse. destruct (truthyOpt a) eqn:E.
  - rewrite E. split; [discriminate | intros [? _]; discriminate].
  - tauto.
Qed.

(** X23.  [create_prompt] asks for an idea exactly when neither
    [app_idea] nor [project_type] is given (missing or empty), whatever
    the other parameters, the key and the API are; it then has made no
    request and has not even read the key: the spinner is shown and
    hidden, nothing else happens. *)
Theorem create_prompt_needs_idea (env : Env) (parameters : Params) (w : World) :
  let out := executeCreatePrompt env (Some parameters) w in
  (out.1 = Returned (VString createNoIdeaMessage) <->
   truthyOpt (parameters !! "app_idea") = false /\
   truthyOpt (parameters !! "project_type") = false) /\
  (out.1 = Returned (VString createNoIdeaMessage) ->
   out.2 = logUi HideNotification (logUi createSpinner w)).
Proof.
  intros out.
  destruct (executeCreatePrompt_cases env parameters w)
    as [(Hi & H) | [(Hi & why & _ & H) | [(Hi & Hk & H) | (Hi & Hk & request & H)]]];
    fold out in H; cbv zeta in H.
  - split; [|intros _; now rewrite H].
    split; [intros _; now apply orElse_falsy | intros _; now rewrite H].
  - assert (N : out.1 <> Returned (VString createNoIdeaMessage))
      by (rewrite H; discriminate).
    split; [|tauto]. split; [tauto|].
    intros Hf. apply orElse_falsy in Hf. congruence.
  - assert (N : out.1 <> Returned (VString createNoIdeaMessage))
      by (rewrite H; discriminate).
    split; [|tauto]. split; [tauto|].
    intros Hf. apply orElse_falsy in Hf. congruence.
  - assert (N : out.1 <> Returned (VString createNoIdeaMessage)).
    { destruct H as [(why & _ & H) | [(failed & why & _ & H) | [(st & m & _ & H)
                    | [(_ & H) | (text & _ & H)]]]]; rewrite H; simpl; discriminate. }
    split; [|tauto]. split; [tauto|].
    intros Hf. apply orElse_falsy in Hf. congruence.
Qed.

Lemma create_prompt_needs_idea_witness :
  executeCreatePrompt quietEnv (Some {[ "tech_stack" := "React"; "app_idea" := "" ]})
    (sessionStart "" (Some "")) =
  (Returned (VString createNoIdeaMessage),
   logUi HideNotification (logUi createSpinner (sessionStart "" (Some "")))).
Proof.
  pose proof (create_prompt_needs_idea quietEnv
                {[ "tech_stack" := "React"; "app_idea" := "" ]}
                (sessionStart "" (Some ""))) as [H1 H2].
  apply injective_projections.
  - apply H1. split; reflexivity.
  - apply H2, H1. split; reflexivity.
Defined.

(** X24.  [update_prompt] has two guards, tried in this order: an empty
    field (or none) is reported first, missing instructions second; the
    two answers are given in no other case, and with either of them no
    key has been read and no request made. *)
Theorem update_prompt_guards (env : Env) (parameters : Params) (w : World) :
  let out := executeUpdatePrompt env (Some parameters) w in
  let actualPrompt := match textarea w with Some value => trim value | None => "" end in
  (out.1 = Returned (VString updateEmptyMessage) <-> truthy actualPrompt = false) /\
  (out.1 = Returned (VString updateNoInstructionsMessage) <->
   truthy actualPrompt = true /\
   truthyOpt (parameters !! "update_instructions") = false) /\
  (out.1 = Returned (VString updateEmptyMessage) \/
   out.1 = Returned (VString updateNoInstructionsMessage) ->
   out.2 = logUi HideNotification (logUi updateSpinner w)).
Proof.
  intros out actualPrompt.
  destruct (executeUpdatePrompt_cases env parameters w)
    as [(Hf & H) | [(Hf & Hi & H) | [(Hf & Hi & why & _ & H)
       | [(Hf & Hi & Hk & H) | (Hf & Hi & Hk & request & H)]]]];
    fold out in H; fold actualPrompt in Hf; cbv zeta in H.
  - rewrite H. simpl. split; [tauto|]. split; [|tauto].
    split; [discriminate | intros [? _]; congruence].
  - rewrite H. simpl. split; [split; [discriminate | congruence]|].
    split; tauto.
  - rewrite H. simpl. split; [split; [discriminate | congruence]|].
    split; [split; [discriminate | intros [_ ?]; congruence]|].
    intros [?|?]; discriminate.
  - rewrite H. simpl. split; [split; [discriminate | congruence]|].
    split; [split; [discriminate | intros [_ ?]; congruence]|].
    intros [?|?]; discriminate.
  - assert (N : out.1 <> Returned (VString updateEmptyMessage) /\
                out.1 <> Returned (VString updateNoInstructionsMessage)).
    { destruct H as [(why & _ & H) | [(failed & why & _ & H) | [(st & m & _ & H)
                    | [(_ & H) | (text & _ & H)]]]]; rewrite H; simpl;
        split; discriminate. }
    destruct N as [N1 N2].
    split; [split; [tauto | congruence]|].
    split; [split; [tauto | intros [_ ?]; congruence]|].
    intros [?|?]; tauto.
Qed.

Lemma update_prompt_guards_witness :
  (executeUpdatePrompt quietEnv (Some {[ "update_instructions" := "add a login page" ]})
     (sessionStart "" (Some "   "))).1 = Returned (VString updateEmptyMessage) /\
  (executeUpdatePrompt quietEnv (Some {[ "current_prompt" := "a todo app" ]})
     (sessionStart "" (Some "a todo app"))).1 = Returned (VString updateNoInstructionsMessage).
Proof.
  split.
  - apply (update_prompt_guards quietEnv {[ "update_instructions" := "add a login page" ]}
             (sessionStart "" (Some "   "))).
    reflexivity.
  - apply (update_prompt_guards quietEnv {[ "current_prompt" := "a todo app" ]}
             (sessionStart "" (Some "a todo app"))).
    split; reflexivity.
Defined.














(** X27.  [update_prompt] calls [hideNotification] on every path on
    which it returns.  Whatever the field, the parameters, the key, the
    API and the rest of the page do, a call of [update_prompt] ends in
    one of three ways: it reports success and its last notification call
    is the one for the success message; it returns another message and
    its last notification call is [hideNotification]; or the read of the
    stored key was rejected and the call throws what the read threw.
    This is about the calls the handler makes, not about what the page
    shows afterwards. *)
Theorem update_prompt_hides_spinner (env : Env) (parameters : Params) (w : World) :
  let out := executeUpdatePrompt env (Some parameters) w in
  (out.1 = Returned (VString updateDoneMessage) /\
   lastNotificationCall (ui out.2) = Some (ShowNotification "✅ Prompt updated!" "success"))
  \/
  ((exists message, out.1 = Returned (VString message)) /\
   out.1 <> Returned (VString updateDoneMessage) /\
   lastNotificationCall (ui out.2) = Some HideNotification)
  \/
  (exists why, storageRead env = ReadFails why /\ out.1 = Thrown why).
Proof.
  intros out.
  destruct (executeUpdatePrompt_cases env parameters w)
    as [(_ & H) | [(_ & _ & H) | [(_ & _ & why & Hr & H) | [(_ & _ & _ & H)
       | (_ & _ & _ & request &
       [(why & _ & H) | [(failed & why & _ & H) | [(st & m & _ & H)
       | [(_ & H) | (text & _ & H)]]]])]]]];
    fold out in H; cbv zeta in H; rewrite H; cbn [fst snd].
  all: try (right; left; split; [eauto | split; [discriminate | reflexivity]]).
  - right; right. eauto.
  - left. split; reflexivity.
Qed.

(** X28.  When nothing else on the page edits the field or calls the
    API in the meantime, [create_prompt] and [update_prompt] make at
    most one request each, none at all without a stored key, and unless
    they report success the text field is left as it was. *)
Theorem create_update_failure_keeps_field (env : Env) (parameters : Params) (w : World) :
  undisturbed env ->
  let created := executeCreatePrompt env (Some parameters) w in
  let updated := executeUpdatePrompt env (Some parameters) w in
  (length (requests created.2) <= S (length (requests w)) /\
   length (requests updated.2) <= S (length (requests w))) /\
  (truthyOpt (geminiApiKey env) = false ->
   requests created.2 = requests w /\ requests updated.2 = requests w) /\
  (created.1 <> Returned (VString createDoneMessage) -> textarea created.2 = textarea w) /\
  (updated.1 <> Returned (VString updateDoneMessage) -> textarea updated.2 = textarea w).
Proof.
  intros Hq created updated.
  assert (C : (length (requests created.2) <= S (length (requests w)) /\
               (truthyOpt (geminiApiKey env) = false -> requests created.2 = requests w)) /\
              (created.1 <> Returned (VString createDoneMessage) ->
               textarea created.2 = textarea w)).
  { destruct (executeCreatePrompt_cases env parameters w)
      as [(_ & H) | [(_ & why & _ & H) | [(_ & _ & H) | (_ & Hk & request & [(why & _ & H)
         | [(failed & why & _ & H) | [(st & m & _ & H) | [(_ & H) | (text & _ & H)]]]])]]];
      fold created in H; cbv zeta in H; rewrite H; cbn [fst snd]; simpl;
      rewrite ?undisturbed_requests, ?undisturbed_field by assumption; simpl;
      rewrite ?undisturbed_requests, ?undisturbed_field by assumption; simpl.
    all: try (split; [split; [lia | congruence] | reflexivity]).
    split; [|congruence]. split; [|congruence].
    rewrite (proj2 (proj2 (proj2 (proj2 (proj2 (sendCommandToBolt_frame _ _ _)))))).
    rewrite !undisturbed_requests by assumption; simpl.
    rewrite !undisturbed_requests by assumption; simpl. lia. }
  assert (U : (length (requests updated.2) <= S (length (requests w)) /\
               (truthyOpt (geminiApiKey env) = false -> requests updated.2 = requests w)) /\
              (updated.1 <> Returned (VString updateDoneMessage) ->
               textarea updated.2 = textarea w)).
  { destruct (executeUpdatePrompt_cases env parameters w)
      as [(_ & H) | [(_ & _ & H) | [(_ & _ & why & _ & H) | [(_ & _ & _ & H)
         | (_ & _ & Hk & request &
         [(why & _ & H) | [(failed & why & _ & H) | [(st & m & _ & H)
         | [(_ & H) | (text & _ & H)]]]])]]]];
      fold updated in H; cbv zeta in H; rewrite H; cbn [fst snd]; simpl;
      rewrite ?undisturbed_requests, ?undisturbed_field by assumption; simpl;
      rewrite ?undisturbed_requests, ?undisturbed_field by assumption; simpl.
    all: try (split; [split; [lia | congruence] | reflexivity]).
    split; [|congruence]. split; [|congruence].
    rewrite (proj2 (proj2 (proj2 (proj2 (proj2 (sendCommandToBolt_frame _ _ _)))))).
    rewrite !undisturbed_requests by assumption; simpl.
    rewrite !undisturbed_requests by assumption; simpl. lia. }
  tauto.
Qed.

Lemma create_update_failure_keeps_field_witness :
  let w := sessionStart "" (Some "a todo app") in
  textarea (executeCreatePrompt quietEnv (Some {[ "app_idea" := "a blog" ]}) w).2
  = Some "a todo app" /\
  textarea (executeUpdatePrompt quietEnv (Some {[ "update_instructions" := "add tags" ]}) w).2
  = Some "a todo app".
Proof.
  intros w.
  destruct (create_update_failure_keeps_field quietEnv {[ "app_idea" := "a blog" ]} w
              quietEnv_undisturbed) as (_ & _ & H & _).
  destruct (create_update_failure_keeps_field quietEnv
              {[ "update_instructions" := "add tags" ]} w
              quietEnv_undisturbed) as (_ & _ & _ & H').
  split; [apply H | apply H']; discriminate.
Defined.

(** * The background script: connections and the microphone audio *)

Import Service.

Section ServiceFacts.

Variable maxArguments : nat.

#[local] Abbreviation step := (Service.step maxArguments).
#[local] Abbreviation run := (Service.run maxArguments).
#[local] Abbreviation sendAudioChunk := (Service.sendAudioChunk maxArguments).

Lemma run_chunks_cons audio chunks s :
  run (AUDIO_CHUNK <$> (audio :: chunks)) s = run (AUDIO_CHUNK <$> chunks) (sendAudioChunk audio s).
Proof. reflexivity. Qed.

Lemma agent_chunks_sent chunks : forall s socket,
  currentMode s = Some "agent" -> websocket s = Some socket ->
  isOpen s socket = true ->
  Forall (fun audio => length audio <= maxArguments) chunks ->
  sent (run (AUDIO_CHUNK <$> chunks) s) = (sent s ++ (UserAudioChunk socket <$> chunks))%list.
Proof.
  induction chunks as [|audio chunks IH]; intros s socket Hm Hw Ho Hl.
  - simpl. now rewrite app_nil_r.
  - apply Forall_cons in Hl as [Hl1 Hl2]. rewrite run_chunks_cons.
    assert (E : sendAudioChunk audio s = send (UserAudioChunk socket audio) s).
    { unfold Service.sendAudioChunk. rewrite Hm, Hw, Ho. simpl.
      destruct (Nat.ltb_spec maxArguments (length audio)); [lia | reflexivity]. }
    rewrite E, (IH _ socket); auto. simpl. now rewrite <- app_assoc.
Qed.

Lemma scribe_chunks_sent chunks : forall s connection,
  currentMode s = Some "transcription" -> scribeConnection s = Some connection ->
  isScribeConnected s = true ->
  Forall (fun audio => length audio <= maxArguments) chunks ->
  sent (run (AUDIO_CHUNK <$> chunks) s) = (sent s ++ (ScribeAudio connection <$> chunks))%list.
Proof.
  induction chunks as [|audio chunks IH]; intros s connection Hm Hc Ho Hl.
  - simpl. now rewrite app_nil_r.
  - apply Forall_cons in Hl as [Hl1 Hl2]. rewrite run_chunks_cons.
    assert (E : sendAudioChunk audio s = send (ScribeAudio connection audio) s).
    { unfold Service.sendAudioChunk. rewrite Hm, Hc, Ho. simpl.
      destruct (Nat.ltb_spec maxArguments (length audio)); [lia | reflexivity]. }
    rewrite E, (IH _ connection); auto. simpl. now rewrite <- app_assoc.
Qed.

Lemma chunks_dropped chunks : forall s,
  (currentMode s = Some "agent" /\ websocket s = None) \/
  (currentMode s = Some "transcription" /\ isScribeConnected s = false) \/
  currentMode s = None ->
  run (AUDIO_CHUNK <$> chunks) s = s.
Proof.
  induction chunks as [|audio chunks IH]; intros s H; [reflexivity|].
  rewrite run_chunks_cons.
  assert (E : sendAudioChunk audio s = s).
  { unfold Service.sendAudioChunk.
    destruct H as [[Hm Hw] | [[Hm Hc] | Hm]]; rewrite Hm; simpl; [now rewrite Hw | now rewrite Hc | reflexivity]. }
  rewrite E. now apply IH.
Qed.

Lemma step_quiet s e :
  isInit e = false -> currentMode s = None ->
  currentMode (step s e) = None /\ sent (step s e) = sent s.
Proof.
  intros He Hm. destruct e; simpl in *; try discriminate He; auto.
  - unfold Service.sendAudioChunk. rewrite Hm. auto.
  - unfold disconnect. simpl. split; [reflexivity|].
    destruct (websocket s) as [socket|]; [destruct (isOpen s socket)|]; simpl;
      destruct (scribeConnection _); simpl; try destruct (isScribeConnected _); reflexivity.
Qed.

Lemma run_quiet events : forall s,
  Forall (fun e => isInit e = false) events -> currentMode s = None ->
  sent (run events s) = sent s.
Proof.
  induction events as [|e events IH]; intros s He Hm; [reflexivity|].
  apply Forall_cons in He as [He1 He2]. simpl.
  destruct (step_quiet s e He1 Hm) as [Hm' Hs'].
  change (fold_left (Service.step maxArguments) events ?x) with (run events x).
  rewrite IH; auto.
Qed.

Lemma disconnect_quiet s : currentMode (disconnect s) = None /\ sent (disconnect s) = sent s.
Proof.
  unfold disconnect. simpl. split; [reflexivity|].
  destruct (websocket s) as [socket|]; [destruct (isOpen s socket)|]; simpl;
    destruct (scribeConnection _); simpl; try destruct (isScribeConnected _); reflexivity.
Qed.

End ServiceFacts.

(** X29.  The close handlers do not look at which connection has closed.
    While microphone audio is flowing to the current agent socket (or
    Scribe connection), the close event of any socket (or connection),
    an earlier one included, cuts the flow: every following chunk is
    dropped, although the current one is still open. *)
Theorem stale_close_stops_audio (maxArguments : nat) (s : Worker)
    (closed current : nat) (chunks : list (list Z)) :
  Forall (fun audio => length audio <= maxArguments) chunks ->
  (currentMode s = Some "agent" -> websocket s = Some current ->
   isOpen s current = true ->
   sent (run maxArguments (AUDIO_CHUNK <$> chunks) s)
   = (sent s ++ (UserAudioChunk current <$> chunks))%list /\
   sent (run maxArguments (SocketClosed closed :: (AUDIO_CHUNK <$> chunks)) s) = sent s)
  /\
  (currentMode s = Some "transcription" -> scribeConnection s = Some current ->
   isScribeConnected s = true ->
   sent (run maxArguments (AUDIO_CHUNK <$> chunks) s)
   = (sent s ++ (ScribeAudio current <$> chunks))%list /\
   sent (run maxArguments (ScribeClosed closed :: (AUDIO_CHUNK <$> chunks)) s) = sent s).
Proof.
  intros Hl. split; intros Hm Hc Ho; split.
  - now apply agent_chunks_sent.
  - change (run maxArguments (SocketClosed closed :: (AUDIO_CHUNK <$> chunks)) s)
      with (run maxArguments (AUDIO_CHUNK <$> chunks) (onclose closed s)).
    rewrite chunks_dropped; [reflexivity|]. left. simpl. auto.
  - now apply scribe_chunks_sent.
  - change (run maxArguments (ScribeClosed closed :: (AUDIO_CHUNK <$> chunks)) s)
      with (run maxArguments (AUDIO_CHUNK <$> chunks) (scribeClosed closed s)).
    rewrite chunks_dropped; [reflexivity|]. right; left. simpl. auto.
Qed.

Lemma stale_close_stops_audio_witness :
  let s := run 1000
             [INIT_WEBSOCKET None "transcription"; ScribeCreated 1; ScribeOpened 1;
              DISCONNECT;
              INIT_WEBSOCKET None "transcription"; ScribeCreated 2; ScribeOpened 2]
             newWorker in
  sent (run 1000 (AUDIO_CHUNK <$> [[0; 1]; [2; 3]]%Z) s)
  = [ScribeAudio 2 [0; 1]%Z; ScribeAudio 2 [2; 3]%Z] /\
  sent (run 1000 (ScribeClosed 1 :: (AUDIO_CHUNK <$> [[0; 1]; [2; 3]]%Z)) s) = [].
Proof.
  intros s.
  apply (stale_close_stops_audio 1000 s 1 2 [[0; 1]; [2; 3]]%Z).
  - repeat constructor; simpl; lia.
  - reflexivity.
  - reflexivity.
  - reflexivity.
Defined.

(** X30.  After [DISCONNECT] no microphone audio leaves the background
    script until the next [INIT_WEBSOCKET], whatever chunks arrive and
    whatever the connections do in the meantime (a socket whose signed
    URL was still on its way may even be created and open). *)
Theorem quiet_after_disconnect (maxArguments : nat) (s : Worker) (events : list Event) :
  Forall (fun e => isInit e = false) events ->
  sent (run maxArguments (DISCONNECT :: events) s) = sent s.
Proof.
  intros He.
  change (run maxArguments (DISCONNECT :: events) s)
    with (run maxArguments events (disconnect s)).
  destruct (disconnect_quiet s) as [Hm Hs].
  rewrite run_quiet; auto.
Qed.

Lemma quiet_after_disconnect_witness :
  let s := run 1000 [INIT_WEBSOCKET (Some "agent_1") "agent"; SocketCreated 1;
                      SocketOpened 1; AUDIO_CHUNK [0; 1]%Z] newWorker in
  sent (run 1000 [DISCONNECT; AUDIO_CHUNK [2; 3]%Z; SocketCreated 2; SocketOpened 2;
                   AUDIO_CHUNK [4; 5]%Z; SocketClosed 1] s)
  = [UserAudioChunk 1 [0; 1]%Z].
Proof.
  intros s.
  apply (quiet_after_disconnect 1000 s
           [AUDIO_CHUNK [2; 3]%Z; SocketCreated 2; SocketOpened 2;
            AUDIO_CHUNK [4; 5]%Z; SocketClosed 1]).
  repeat constructor.
Defined.

(** * Capture of the microphone *)

Import Microphone.

Lemma Qle_bool_1 q : Qle_bool q 1 = (Qnum q <=? Zpos (Qden q))%Z.
Proof. unfold Qle_bool. simpl. now rewrite Z.mul_1_r. Qed.

Lemma Qle_bool_m1 q : Qle_bool (-1) q = (- Zpos (Qden q) <=? Qnum q)%Z.
Proof. unfold Qle_bool. simpl. now rewrite Z.mul_1_r. Qed.

Lemma Qle_bool_0 q : Qle_bool 0 q = (0 <=? Qnum q)%Z.
Proof. unfold Qle_bool. simpl. now rewrite Z.mul_1_r. Qed.

Lemma truncate_times q k :
  truncate (q * inject_Z k) = Z.quot (Qnum q * k) (Zpos (Qden q)).
Proof. unfold truncate. simpl. now rewrite Pos.mul_1_r. Qed.

Lemma floatTo16BitPCM_finite q :
  let n := Qnum q in
  let d := Zpos (Qden q) in
  floatTo16BitPCM (Finite q) =
  if (d <? n)%Z then 32767%Z
  else if (n <? - d)%Z then (-32768)%Z
  else if (n <? 0)%Z then Z.quot (n * 32768) d
  else Z.quot (n * 32767) d.
Proof.
  intros n d. unfold floatTo16BitPCM, min1. rewrite Qle_bool_1. fold n d.
  destruct (Z.ltb_spec d n) as [H1|H1].
  - rewrite (proj2 (Z.leb_gt _ _)) by lia. reflexivity.
  - rewrite (proj2 (Z.leb_le _ _)) by lia. unfold maxMinus1. rewrite Qle_bool_m1. fold n d.
    destruct (Z.ltb_spec n (- d)) as [H2|H2].
    + rewrite (proj2 (Z.leb_gt _ _)) by lia. reflexivity.
    + rewrite (proj2 (Z.leb_le _ _)) by lia. unfold negative. rewrite Qle_bool_0. fold n.
      destruct (Z.ltb_spec n 0) as [H3|H3].
      * rewrite (proj2 (Z.leb_gt _ _)) by lia. simpl negb. cbv iota.
        unfold times, toInt16. rewrite truncate_times. fold n d.
        assert (B : (-32768 <= Z.quot (n * 32768) d <= 0)%Z).
        { rewrite <- (Z.opp_involutive (n * 32768)), Z.quot_opp_l by lia.
          rewrite Z.quot_div_nonneg by lia.
          assert (0 <= (- (n * 32768)) / d <= 32768)%Z; [|lia].
          split; [apply Z.div_pos; lia|].
          apply Z.div_le_upper_bound; lia. }
        rewrite Z.mod_small by lia. lia.
      * rewrite (proj2 (Z.leb_le _ _)) by lia. simpl negb. cbv iota.
        unfold times, toInt16. rewrite truncate_times. fold n d.
        assert (B : (0 <= Z.quot (n * 32767) d <= 32767)%Z).
        { rewrite Z.quot_div_nonneg by lia.
          split; [apply Z.div_pos; lia|].
          apply Z.div_le_upper_bound; lia. }
        rewrite Z.mod_small by lia. lia.
Qed.

Lemma div_le_cross a1 d1 a2 d2 :
  (0 < d1 -> 0 < d2 -> a1 * d2 <= a2 * d1 -> a1 / d1 <= a2 / d2)%Z.
Proof.
  intros H1 H2 H. apply Z.div_le_lower_bound; [lia|].
  pose proof (Z.mul_div_le a1 d1 H1). nia.
Qed.

Lemma quot_negative n d k :
  (n <= 0 -> 0 < d -> 0 < k -> Z.quot (n * k) d = - ((- n * k) / d))%Z.
Proof.
  intros Hn Hd Hk.
  rewrite <- (Z.opp_involutive (n * k)), Z.quot_opp_l by lia.
  rewrite Z.quot_div_nonneg by nia. f_equal. f_equal. lia.
Qed.

Lemma floatTo16BitPCM_monotone q r :
  Qle q r -> (floatTo16BitPCM (Finite q) <= floatTo16BitPCM (Finite r))%Z.
Proof.
  unfold Qle. intros H. rewrite !floatTo16BitPCM_finite. cbv zeta.
  set (n1 := Qnum q) in *. set (d1 := Zpos (Qden q)) in *.
  set (n2 := Qnum r) in *. set (d2 := Zpos (Qden r)) in *.
  assert (P1 : (0 < d1)%Z) by (unfold d1; lia).
  assert (P2 : (0 < d2)%Z) by (unfold d2; lia).
  assert (N : forall n d, (0 < d -> - d <= n -> n < 0 ->
                           -32768 <= Z.quot (n * 32768) d <= 0)%Z).
  { intros n d Hd Hn Hn'. rewrite quot_negative by lia.
    assert (0 <= (- n * 32768) / d <= 32768)%Z; [|lia].
    split; [apply Z.div_pos; lia | apply Z.div_le_upper_bound; lia]. }
  assert (P : forall n d, (0 < d -> 0 <= n -> n <= d ->
                           0 <= Z.quot (n * 32767) d <= 32767)%Z).
  { intros n d Hd Hn Hn'. rewrite Z.quot_div_nonneg by lia.
    split; [apply Z.div_pos; lia | apply Z.div_le_upper_bound; lia]. }
  destruct (Z.ltb_spec d1 n1) as [A1|A1].
  { destruct (Z.ltb_spec d2 n2) as [A2|A2]; [lia | nia]. }
  destruct (Z.ltb_spec n1 (- d1)) as [B1|B1].
  { destruct (Z.ltb_spec d2 n2); [lia|].
    destruct (Z.ltb_spec n2 (- d2)); [lia|].
    destruct (Z.ltb_spec n2 0).
    - pose proof (N n2 d2). lia.
    - pose proof (P n2 d2). lia. }
  destruct (Z.ltb_spec n1 0) as [C1|C1].
  - destruct (Z.ltb_spec d2 n2); [pose proof (N n1 d1); lia|].
    destruct (Z.ltb_spec n2 (- d2)); [nia|].
    destruct (Z.ltb_spec n2 0).
    + rewrite !quot_negative by lia.
      assert ((- n2 * 32768) / d2 <= (- n1 * 32768) / d1)%Z; [|lia].
      apply div_le_cross; nia.
    + pose proof (N n1 d1). pose proof (P n2 d2). lia.
  - destruct (Z.ltb_spec d2 n2); [pose proof (P n1 d1); lia|].
    destruct (Z.ltb_spec n2 (- d2)); [nia|].
    destruct (Z.ltb_spec n2 0); [nia|].
    rewrite !Z.quot_div_nonneg by lia.
    apply div_le_cross; nia.
Qed.

(** The model agrees with the arithmetic on doubles: on a grid of 4001
    values of a [Float32Array] from -2 to 2 the two conversions give
    the same integer. *)
Example floatTo16BitPCM_double :
  forallb (fun i => let k := (Z.of_nat i * 8389 - 16777216)%Z in
                    (floatTo16BitPCMDouble (doubleOfGrid k)
                     =? floatTo16BitPCM (sampleOfGrid k))%Z)
          (seq 0 4001) = true.
Proof. vm_compute. reflexivity. Qed.

(** X10.  The conversion of the microphone samples to 16-bit PCM never
    leaves the 16-bit range, so the store into the [Int16Array] never
    wraps around: a sample between -1 and 1 becomes its product with
    32768 (below zero) or 32767, cut towards zero.  The conversion is
    monotone; everything from 1 upwards becomes 32767 and everything
    from -1 downwards -32768, the infinities included; not-a-number
    becomes silence. *)
Theorem pcm_conversion :
  (forall q : Q, Qle (-1) q -> Qle q 1 ->
     floatTo16BitPCM (Finite q)
     = truncate (q * inject_Z (if Qle_bool 0 q then 32767 else 32768))) /\
  (forall q r : Q, Qle q r ->
     (floatTo16BitPCM (Finite q) <= floatTo16BitPCM (Finite r))%Z) /\
  (forall q : Q, Qle 1 q -> floatTo16BitPCM (Finite q) = 32767%Z) /\
  (forall q : Q, Qle q (-1) -> floatTo16BitPCM (Finite q) = (-32768)%Z) /\
  floatTo16BitPCM NaN = 0%Z /\
  floatTo16BitPCM (Infinity false) = 32767%Z /\
  floatTo16BitPCM (Infinity true) = (-32768)%Z.
Proof.
  split; [|split; [|split; [|split; [|auto]]]].
  - intros q Hl Hu. unfold Qle in Hl, Hu. simpl in Hl, Hu.
    rewrite floatTo16BitPCM_finite, Qle_bool_0, truncate_times. cbv zeta.
    rewrite (proj2 (Z.ltb_ge _ _)) by lia.
    rewrite (proj2 (Z.ltb_ge _ _)) by lia.
    destruct (Z.ltb_spec (Qnum q) 0).
    + now rewrite (proj2 (Z.leb_gt _ _)) by lia.
    + now rewrite (proj2 (Z.leb_le _ _)) by lia.
  - exact floatTo16BitPCM_monotone.
  - intros q H. unfold Qle in H. simpl in H.
    rewrite floatTo16BitPCM_finite. cbv zeta.
    destruct (Z.ltb_spec (Zpos (Qden q)) (Qnum q)); [reflexivity|].
    rewrite (proj2 (Z.ltb_ge _ _)) by lia.
    rewrite (proj2 (Z.ltb_ge _ _)) by lia.
    replace (Qnum q) with (Zpos (Qden q)) by lia.
    rewrite Z.mul_comm, Z.quot_mul by lia. reflexivity.
  - intros q H. unfold Qle in H. simpl in H.
    rewrite floatTo16BitPCM_finite. cbv zeta.
    rewrite (proj2 (Z.ltb_ge _ _)) by lia.
    destruct (Z.ltb_spec (Qnum q) (- Zpos (Qden q))); [reflexivity|].
    rewrite (proj2 (Z.ltb_lt _ _)) by lia.
    replace (Qnum q) with (- Zpos (Qden q))%Z by lia.
    rewrite Z.mul_opp_l, Z.quot_opp_l, Z.mul_comm, Z.quot_mul by lia. reflexivity.
Qed.

Lemma pcm_conversion_witness :
  floatTo16BitPCM (Finite (1 # 2)) = 16383%Z /\
  floatTo16BitPCM (Finite (- 1 # 2)) = (-16384)%Z /\
  (floatTo16BitPCM (Finite (- 1 # 2)) <= floatTo16BitPCM (Finite (1 # 2)))%Z /\
  floatTo16BitPCM (Finite (3 # 2)) = 32767%Z /\
  floatTo16BitPCM (Finite (- 3 # 2)) = (-32768)%Z.
Proof.
  destruct pcm_conversion as (H1 & H2 & H3 & H4 & _).
  split; [|split; [|split; [|split]]].
  - rewrite (H1 (1 # 2)); [reflexivity | unfold Qle; simpl; lia | unfold Qle; simpl; lia].
  - rewrite (H1 (- 1 # 2)); [reflexivity | unfold Qle; simpl; lia | unfold Qle; simpl; lia].
  - apply (H2 (- 1 # 2) (1 # 2)). unfold Qle; simpl; lia.
  - apply (H3 (3 # 2)). unfold Qle; simpl; lia.
  - apply (H4 (- 3 # 2)). unfold Qle; simpl; lia.
Defined.

(** * Playback of the agent's audio *)

Import Playback.

(** ** The hash of a chunk *)

Lemma decimal_inj n m : decimal n = decimal m -> n = m.
Proof.
  unfold decimal. intros H.
  apply Unsigned.to_uint_inj.
  pose proof (NilEmpty.usu (Nat.to_uint n)) as Hn.
  pose proof (NilEmpty.usu (Nat.to_uint m)) as Hm.
  rewrite H in Hn. congruence.
Qed.

Lemma decimal_nonempty n : decimal n <> "".
Proof.
  intros H. assert (E : decimal n = decimal 0 -> False).
  { intros E. apply decimal_inj in E. subst n. discriminate H. }
  unfold decimal in H.
  pose proof (NilEmpty.usu (Nat.to_uint n)) as Hn. rewrite H in Hn. simpl in Hn.
  injection Hn as Hn.
  pose proof (Unsigned.of_to n) as Hof. rewrite <- Hn in Hof. simpl in Hof.
  subst n. discriminate Hn.
Qed.

Ltac decimal_digit :=
  first [ exists 0; split; [lia|reflexivity] | exists 1; split; [lia|reflexivity]
        | exists 2; split; [lia|reflexivity] | exists 3; split; [lia|reflexivity]
        | exists 4; split; [lia|reflexivity] | exists 5; split; [lia|reflexivity]
        | exists 6; split; [lia|reflexivity] | exists 7; split; [lia|reflexivity]
        | exists 8; split; [lia|reflexivity] | exists 9; split; [lia|reflexivity] ].

Ltac decimal_case H x t :=
  vm_compute in H; injection H as _ H;
  destruct x as [|? [|? ?]]; simpl in H; try discriminate H;
  injection H as <- H; destruct t; try discriminate H;
  (split; [lia | decimal_digit]).

Lemma decimal_short n x t :
  n < 50 -> decimal n = x +:+ t -> x <> "" -> t <> "" ->
  10 <= n /\ exists k, k < 10 /\ t = decimal k.
Proof.
  intros Hn H Hx Ht.
  destruct x as [|c1 x]; [congruence|].
  destruct t as [|c2 t]; [congruence|].
  do 50 (destruct n as [|n]; [solve [decimal_case H x t] | ]).
  lia.
Qed.

Lemma append_inj_length a b c d :
  String.length a = String.length b -> a +:+ c = b +:+ d -> a = b /\ c = d.
Proof.
  revert b; induction a as [|x a IH]; intros [|y b] Hl H; simpl in *;
    try discriminate Hl; [auto|].
  injection H as -> H. destruct (IH b) as [-> ->]; auto.
Qed.

Lemma append_split a b c d :
  a +:+ c = b +:+ d -> String.length a < String.length b ->
  exists x, x <> "" /\ b = a +:+ x /\ c = x +:+ d.
Proof.
  revert b; induction a as [|x a IH]; intros [|y b] H Hl; simpl in *; try lia.
  - exists (String y b). split; [discriminate|]. auto.
  - injection H as -> H. destruct (IH b H) as (z & Hz & -> & ->); [lia|].
    exists z. auto.
Qed.

Lemma audioHashOf_some a :
  a <> "" ->
  audioHashOf a = Some (substringTo a 50 +:+ decimal (String.length a)).
Proof. destruct a; [congruence | reflexivity]. Qed.

Lemma hash_prefix_length a b :
  substringTo a 50 +:+ decimal (String.length a) =
  substringTo b 50 +:+ decimal (String.length b) ->
  String.length (substringTo a 50) < String.length (substringTo b 50) -> False.
Proof.
  intros H Hl.
  destruct (append_split _ _ _ _ H Hl) as (x & Hx & Hb & Hd).
  rewrite !substringTo_length in Hl.
  assert (Ha : String.length a < 50) by lia.
  destruct (decimal_short _ _ _ Ha Hd Hx (decimal_nonempty _)) as [H10 (k & Hk & E)].
  apply decimal_inj in E. lia.
Qed.

Lemma audioHashOf_eq_iff a b :
  a <> "" -> b <> "" ->
  (audioHashOf a = audioHashOf b <->
   String.length a = String.length b /\ substringTo a 50 = substringTo b 50).
Proof.
  intros Ha Hb. rewrite !audioHashOf_some by assumption. split.
  - intros H. injection H as H.
    destruct (Nat.lt_trichotomy (String.length (substringTo a 50))
                                (String.length (substringTo b 50))) as [L|[L|L]].
    + destruct (hash_prefix_length a b H L).
    + destruct (append_inj_length _ _ _ _ L H) as [E1 E2].
      apply decimal_inj in E2. auto.
    + destruct (hash_prefix_length b a (eq_sym H) L).
  - intros [-> ->]. reflexivity.
Qed.

(** ** The set of remembered hashes, the flags and the queue *)

Section PlaybackFacts.

Variable atob : string -> option string.

Lemma playNextAudio_processed p :
  processedAudioEvents (playNextAudio p) = processedAudioEvents p.
Proof. unfold playNextAudio. destruct (audioQueue p); reflexivity. Qed.

Lemma handleAgentAudio_processed a i f p :
  processedAudioEvents (handleAgentAudio atob a i f p) =
  match audioHashOf a with
  | Some h => if has h (processedAudioEvents p) then processedAudioEvents p
              else capped (processedAudioEvents p ++ [h])%list
  | None => processedAudioEvents p
  end.
Proof.
  unfold handleAgentAudio.
  destruct (audioHashOf a) as [h|].
  - destruct (has h (processedAudioEvents p)) eqn:E; [reflexivity|].
    assert (M : processedAudioEvents (markProcessed h p) =
                capped (processedAudioEvents p ++ [h])%list).
    { unfold markProcessed, add. rewrite E. reflexivity. }
    destruct (atob a); [|exact M].
    cbv zeta. case_match; [exact M|]. rewrite playNextAudio_processed. exact M.
  - destruct (atob a); [|reflexivity].
    cbv zeta. case_match; [reflexivity|]. now rewrite playNextAudio_processed.
Qed.

Lemma step_processed p e :
  processedAudioEvents (step atob p e) =
  match hashOf e with
  | Some h => if has h (processedAudioEvents p) then processedAudioEvents p
              else capped (processedAudioEvents p ++ [h])%list
  | None => processedAudioEvents p
  end.
Proof.
  destruct e as [a i f| |]; simpl.
  - apply handleAgentAudio_processed.
  - unfold audioFinished. now rewrite playNextAudio_processed.
  - reflexivity.
Qed.

Lemma has_true h l : has h l = true <-> h ∈ l.
Proof. unfold has. apply bool_decide_eq_true. Qed.

Lemma has_false h l : has h l = false <-> h ∉ l.
Proof. unfold has. apply bool_decide_eq_false. Qed.

Lemma capped_bounded (l : list string) h :
  length l <= 100 -> NoDup l -> h ∉ l ->
  length (capped (l ++ [h])%list) <= 100 /\ NoDup (capped (l ++ [h])%list).
Proof.
  intros Hl Hd Hh.
  assert (D : NoDup (l ++ [h])%list).
  { apply NoDup_app. split; [exact Hd|]. split; [|apply NoDup_singleton].
    intros x Hx Hx'. apply list_elem_of_singleton in Hx'. now subst. }
  unfold capped, deleteFirst. rewrite length_app. simpl.
  destruct (Nat.ltb_spec 100 (length l + 1)).
  - destruct l as [|x l]; simpl in *; [lia|].
    rewrite length_app. simpl. split; [lia|]. now apply NoDup_cons_1_2 in D.
  - split; [rewrite length_app; simpl; lia | exact D].
Qed.

Lemma step_bounded p e :
  length (processedAudioEvents p) <= 100 /\ NoDup (processedAudioEvents p) ->
  length (processedAudioEvents (step atob p e)) <= 100 /\
  NoDup (processedAudioEvents (step atob p e)).
Proof.
  intros [Hl Hd]. rewrite step_processed.
  destruct (hashOf e) as [h|]; [|auto].
  destruct (has h (processedAudioEvents p)) eqn:E; [auto|].
  apply capped_bounded; auto. now apply has_false.
Qed.

Lemma run_bounded events p :
  length (processedAudioEvents p) <= 100 /\ NoDup (processedAudioEvents p) ->
  length (processedAudioEvents (run atob events p)) <= 100 /\
  NoDup (processedAudioEvents (run atob events p)).
Proof.
  revert p; induction events as [|e events IH]; intros p H; [exact H|].
  simpl. apply IH, step_bounded, H.
Qed.

Lemma lastN_short {A} n (l : list A) : length l <= n -> lastN n l = l.
Proof. intros H. unfold lastN. replace (length l - n) with 0 by lia. reflexivity. Qed.

Lemma capped_lastN (l : list string) h :
  capped (lastN 100 l ++ [h])%list = lastN 100 (l ++ [h])%list.
Proof.
  unfold capped, lastN, deleteFirst.
  rewrite !length_app, length_drop. simpl.
  destruct (Nat.ltb_spec 100 (length l - (length l - 100) + 1)) as [H|H].
  - replace (length l + 1 - 100) with (S (length l - 100)) by lia.
    rewrite drop_app_le by lia.
    destruct (lookup_lt_is_Some_2 l (length l - 100)) as [x Hx]; [lia|].
    rewrite (drop_S _ _ _ Hx). reflexivity.
  - replace (length l + 1 - 100) with 0 by lia.
    replace (length l - 100) with 0 by lia. reflexivity.
Qed.

Lemma run_window events : forall p l,
  processedAudioEvents p = lastN 100 l ->
  NoDup (l ++ omap hashOf events)%list ->
  processedAudioEvents (run atob events p) = lastN 100 (l ++ omap hashOf events)%list.
Proof.
  induction events as [|e events IH]; intros p l Hp Hd; simpl.
  - now rewrite app_nil_r.
  - pose proof (step_processed p e) as Hs. simpl in Hd.
    destruct (hashOf e) as [h|] eqn:Eh.
    + assert (Hn : h ∉ l).
      { apply NoDup_app in Hd as (_ & Hd & _). intros Hin. apply (Hd h Hin). left. }
      assert (Hf : has h (processedAudioEvents p) = false).
      { apply has_false. rewrite Hp. unfold lastN. intros Hin.
        apply Hn. eapply elem_of_sublist; [exact Hin | apply sublist_drop]. }
      rewrite Hf, Hp, capped_lastN in Hs.
      rewrite (IH _ (l ++ [h])%list Hs); rewrite <- app_assoc; [reflexivity|exact Hd].
    + apply IH; [congruence | exact Hd].
Qed.

Lemma lastN_app_long {A} n (l r : list A) :
  n <= length r -> lastN n (l ++ r)%list = lastN n r.
Proof.
  intros H. unfold lastN. rewrite length_app.
  replace (length l + length r - n) with (length l + (length r - n)) by lia.
  now rewrite drop_app_add.
Qed.


Lemma playNextAudio_flags p :
  isPlayingAudio (playNextAudio p) = isAgentSpeaking (playNextAudio p) /\
  (audioQueue (playNextAudio p) <> [] -> isAgentSpeaking (playNextAudio p) = true).
Proof.
  unfold playNextAudio. destruct (audioQueue p) eqn:E; simpl; [|auto].
  split; [reflexivity|]. rewrite E. congruence.
Qed.

Lemma step_flags p e :
  isPlayingAudio p = isAgentSpeaking p /\
  (audioQueue p <> [] -> isAgentSpeaking p = true) ->
  isPlayingAudio (step atob p e) = isAgentSpeaking (step atob p e) /\
  (audioQueue (step atob p e) <> [] -> isAgentSpeaking (step atob p e) = true).
Proof.
  intros [H1 H2]. destruct e as [a i f| |]; simpl.
  - unfold handleAgentAudio.
    destruct (match audioHashOf a with Some h => has h (processedAudioEvents p) | None => false end);
      [auto|].
    set (p1 := match audioHashOf a with Some h => markProcessed h p | None => p end).
    assert (F : isPlayingAudio p1 = isPlayingAudio p /\ isAgentSpeaking p1 = isAgentSpeaking p /\
                audioQueue p1 = audioQueue p).
    { unfold p1. destruct (audioHashOf a); auto. }
    destruct F as (F1 & F2 & F3).
    destruct (atob a) as [bin|]; [|rewrite F1, F2, F3; auto].
    cbv zeta. case_match eqn:E; [|apply playNextAudio_flags].
    simpl in *. rewrite F1, F2. split; [exact H1|]. intros _. congruence.
  - apply playNextAudio_flags.
  - split; [reflexivity|]. intros H. now destruct H.
Qed.

Lemma run_flags events p :
  isPlayingAudio p = isAgentSpeaking p /\
  (audioQueue p <> [] -> isAgentSpeaking p = true) ->
  isPlayingAudio (run atob events p) = isAgentSpeaking (run atob events p) /\
  (audioQueue (run atob events p) <> [] -> isAgentSpeaking (run atob events p) = true).
Proof.
  revert p; induction events as [|e events IH]; intros p H; [exact H|].
  simpl. apply IH, step_flags, H.
Qed.

Lemma playNextAudio_scheduled p : scheduled (playNextAudio p) = scheduled p.
Proof.
  unfold playNextAudio, scheduled. destruct (audioQueue p) as [|item rest] eqn:E; simpl;
    [now rewrite E|]. now rewrite <- app_assoc.
Qed.

Lemma step_scheduled p e :
  isStop e = false ->
  (forall h, hashOf e = Some h -> has h (processedAudioEvents p) = false) ->
  scheduled (step atob p e) = (scheduled p ++ option_list (clipOf atob e))%list.
Proof.
  intros Hs Hh. destruct e as [a i f| |]; simpl in *; [| |discriminate Hs].
  - unfold handleAgentAudio.
    assert (E : match audioHashOf a with Some h => has h (processedAudioEvents p) | None => false end = false).
    { destruct (audioHashOf a); auto. }
    rewrite E.
    set (p1 := match audioHashOf a with Some h => markProcessed h p | None => p end).
    assert (F : started p1 = started p /\ audioQueue p1 = audioQueue p).
    { unfold p1. destruct (audioHashOf a); auto. }
    destruct F as (F1 & F2).
    destruct (atob a) as [bin|]; simpl.
    + assert (S2 : forall q, scheduled (setQueue (audioQueue p1 ++ [q]) p1) = (scheduled p ++ [audioUrl q])%list).
      { intros q. unfold scheduled. simpl. rewrite F1, F2, fmap_app, app_assoc. reflexivity. }
      destruct (isPlayingAudio p1); [apply S2|]. rewrite playNextAudio_scheduled. apply S2.
    + unfold scheduled. now rewrite F1, F2, app_nil_r.
  - unfold audioFinished. rewrite playNextAudio_scheduled. unfold scheduled. simpl.
    now rewrite app_nil_r.
Qed.

Lemma run_scheduled events : forall p l,
  processedAudioEvents p = lastN 100 l ->
  NoDup (l ++ omap hashOf events)%list ->
  Forall (fun e => isStop e = false) events ->
  scheduled (run atob events p) = (scheduled p ++ omap (clipOf atob) events)%list.
Proof.
  induction events as [|e events IH]; intros p l Hp Hd Hs; simpl.
  - now rewrite app_nil_r.
  - apply Forall_cons in Hs as [Hs1 Hs2].
    pose proof (step_processed p e) as Hq. simpl in Hd.
    assert (Hstep : scheduled (step atob p e) = (scheduled p ++ option_list (clipOf atob e))%list).
    { apply step_scheduled; [exact Hs1|]. intros h Eh. rewrite Eh in Hd.
      apply has_false. rewrite Hp. intros Hin.
      apply NoDup_app in Hd as (_ & Hd & _). apply (Hd h); [|left].
      eapply elem_of_sublist; [exact Hin | apply sublist_drop]. }
    destruct (hashOf e) as [h|] eqn:Eh.
    + assert (Hf : has h (processedAudioEvents p) = false).
      { apply has_false. rewrite Hp. intros Hin.
        apply NoDup_app in Hd as (_ & Hd & _). apply (Hd h); [|left].
        eapply elem_of_sublist; [exact Hin | apply sublist_drop]. }
      rewrite Hf, Hp, capped_lastN in Hq.
      rewrite (IH _ (l ++ [h])%list Hq); [| rewrite <- app_assoc; exact Hd | exact Hs2].
      rewrite Hstep, <- app_assoc. f_equal. now destruct (clipOf atob e).
    + rewrite (IH _ l); [| congruence | exact Hd | exact Hs2].
      rewrite Hstep, <- app_assoc. f_equal. now destruct (clipOf atob e).
Qed.

Lemma run_drain n : forall p,
  length (audioQueue p) <= n ->
  audioQueue (run atob (repeat Finished (S n)) p) = [] /\
  isAgentSpeaking (run atob (repeat Finished (S n)) p) = false /\
  isPlayingAudio (run atob (repeat Finished (S n)) p) = false /\
  started (run atob (repeat Finished (S n)) p) = scheduled p.
Proof.
  induction n as [|n IH]; intros p H.
  - destruct (audioQueue p) as [|? ?] eqn:E; simpl in H; [|lia].
    simpl. unfold audioFinished, playNextAudio, scheduled. simpl. rewrite E. simpl.
    rewrite E. now rewrite app_nil_r.
  - change (repeat Finished (S (S n))) with (Finished :: repeat Finished (S n)).
    cbn [run fold_left]. change (fold_left (step atob) ?l ?q) with (run atob l q).
    assert (L : length (audioQueue (step atob p Finished)) <= n).
    { simpl. unfold audioFinished, playNextAudio. simpl.
      destruct (audioQueue p) as [|? ?] eqn:E; simpl in *; [rewrite E; simpl|]; lia. }
    destruct (IH _ L) as (A & B & C & D). repeat split; auto.
    rewrite D. simpl. unfold audioFinished. rewrite playNextAudio_scheduled.
    reflexivity.
Qed.

End PlaybackFacts.

(** ** The WAV container *)

Lemma setBytes_spec (source : list Z) : forall front rest,
  length source <= length rest ->
  setBytes (length front) source (front ++ rest)%list =
  (front ++ source ++ drop (length source) rest)%list.
Proof.
  induction source as [|b r IH]; intros front rest H; simpl.
  - reflexivity.
  - destruct rest as [|x rest]; simpl in H; [lia|].
    rewrite insert_app_r_alt, Nat.sub_diag by lia. simpl.
    specialize (IH (front ++ [b])%list rest).
    rewrite length_app, Nat.add_1_r, <- !app_assoc in IH. simpl in IH.
    rewrite IH by lia. reflexivity.
Qed.

Lemma setBytes_take_drop source k buffer :
  k + length source <= length buffer ->
  setBytes k source buffer =
  (take k buffer ++ source ++ drop (k + length source) buffer)%list.
Proof.
  intros H. rewrite <- (take_drop k buffer) at 1.
  assert (L : length (take k buffer) = k) by (rewrite length_take; lia).
  rewrite <- L at 1. rewrite setBytes_spec by (rewrite length_drop; lia).
  now rewrite drop_drop.
Qed.

Lemma cons_eq {A} (a b : A) l k : a = b -> l = k -> a :: l = b :: k.
Proof. congruence. Qed.

Lemma div_65536 v : (v / 65536 = v / 256 / 256)%Z.
Proof. rewrite Z.div_div by lia. reflexivity. Qed.

Lemma pcmToWav_layout pcmData sampleRate :
  blobBytes (pcmToWav pcmData sampleRate) =
  (wavHeader (length pcmData) sampleRate ++ pcmData)%list.
Proof.
  unfold pcmToWav. cbv zeta. cbn [blobBytes].
  rewrite setBytes_take_drop.
  2:{ cbn [writeString]. unfold setUint32, setUint16, setUint8.
      rewrite !length_insert, length_replicate. lia. }
  cbn [Nat.add].
  cbn [writeString]. unfold setUint32, setUint16, setUint8, wavHeader, charCodes.
  cbn -[Z.div Z.modulo Z.mul Z.add Z.of_nat nat_of_ascii].
  rewrite !div_65536.
  replace (sampleRate * 1 * (16 / 8))%Z with (sampleRate * 2)%Z
    by (change (16 / 8)%Z with 2%Z; lia).
  repeat (apply cons_eq; [reflexivity|]).
  rewrite take_0, drop_ge by (rewrite length_replicate; lia).
  apply app_nil_r.
Qed.

Lemma littleEndian_bytesOf width value :
  littleEndian (bytesOf width value) = (value mod 256 ^ Z.of_nat width)%Z.
Proof.
  revert value; induction width as [|w IH]; intros v.
  - simpl. now rewrite Z.mod_1_r.
  - cbn [bytesOf littleEndian]. rewrite IH, Nat2Z.inj_succ, Z.pow_succ_r by lia.
    rewrite Z.rem_mul_r by lia. reflexivity.
Qed.

Lemma length_bytesOf width value : length (bytesOf width value) = width.
Proof. revert value; induction width; intros v; simpl; auto. Qed.

Lemma getUint_bytesOf width value front rest :
  getUint width (length front) (front ++ bytesOf width value ++ rest)%list =
  (value mod 256 ^ Z.of_nat width)%Z.
Proof.
  unfold getUint. rewrite drop_app_length.
  rewrite take_app_length' by (symmetry; apply length_bytesOf).
  apply littleEndian_bytesOf.
Qed.

Ltac read_field width value :=
  let E := fresh "E" in
  pose proof (littleEndian_bytesOf width value) as E;
  cbn -[Z.div Z.modulo Z.mul Z.add Z.of_nat Z.pow] in E |- *;
  exact E.

Lemma wavHeader_fields n rate rest :
  let wav := (wavHeader n rate ++ rest)%list in
  getUint 4 4 wav = ((36 + Z.of_nat n) mod 2 ^ 32)%Z /\
  getUint 2 22 wav = 1%Z /\
  getUint 4 24 wav = (rate mod 2 ^ 32)%Z /\
  getUint 4 28 wav = ((rate * 2) mod 2 ^ 32)%Z /\
  getUint 2 32 wav = 2%Z /\
  getUint 2 34 wav = 16%Z /\
  getUint 4 40 wav = (Z.of_nat n mod 2 ^ 32)%Z.
Proof.
  intros wav. unfold wav, wavHeader, charCodes, getUint.
  split; [read_field 4 (36 + Z.of_nat n)%Z|].
  split; [reflexivity|].
  split; [read_field 4 rate|].
  split; [read_field 4 (rate * 2)%Z|].
  split; [reflexivity|].
  split; [reflexivity|].
  read_field 4 (Z.of_nat n).
Qed.

(** ** The playback theorems *)

(** X14.  Two chunks of audio are taken for the same exactly when they
    have the same length and the same first 50 characters: the hash
    [substring(0, 50) + length] separates all other pairs, although the
    digits of the length are glued to the characters. *)
Theorem audio_hash_collision (a b : string) :
  a <> "" -> b <> "" ->
  (audioHashOf a = audioHashOf b <->
   String.length a = String.length b /\ substringTo a 50 = substringTo b 50).
Proof. exact (audioHashOf_eq_iff a b). Qed.

Lemma audio_hash_collision_witness :
  audioHashOf "UklGRiQAAABXQVZFZm10IBAAAAABAAEAgD4AAAB9AAACABAAZGF0YQAAAAA=" =
  audioHashOf "UklGRiQAAABXQVZFZm10IBAAAAABAAEAgD4AAAB9AAACABAAZGF0YQEBAQE=".
Proof.
  apply (audio_hash_collision
           "UklGRiQAAABXQVZFZm10IBAAAAABAAEAgD4AAAB9AAACABAAZGF0YQAAAAA="
           "UklGRiQAAABXQVZFZm10IBAAAAABAAEAgD4AAAB9AAACABAAZGF0YQEBAQE=").
  - discriminate.
  - discriminate.
  - split; reflexivity.
Defined.

(** X15.  A chunk that differs from a remembered one only after its
    first 50 characters, and has the same length, is dropped: nothing
    is decoded, queued or played, and the player is as before. *)
Theorem similar_audio_dropped (atob : string -> option string) (p : Player)
    (a b h : string) (eventId audioFormat : option string) :
  a <> "" ->
  audioHashOf b = Some h -> h ∈ processedAudioEvents p ->
  String.length a = String.length b -> substringTo a 50 = substringTo b 50 ->
  handleAgentAudio atob a eventId audioFormat p = p.
Proof.
  intros Ha Hb Hin Hl Hs.
  assert (Hb' : b <> "") by (intros ->; discriminate Hb).
  assert (E : audioHashOf a = Some h).
  { rewrite <- Hb. apply audioHashOf_eq_iff; auto. }
  unfold handleAgentAudio. rewrite E.
  apply has_true in Hin. now rewrite Hin.
Qed.

Lemma similar_audio_dropped_witness :
  let atob := decoderOf [] in
  let p := handleAgentAudio atob
             "UklGRiQAAABXQVZFZm10IBAAAAABAAEAgD4AAAB9AAACABAAZGF0YQAAAAA="
             (Some "e1") (Some "pcm_16000") newPlayer in
  handleAgentAudio atob
    "UklGRiQAAABXQVZFZm10IBAAAAABAAEAgD4AAAB9AAACABAAZGF0YQEBAQE="
    (Some "e2") (Some "pcm_16000") p = p.
Proof.
  intros atob p.
  apply (similar_audio_dropped atob p
           "UklGRiQAAABXQVZFZm10IBAAAAABAAEAgD4AAAB9AAACABAAZGF0YQEBAQE="
           "UklGRiQAAABXQVZFZm10IBAAAAABAAEAgD4AAAB9AAACABAAZGF0YQAAAAA="
           "UklGRiQAAABXQVZFZm10IBAAAAABAAEAgD4AAAB9AAACABAAZG60"
           (Some "e2") (Some "pcm_16000")).
  - discriminate.
  - reflexivity.
  - apply list_elem_of_here.
  - reflexivity.
  - reflexivity.
Defined.

(** X16.  The set of remembered hashes never holds more than 100
    members, whatever arrives, finishes or is stopped; as a [Set] it
    holds none twice. *)
Theorem processed_audio_bounded (atob : string -> option string) (events : list Event) :
  length (processedAudioEvents (run atob events newPlayer)) <= 100 /\
  NoDup (processedAudioEvents (run atob events newPlayer)).
Proof. apply run_bounded. simpl. split; [lia | apply NoDup_nil_2]. Qed.

(** X17.  The set is a sliding window: while the chunks that arrive have
    hashes that differ from one another and from the remembered ones,
    it holds exactly the last 100 of the hashes it has ever been given,
    oldest first.  So a chunk is recognised again only until 100 newer
    hashes have come in. *)
Theorem processed_audio_window (atob : string -> option string) (p : Player)
    (events : list Event) :
  length (processedAudioEvents p) <= 100 ->
  NoDup (processedAudioEvents p ++ omap hashOf events)%list ->
  processedAudioEvents (run atob events p) =
  lastN 100 (processedAudioEvents p ++ omap hashOf events)%list.
Proof.
  intros Hl Hd. apply run_window; [|exact Hd].
  symmetry. now apply lastN_short.
Qed.

Lemma processed_audio_window_witness :
  processedAudioEvents
    (run (decoderOf [("QUJD", "ABC")])
       [AgentAudio "QUJD" (Some "e1") None; Finished;
        AgentAudio "QUJDRA==" (Some "e1") None; Stop] newPlayer)
  = ["QUJD4"; "QUJDRA==8"].
Proof.
  apply (processed_audio_window (decoderOf [("QUJD", "ABC")]) newPlayer
           [AgentAudio "QUJD" (Some "e1") None; Finished;
            AgentAudio "QUJDRA==" (Some "e1") None; Stop]).
  - simpl. lia.
  - apply (@bool_decide_unpack _ (NoDup_dec _)). vm_compute. exact I.
Defined.

(** X18.  The two flags agree at all times, and whenever a chunk waits
    in the queue the agent counts as speaking: no chunk is left in the
    queue with nothing playing. *)
Theorem speaking_while_queued (atob : string -> option string) (events : list Event) :
  let p := run atob events newPlayer in
  isPlayingAudio p = isAgentSpeaking p /\
  (audioQueue p <> [] -> isAgentSpeaking p = true).
Proof. apply run_flags. simpl. split; [reflexivity | congruence]. Qed.

(** X19.  Chunks are played in the order of their arrival.  As long as
    the assistant is not stopped and no hash repeats, the elements
    started so far followed by the queue are exactly the chunks that
    could be decoded, in the order they came in, however the ends of
    the elements interleave with the arrivals. *)
Theorem playback_in_arrival_order (atob : string -> option string) (p : Player)
    (events : list Event) :
  length (processedAudioEvents p) <= 100 ->
  NoDup (processedAudioEvents p ++ omap hashOf events)%list ->
  Forall (fun e => isStop e = false) events ->
  scheduled (run atob events p) = (scheduled p ++ omap (clipOf atob) events)%list.
Proof.
  intros Hl Hd Hs. apply (run_scheduled atob events p (processedAudioEvents p)).
  - symmetry. now apply lastN_short.
  - exact Hd.
  - exact Hs.
Qed.

Lemma playback_in_arrival_order_witness :
  let atob := decoderOf [("QUJD", "ABC"); ("QUJDRA==", "ABCD")] in
  scheduled
    (run atob
       [AgentAudio "QUJD" (Some "e1") None; AgentAudio "QUJDRA==" (Some "e1") None;
        Finished; AgentAudio "!" (Some "e2") None] newPlayer)
  = [ {| blobType := "audio/mpeg"; blobBytes := [65; 66; 67]%Z |};
      {| blobType := "audio/mpeg"; blobBytes := [65; 66; 67; 68]%Z |} ].
Proof.
  intros atob.
  apply (playback_in_arrival_order atob newPlayer
           [AgentAudio "QUJD" (Some "e1") None; AgentAudio "QUJDRA==" (Some "e1") None;
            Finished; AgentAudio "!" (Some "e2") None]).
  - simpl. lia.
  - apply (@bool_decide_unpack _ (NoDup_dec _)). vm_compute. exact I.
  - repeat constructor.
Defined.

(** X20.  Once no more audio arrives, the queue drains: after one more
    end-of-element than there are queued chunks, every queued chunk has
    been started, in order, the queue is empty and both flags are
    cleared, so that the microphone is heard again. *)
Theorem playback_drains (atob : string -> option string) (p : Player) (k : nat) :
  let p' := run atob (repeat Finished (S (length (audioQueue p) + k))) p in
  audioQueue p' = [] /\ isAgentSpeaking p' = false /\ isPlayingAudio p' = false /\
  started p' = scheduled p.
Proof. apply run_drain. lia. Qed.

(** X21.  [pcmToWav] builds, by writes at fixed offsets into a zeroed
    buffer, exactly the canonical 44-byte header followed by the samples
    unchanged. *)
Theorem wav_layout (pcmData : list Z) (sampleRate : Z) :
  blobBytes (pcmToWav pcmData sampleRate) =
  (wavHeader (length pcmData) sampleRate ++ pcmData)%list /\
  length (blobBytes (pcmToWav pcmData sampleRate)) = 44 + length pcmData.
Proof.
  rewrite pcmToWav_layout. split; [reflexivity|].
  rewrite length_app. reflexivity.
Qed.

(** X22.  The header can be read back and is consistent: for a sample
    rate below 2^31 and less than 4 GiB of samples, the two size fields
    are the file length minus 8 and minus 44, the rate field is the
    sample rate, the byte rate is the rate times the block alignment,
    the block alignment is channels times bits per sample over 8, and
    what follows the 44 bytes is the samples. *)
Theorem wav_fields_read_back (pcmData : list Z) (sampleRate : Z) :
  (0 <= sampleRate < 2 ^ 31)%Z ->
  (Z.of_nat (length pcmData) + 36 < 2 ^ 32)%Z ->
  let wav := blobBytes (pcmToWav pcmData sampleRate) in
  getUint 4 4 wav = (Z.of_nat (length wav) - 8)%Z /\
  getUint 4 40 wav = (Z.of_nat (length wav) - 44)%Z /\
  getUint 4 24 wav = sampleRate /\
  getUint 4 28 wav = (sampleRate * getUint 2 32 wav)%Z /\
  (getUint 2 32 wav * 8 = getUint 2 22 wav * getUint 2 34 wav)%Z /\
  drop 44 wav = pcmData.
Proof.
  intros Hr Hn wav.
  assert (L : length wav = 44 + length pcmData).
  { unfold wav. rewrite pcmToWav_layout, length_app. reflexivity. }
  assert (D : drop 44 wav = pcmData).
  { unfold wav. rewrite pcmToWav_layout.
    now rewrite (drop_app_length' (wavHeader (length pcmData) sampleRate)). }
  unfold wav in *. rewrite pcmToWav_layout in *.
  destruct (wavHeader_fields (length pcmData) sampleRate pcmData)
    as (F4 & F22 & F24 & F28 & F32 & F34 & F40).
  rewrite F4, F22, F24, F28, F32, F34, F40, L.
  rewrite !Z.mod_small by lia.
  split; [lia|]. split; [lia|]. split; [reflexivity|]. split; [lia|].
  split; [reflexivity | exact D].
Qed.

Lemma wav_fields_read_back_witness :
  let wav := blobBytes (pcmToWav [0; 128; 255; 127]%Z 16000) in
  getUint 4 4 wav = 40%Z /\ getUint 4 40 wav = 4%Z /\ getUint 4 24 wav = 16000%Z /\
  getUint 4 28 wav = (16000 * getUint 2 32 wav)%Z /\
  (getUint 2 32 wav * 8 = getUint 2 22 wav * getUint 2 34 wav)%Z /\
  drop 44 wav = [0; 128; 255; 127]%Z.
Proof.
  apply (wav_fields_read_back [0; 128; 255; 127]%Z 16000).
  - lia.
  - simpl. lia.
Defined.
